(** * MerithAI Discord voice bot: the per-room voice-turn pipeline

    A shallow embedding of [src/voice_handler.py], [src/llm_client.py] and of
    the voice commands and the reply splitter of [src/discord_client.py].

    Conventions.
    - The clock counts milliseconds; a sleep lasts exactly its argument and
      straight-line code takes no time. [time.time()] is a binary64 float of
      seconds in the source: where the source subtracts and compares such
      floats the model does it in binary64 too ([F64]), on the floats the
      readings of the clock are.
    - A Python [str] is a [string]; a [bytes] value is a list of [Z] in
      [0, 256); a [dict] whose insertion order is observed is an association
      list, the other ones are [gmap]s.
    - A coroutine is a function of the world it runs in; what happens while
      it is suspended (voice packets arriving, the player thread finishing)
      is carried out by [advance]; what stops the loop from outside
      ([task.cancel()], or the room's entry deleted from [voice_clients])
      comes in the [await] during which it happens. *)

From Stdlib Require Import ZArith Lia Bool List Ascii String.
From Stdlib Require Import QArith Qround Qabs Qpower Lqa.
From Stdlib Require Import Floats Uint63.
From stdpp Require Import base tactics option list gmap strings.
Import ListNotations.
Close Scope Q_scope.
Close Scope float_scope.

Local Open Scope Z_scope.

(* ===================================================================== *)
(** * Python built-ins used by the source                                 *)
(* ===================================================================== *)

Module Py.

(** [len(range(start, stop, step))] for a step that is not zero. *)
Definition range_len (start stop step : Z) : nat :=
  if 0 <? step then Z.to_nat ((stop - start + step - 1) / step)
  else Z.to_nat ((start - stop - step - 1) / (- step)).

(** [range(start, stop, step)]; [None] stands for the [ValueError] that a
    zero step raises. *)
Definition range (start stop step : Z) : option (list Z) :=
  if step =? 0 then None
  else Some (map (fun j : nat => start + Z.of_nat j * step)
                 (seq 0 (range_len start stop step))).

(** How a slice bound is read against a sequence of length [n]: a negative
    bound counts from the end, and every bound is clamped to [0, n]. *)
Definition clamp (n k : Z) : nat :=
  Z.to_nat (if k <? 0 then Z.max 0 (k + n) else Z.min k n).

(** [l[i:j]]. *)
Definition slice {A} (l : list A) (i j : Z) : list A :=
  let n := Z.of_nat (length l) in
  take (clamp n j - clamp n i)%nat (drop (clamp n i) l).

(** A [str] is modelled by a [string] of 8-bit characters, read as the code
    points below 256; [str.isspace] on those. *)
Definition isspace (c : ascii) : bool :=
  let n := N_of_ascii c in
  ((9 <=? n) && (n <=? 13) || (28 <=? n) && (n <=? 32) || (n =? 133) || (n =? 160))%N.

Fixpoint lstrip (s : string) : string :=
  match s with
  | EmptyString => EmptyString
  | String c rest => if isspace c then lstrip rest else s
  end.

Definition reverse (s : string) : string :=
  string_of_list_ascii (rev (list_ascii_of_string s)).

Definition rstrip (s : string) : string := reverse (lstrip (reverse s)).

(** [s.strip()]. *)
Definition strip (s : string) : string := rstrip (lstrip s).

(** [s.replace(c, "")] for a one-character [c]: every occurrence goes. *)
Fixpoint remove_char (c : ascii) (s : string) : string :=
  match s with
  | EmptyString => EmptyString
  | String x rest => if Ascii.eqb x c then remove_char c rest
                     else String x (remove_char c rest)
  end.

(** [s.startswith(p)]. *)
Definition startswith (s p : string) : bool := String.prefix p s.

(** [not s]. *)
Definition is_empty (s : string) : bool := String.eqb s EmptyString.

End Py.

(* ===================================================================== *)
(** * binary64, for the times the source compares                         *)
(* ===================================================================== *)

(** The finite binary64 values are the rationals [m * 2^e] with
    [|m| < 2^53] and [-1074 <= e]; an operation of the source on floats
    returns the value nearest to the exact result, ties going to the even
    [m]. No time the source handles is large enough to overflow. *)
Module F64.
Local Open Scope Q_scope.

(** The exponent of a positive [x]: the [k] with [2^k <= x < 2^(k+1)]. *)
Definition ilog2 (x : Q) : Z :=
  let k := (Z.log2 (Qnum x) - Z.log2 (Zpos (Qden x)))%Z in
  if Qle_bool (2 ^ k) x then k else (k - 1)%Z.

(** The integer nearest to [x], the even one of the two when [x] is half
    way. *)
Definition rne (x : Q) : Z :=
  let f := Qfloor x in
  match Qcompare (x - inject_Z f) (1 # 2) with
  | Lt => f
  | Gt => (f + 1)%Z
  | Eq => if Z.even f then f else (f + 1)%Z
  end.

(** The distance between the binary64 values around a positive [x]:
    53 bits of mantissa, and no exponent below that of the subnormals. *)
Definition ulp (x : Q) : Q := 2 ^ Z.max (ilog2 x - 52) (-1074).

(** The binary64 value nearest to [x]. *)
Definition round (x : Q) : Q :=
  match Qcompare x 0 with
  | Eq => 0
  | Gt => inject_Z (rne (x / ulp x)) * ulp x
  | Lt => - (inject_Z (rne (- x / ulp (- x))) * ulp (- x))
  end.

(** What [time.time()] returns when the clock reads [t] milliseconds: the
    float nearest to [t / 1000] seconds. It is also the float a literal of
    that many seconds denotes ([3.0], [0.1]). *)
Definition of_ms (t : Z) : Q := round (inject_Z t / 1000).

(** [x - y] and [x < y] on floats. *)
Definition sub (x y : Q) : Q := round (x - y).
Definition ltb (x y : Q) : bool := match Qcompare x y with Lt => true | _ => false end.

(** Rounding to the nearest integer is off by a half at most. *)
Lemma rne_error x : Qabs (inject_Z (rne x) - x) <= 1 # 2.
Proof.
  unfold rne.
  pose proof (Qfloor_le x) as Hlo. pose proof (Qlt_floor x) as Hhi.
  rewrite inject_Z_plus in Hhi. change (inject_Z 1) with 1 in Hhi.
  apply Qabs_Qle_condition.
  destruct (Qcompare (x - inject_Z (Qfloor x)) (1 # 2)) eqn:E.
  - apply Qeq_alt in E.
    destruct (Z.even (Qfloor x)); rewrite ?inject_Z_plus; change (inject_Z 1) with 1; lra.
  - apply Qlt_alt in E. lra.
  - apply Qgt_alt in E. rewrite inject_Z_plus. change (inject_Z 1) with 1. lra.
Qed.

Lemma pow2_pos e : 0 < 2 ^ e.
Proof. apply Qpower_0_lt. reflexivity. Qed.

Lemma pow2_Z (n : Z) : (0 <= n)%Z -> 2 ^ n == inject_Z (2 ^ n).
Proof. intros Hn. rewrite Zpower_Qpower by exact Hn. reflexivity. Qed.

Lemma ilog2_le x : 0 < x -> 2 ^ ilog2 x <= x.
Proof.
  intros Hx. unfold ilog2. cbv zeta.
  destruct (Qle_bool (2 ^ (Z.log2 (Qnum x) - Z.log2 (Z.pos (Qden x)))) x) eqn:E.
  - apply Qle_bool_iff, E.
  - clear E. destruct x as [n d]. cbn [Qnum Qden].
    assert (Hn : (0 < n)%Z) by (unfold Qlt in Hx; cbn in Hx; lia).
    pose proof (Z.log2_spec n Hn) as [Hn1 _].
    pose proof (Z.log2_spec (Z.pos d) (Pos2Z.is_pos d)) as [_ Hd2].
    pose proof (Z.log2_nonneg n) as Ha. pose proof (Z.log2_nonneg (Z.pos d)) as Hb.
    set (a := Z.log2 n) in *. set (b := Z.log2 (Z.pos d)) in *.
    replace (a - b - 1)%Z with (a - Z.succ b)%Z by lia.
    rewrite Qpower_minus by discriminate.
    rewrite (pow2_Z a), (pow2_Z (Z.succ b)) by lia.
    rewrite (Qmake_Qdiv n d).
    assert (H1 : inject_Z (2 ^ a) <= inject_Z n) by (rewrite <- Zle_Qle; exact Hn1).
    assert (H2 : inject_Z (Z.pos d) <= inject_Z (2 ^ Z.succ b))
      by (rewrite <- Zle_Qle; lia).
    assert (H3 : 0 < inject_Z (Z.pos d)) by (rewrite <- (Zlt_Qlt 0); lia).
    assert (H4 : 0 < inject_Z (2 ^ a)) by (rewrite <- (Zlt_Qlt 0); lia).
    apply Qle_shift_div_l; [exact H3 |].
    unfold Qdiv. rewrite <- Qmult_assoc, (Qmult_comm (/ _)), Qmult_assoc.
    apply Qle_shift_div_r; [lra |]. nra.
Qed.

(** Below [2^41] the floats are less than [2^-12] apart, and rounding is
    off by [2^-13] at most. *)
Definition big : Q := 2199023255552.      (* 2^41 *)
Definition eps : Q := 1 # 8192.           (* 2^-13 *)

Lemma ulp_small x : 0 < x -> x < big -> ulp x <= 1 # 4096.
Proof.
  intros Hx Hb. unfold ulp.
  assert (Hl : (ilog2 x < 41)%Z).
  { apply (Qpower_lt_compat_l_inv 2); [| reflexivity].
    apply Qle_lt_trans with x; [apply ilog2_le, Hx |].
    change (2 ^ 41) with big. exact Hb. }
  change (1 # 4096) with (2 ^ (-12)).
  apply Qpower_le_compat_l; [lia | discriminate].
Qed.

Lemma round_pos_error x : 0 < x -> x < big ->
  Qabs (inject_Z (rne (x / ulp x)) * ulp x - x) <= eps.
Proof.
  intros Hx Hb.
  pose proof (ulp_small x Hx Hb) as Hu. pose proof (pow2_pos (Z.max (ilog2 x - 52) (-1074))) as Hp.
  fold (ulp x) in Hp.
  pose proof (rne_error (x / ulp x)) as He.
  apply Qabs_Qle_condition in He. apply Qabs_Qle_condition.
  assert (Hx' : x == (x / ulp x) * ulp x) by (field; lra).
  revert He Hx' Hu Hp.
  generalize (inject_Z (rne (x / ulp x))) (x / ulp x) (ulp x). unfold eps.
  intros r y u He Hx' Hu Hp. split; nra.
Qed.

Lemma round_error x : - big < x -> x < big -> Qabs (round x - x) <= eps.
Proof.
  intros Hlo Hhi. unfold round.
  destruct (Qcompare x 0) eqn:E.
  - apply Qeq_alt in E. apply Qabs_Qle_condition. unfold eps. lra.
  - apply Qlt_alt in E.
    assert (H := round_pos_error (- x) ltac:(lra) ltac:(lra)).
    apply Qabs_Qle_condition in H. apply Qabs_Qle_condition. lra.
  - apply Qgt_alt in E. apply round_pos_error; lra.
Qed.


Lemma ltb_lt x y : ltb x y = true <-> x < y.
Proof.
  unfold ltb. rewrite Qlt_alt. destruct (Qcompare x y); split; congruence.
Qed.

Lemma ltb_ge x y : y <= x -> ltb x y = false.
Proof.
  intros H. destruct (ltb x y) eqn:E; [| reflexivity].
  apply ltb_lt in E. lra.
Qed.

(** A clock reading that binary64 resolves far beyond the millisecond. *)
Definition resolved (t : Z) : Prop := (0 <= t < 2 ^ 50)%Z.

Lemma of_ms_error t : resolved t ->
  0 <= inject_Z t / 1000 /\ inject_Z t / 1000 < 1125899906843 /\
  Qabs (of_ms t - inject_Z t / 1000) <= eps.
Proof.
  intros [H0 H1].
  assert (Hq0 : 0 <= inject_Z t) by (rewrite (Zle_Qle 0) in H0; exact H0).
  assert (Hq1 : inject_Z t < 1125899906842624)
    by (rewrite Zlt_Qlt in H1; exact H1).
  assert (Hd : inject_Z t / 1000 == inject_Z t * (1 # 1000)) by (field; discriminate).
  split; [lra |]. split; [lra |].
  unfold of_ms. apply round_error; unfold big; lra.
Qed.

(** The elapsed time [t1 - t0], as binary64 has it, against [d]: the
    roundings never make up for a millisecond. *)
Lemma elapsed_cmp t1 t0 d :
  resolved t1 -> resolved t0 -> resolved d ->
  ((t1 - t0 < d)%Z -> sub (of_ms t1) (of_ms t0) < of_ms d) /\
  ((d < t1 - t0)%Z -> of_ms d < sub (of_ms t1) (of_ms t0)).
Proof.
  intros H1 H0 Hd.
  destruct (of_ms_error t1 H1) as (A0 & A1 & Ae).
  destruct (of_ms_error t0 H0) as (B0 & B1 & Be).
  destruct (of_ms_error d Hd) as (D0 & D1 & De).
  apply Qabs_Qle_condition in Ae, Be, De.
  assert (Se : Qabs (sub (of_ms t1) (of_ms t0) - (of_ms t1 - of_ms t0)) <= eps)
    by (apply round_error; unfold big, eps in *; lra).
  apply Qabs_Qle_condition in Se.
  assert (E1 : inject_Z t1 / 1000 == inject_Z t1 * (1 # 1000)) by (field; discriminate).
  assert (E0 : inject_Z t0 / 1000 == inject_Z t0 * (1 # 1000)) by (field; discriminate).
  assert (Ed : inject_Z d / 1000 == inject_Z d * (1 # 1000)) by (field; discriminate).
  revert Ae Be De Se E1 E0 Ed.
  generalize (sub (of_ms t1) (of_ms t0)) (of_ms t1) (of_ms t0) (of_ms d)
             (inject_Z t1 / 1000) (inject_Z t0 / 1000) (inject_Z d / 1000).
  unfold eps. intros s a b c qa qb qd Ae Be De Se E1 E0 Ed.
  split; intros Hlt.
  - assert (H : inject_Z t1 + 1 <= inject_Z d + inject_Z t0).
    { change 1 with (inject_Z 1). rewrite <- !inject_Z_plus, <- Zle_Qle. lia. }
    lra.
  - assert (H : inject_Z d + inject_Z t0 + 1 <= inject_Z t1).
    { change 1 with (inject_Z 1). rewrite <- !inject_Z_plus, <- Zle_Qle. lia. }
    lra.
Qed.

(** Two readings of the clock that differ are read as different floats,
    in the same order. *)
Lemma of_ms_lt t0 t1 : resolved t0 -> resolved t1 -> (t0 < t1)%Z -> of_ms t0 < of_ms t1.
Proof.
  intros H0 H1 Hlt.
  destruct (of_ms_error t1 H1) as (A0 & A1 & Ae).
  destruct (of_ms_error t0 H0) as (B0 & B1 & Be).
  apply Qabs_Qle_condition in Ae, Be.
  assert (E1 : inject_Z t1 / 1000 == inject_Z t1 * (1 # 1000)) by (field; discriminate).
  assert (E0 : inject_Z t0 / 1000 == inject_Z t0 * (1 # 1000)) by (field; discriminate).
  assert (H : inject_Z t0 + 1 <= inject_Z t1).
  { change 1 with (inject_Z 1). rewrite <- !inject_Z_plus, <- Zle_Qle. lia. }
  revert Ae Be E1 E0.
  generalize (of_ms t1) (of_ms t0) (inject_Z t1 / 1000) (inject_Z t0 / 1000).
  unfold eps. intros a b qa qb Ae Be E1 E0. lra.
Qed.

End F64.

(** ** Comparisons of times *)

(** The times for which the model computes in binary64 as the source
    does: from 0 to [2^50] ms, which is from the epoch to 35 000 years after
    it. A clock outside of them is none the source will ever read; the model
    then compares the milliseconds, and the loops that poll the clock end
    there as they do elsewhere. *)
Definition resolved (t : Z) : bool := (0 <=? t) && (t <? 2 ^ 50).

(** [t1 - t0 < d] as the source computes it, where [t1] and [t0] are what
    [time.time()] returned when the clock read [t1] and [t0] ms, and [d] is
    the float of [d / 1000] seconds. *)
Definition elapsed_lt (t1 t0 d : Z) : bool :=
  if resolved t1 && resolved t0 && resolved d
  then F64.ltb (F64.sub (F64.of_ms t1) (F64.of_ms t0)) (F64.of_ms d)
  else t1 - t0 <? d.

(** [t1 - t0 > d]. *)
Definition elapsed_gt (t1 t0 d : Z) : bool :=
  if resolved t1 && resolved t0 && resolved d
  then F64.ltb (F64.of_ms d) (F64.sub (F64.of_ms t1) (F64.of_ms t0))
  else t1 - t0 >? d.

(** [t1 > t0], for two readings of the clock. *)
Definition later (t1 t0 : Z) : bool :=
  if resolved t1 && resolved t0
  then F64.ltb (F64.of_ms t0) (F64.of_ms t1)
  else t1 >? t0.

Lemma resolved_spec t : resolved t = true <-> F64.resolved t.
Proof. unfold resolved, F64.resolved. rewrite andb_true_iff, Z.leb_le, Z.ltb_lt. tauto. Qed.

Lemma elapsed_lt_spec t1 t0 d :
  (t1 - t0 < d -> elapsed_lt t1 t0 d = true) /\
  (d < t1 - t0 -> elapsed_lt t1 t0 d = false).
Proof.
  unfold elapsed_lt.
  destruct (resolved t1 && resolved t0 && resolved d) eqn:E.
  - apply andb_true_iff in E as [E Ed]. apply andb_true_iff in E as [E1 E0].
    apply resolved_spec in E1, E0, Ed.
    destruct (F64.elapsed_cmp t1 t0 d E1 E0 Ed) as [Hlt Hgt].
    split; intros H.
    + apply F64.ltb_lt, Hlt, H.
    + apply F64.ltb_ge, QArith_base.Qlt_le_weak, Hgt, H.
  - split; intros H; [apply Z.ltb_lt | apply Z.ltb_ge]; lia.
Qed.

Lemma elapsed_gt_spec t1 t0 d :
  (d < t1 - t0 -> elapsed_gt t1 t0 d = true) /\
  (t1 - t0 < d -> elapsed_gt t1 t0 d = false).
Proof.
  unfold elapsed_gt.
  destruct (resolved t1 && resolved t0 && resolved d) eqn:E.
  - apply andb_true_iff in E as [E Ed]. apply andb_true_iff in E as [E1 E0].
    apply resolved_spec in E1, E0, Ed.
    destruct (F64.elapsed_cmp t1 t0 d E1 E0 Ed) as [Hlt Hgt].
    split; intros H.
    + apply F64.ltb_lt, Hgt, H.
    + apply F64.ltb_ge, QArith_base.Qlt_le_weak, Hlt, H.
  - split; intros H; [apply Z.gtb_lt | rewrite Z.gtb_ltb; apply Z.ltb_ge]; lia.
Qed.

Lemma elapsed_lt_true t1 t0 d : elapsed_lt t1 t0 d = true -> t1 - t0 <= d.
Proof.
  intros H. destruct (Z_le_gt_dec (t1 - t0) d) as [|Hgt]; [assumption |].
  rewrite (proj2 (elapsed_lt_spec t1 t0 d)) in H by lia. discriminate.
Qed.

Lemma elapsed_lt_false t1 t0 d : elapsed_lt t1 t0 d = false -> d <= t1 - t0.
Proof.
  intros H. destruct (Z_le_gt_dec d (t1 - t0)) as [|Hgt]; [assumption |].
  rewrite (proj1 (elapsed_lt_spec t1 t0 d)) in H by lia. discriminate.
Qed.

Lemma elapsed_gt_true t1 t0 d : elapsed_gt t1 t0 d = true -> d <= t1 - t0.
Proof.
  intros H. destruct (Z_le_gt_dec d (t1 - t0)) as [|Hgt]; [assumption |].
  rewrite (proj2 (elapsed_gt_spec t1 t0 d)) in H by lia. discriminate.
Qed.

Lemma elapsed_gt_false t1 t0 d : elapsed_gt t1 t0 d = false -> t1 - t0 <= d.
Proof.
  intros H. destruct (Z_le_gt_dec (t1 - t0) d) as [|Hgt]; [assumption |].
  rewrite (proj1 (elapsed_gt_spec t1 t0 d)) in H by lia. discriminate.
Qed.

(** The same comparisons made by the binary64 operations of the kernel, on
    the float the division of the milliseconds by 1000 gives. *)
Definition prim_secs (t : Z) : float :=
  PrimFloat.div (PrimFloat.of_uint63 (Uint63.of_Z t)) 1000%float.

Definition prim_elapsed_lt (t1 t0 d : Z) : bool :=
  PrimFloat.ltb (PrimFloat.sub (prim_secs t1) (prim_secs t0)) (prim_secs d).

Definition prim_elapsed_gt (t1 t0 d : Z) : bool :=
  PrimFloat.ltb (prim_secs d) (PrimFloat.sub (prim_secs t1) (prim_secs t0)).

(** They agree with [elapsed_lt] and [elapsed_gt] at every gap of exactly
    3 s and of exactly 30 s that begins in the first 3 s, and around now
    (1.7e12 ms after the epoch). *)
Example elapsed_as_the_kernel_computes :
  forallb (fun t =>
             Bool.eqb (elapsed_lt (t + 3000) t 3000) (prim_elapsed_lt (t + 3000) t 3000)
             && Bool.eqb (elapsed_gt (t + 30000) t 30000)
                         (prim_elapsed_gt (t + 30000) t 30000)
             && Bool.eqb (elapsed_lt (1700000000000 + t + 3000) (1700000000000 + t) 3000)
                  (prim_elapsed_lt (1700000000000 + t + 3000) (1700000000000 + t) 3000))
          (map Z.of_nat (seq 0 3000)) = true /\
  length (List.filter (fun t => elapsed_lt (t + 3000) t 3000) (map Z.of_nat (seq 0 3000)))
  = 376%nat.
Proof. vm_compute. split; reflexivity. Qed.

(** Two readings of the clock compare as their milliseconds do. *)
Lemma later_spec t1 t0 : later t1 t0 = (t1 >? t0).
Proof.
  unfold later.
  destruct (resolved t1 && resolved t0) eqn:E; [| reflexivity].
  apply andb_true_iff in E as [E1 E0].
  apply resolved_spec in E1, E0.
  destruct (Z.gtb_spec t1 t0) as [H|H].
  - apply F64.ltb_lt, F64.of_ms_lt; [assumption | assumption | lia].
  - apply F64.ltb_ge.
    destruct (Z.eq_dec t1 t0) as [->|Hne]; [apply QArith_base.Qle_refl |].
    apply QArith_base.Qlt_le_weak, F64.of_ms_lt; [assumption | assumption | lia].
Qed.

(* ===================================================================== *)
(** * discord_client.py: splitting a reply into messages                  *)
(* ===================================================================== *)

(** [MerithBot._chunk_text]: the values the generator yields, in order. *)
Definition _chunk_text {A} (text : list A) (chunk_size : Z) : option (list (list A)) :=
  match Py.range 0 (Z.of_nat (length text)) chunk_size with
  | None => None
  | Some idx => Some (map (fun i => Py.slice text i (i + chunk_size)) idx)
  end.

(** The chunk size [on_message] passes, which is also the default. *)
Definition reply_chunk_size : Z := 1950.

Section ChunkText.
Context {A : Type}.
Implicit Types (l text : list A) (k c : nat).

Lemma slice_take_drop text k (j : nat) :
  (0 < k)%nat -> (j * k <= length text)%nat ->
  Py.slice text (Z.of_nat j * Z.of_nat k) (Z.of_nat j * Z.of_nat k + Z.of_nat k)
  = take k (drop (j * k) text).
Proof.
  intros Hk Hj. unfold Py.slice, Py.clamp.
  assert (E1 : (Z.of_nat j * Z.of_nat k <? 0) = false) by (apply Z.ltb_ge; nia).
  assert (E2 : (Z.of_nat j * Z.of_nat k + Z.of_nat k <? 0) = false) by (apply Z.ltb_ge; nia).
  rewrite E1, E2.
  replace (Z.to_nat (Z.min (Z.of_nat j * Z.of_nat k) (Z.of_nat (length text))))
    with (j * k)%nat by nia.
  destruct (Z.min_spec (Z.of_nat j * Z.of_nat k + Z.of_nat k) (Z.of_nat (length text)))
    as [[Hlt ->] | [Hge ->]].
  - replace (Z.to_nat (Z.of_nat j * Z.of_nat k + Z.of_nat k) - j * k)%nat with k by nia.
    reflexivity.
  - rewrite Nat2Z.id.
    rewrite (take_ge (drop (j * k) text) k) by (rewrite length_drop; nia).
    apply take_ge. rewrite length_drop. lia.
Qed.

Lemma chunks_concat k c : forall l,
  (0 < k)%nat -> (length l <= c * k)%nat ->
  concat (map (fun j : nat => take k (drop (j * k) l)) (seq 0 c)) = l.
Proof.
  induction c as [|c IH]; intros l Hk Hl.
  - destruct l; [reflexivity | simpl in Hl; lia].
  - rewrite <- cons_seq, <- seq_shift, map_cons, map_map. simpl concat.
    rewrite drop_0.
    rewrite (map_ext _ (fun j : nat => take k (drop (j * k) (drop k l)))).
    2:{ intros j. rewrite drop_drop. do 2 f_equal; lia. }
    rewrite IH; [apply take_drop | assumption | rewrite length_drop; lia].
Qed.

Lemma range_len_chunks (n k : nat) :
  (0 < k)%nat ->
  (n <= Py.range_len 0 (Z.of_nat n) (Z.of_nat k) * k)%nat /\
  forall j : nat, (j < Py.range_len 0 (Z.of_nat n) (Z.of_nat k))%nat -> (j * k < n)%nat.
Proof.
  intros Hk. unfold Py.range_len.
  assert (E : (0 <? Z.of_nat k) = true) by (apply Z.ltb_lt; lia). rewrite E.
  set (q := (Z.of_nat n - 0 + Z.of_nat k - 1) / Z.of_nat k).
  assert (Hq : Z.of_nat k * q <= Z.of_nat n - 0 + Z.of_nat k - 1
               < Z.of_nat k * (q + 1)).
  { subst q. split.
    - apply Z.mul_div_le. lia.
    - apply Z.mul_succ_div_gt. lia. }
  assert (0 <= q) by (subst q; apply Z.div_pos; lia).
  split; [nia | intros j Hj; nia].
Qed.

(** With a positive chunk size the generator yields pieces of at most that
    many characters whose concatenation is the text. *)
Lemma chunk_text_positive text (k : nat) :
  (0 < k)%nat ->
  exists chunks,
    _chunk_text text (Z.of_nat k) = Some chunks /\
    Forall (fun piece => (length piece <= k)%nat) chunks /\
    concat chunks = text.
Proof.
  intros Hk. unfold _chunk_text, Py.range.
  assert (E : (Z.of_nat k =? 0) = false) by (apply Z.eqb_neq; lia). rewrite E.
  destruct (range_len_chunks (length text) k Hk) as [Hcover Hin].
  set (c := Py.range_len 0 (Z.of_nat (length text)) (Z.of_nat k)) in *.
  eexists; split; [reflexivity |].
  rewrite map_map.
  rewrite (map_ext_in _ (fun j : nat => take k (drop (j * k) text))).
  2:{ intros j Hj%in_seq. simpl. apply slice_take_drop; [assumption |].
      specialize (Hin j). lia. }
  split.
  - apply Forall_forall. intros piece Hp.
    apply list_elem_of_In, in_map_iff in Hp. destruct Hp as (j & <- & _).
    rewrite length_take. lia.
  - apply chunks_concat; assumption.
Qed.
End ChunkText.

(** C10. Every text is split by the reply-splitting helper, called with the
    chunk size of 1950 characters that [on_message] uses, into chunks of at
    most 1950 characters whose concatenation, in the order they are yielded,
    is the text itself. *)
Theorem chunk_text_lossless {A} (text : list A) :
  exists chunks,
    _chunk_text text reply_chunk_size = Some chunks /\
    Forall (fun piece => Z.of_nat (length piece) <= reply_chunk_size) chunks /\
    concat chunks = text.
Proof.
  destruct (chunk_text_positive text 1950) as (chunks & Hc & Hlen & Hcat); [lia |].
  exists chunks. split; [exact Hc | split; [| exact Hcat]].
  eapply Forall_impl; [exact Hlen |]. unfold reply_chunk_size. simpl. lia.
Qed.

(* ===================================================================== *)
(** * Joining and leaving: the two room maps                              *)
(* ===================================================================== *)

(** What an awaited call into discord.py does: it returns, or it raises. *)
Inductive outcome := Succeeds | Fails.

(** The state shared by the command handlers. A voice connection and an
    asyncio task are objects the maps point at, so they are named by numbers
    and kept in a store of their own: [connected] holds the connections that
    are up, [tasks] the tasks running [full_voice_loop] that have not
    finished, each with the guild it was started for. *)
Record Bot := mkBot {
  voice_clients : gmap Z nat;   (* VoiceHandler.voice_clients *)
  voice_loops : gmap Z nat;     (* MerithBot.voice_loops *)
  connected : gset nat;
  tasks : gmap nat Z;
  next_connection : nat;
  next_task : nat
}.

Definition set_voice_clients (f : gmap Z nat -> gmap Z nat) (b : Bot) : Bot :=
  mkBot (f (voice_clients b)) (voice_loops b) (connected b) (tasks b)
        (next_connection b) (next_task b).

Definition initial_bot : Bot := mkBot ∅ ∅ ∅ ∅ 0 0.

(** [await self.voice_clients[guild_id].disconnect()] once it has returned:
    the connection the map points at is down; the map is not touched. *)
Definition disconnect (guild_id : Z) (b : Bot) : Bot :=
  match voice_clients b !! guild_id with
  | Some c => mkBot (voice_clients b) (voice_loops b) (connected b ∖ {[c]}) (tasks b)
                    (next_connection b) (next_task b)
  | None => b
  end.

(** [voice_client = await channel.connect()] once it has returned, followed
    by [self.voice_clients[guild_id] = voice_client]. *)
Definition connect (guild_id : Z) (b : Bot) : Bot :=
  let c := next_connection b in
  mkBot (<[guild_id := c]> (voice_clients b)) (voice_loops b) ({[c]} ∪ connected b)
        (tasks b) (S c) (next_task b).

(** [VoiceHandler.join_voice_channel]. [voice] is the guild of
    [member.voice.channel], [None] when the member is in no voice channel;
    [disc] and [conn] say what [disconnect()] and [connect()] do. An
    exception anywhere in the [try] block is caught and turned into
    [False]. *)
Definition join_voice_channel (voice : option Z) (disc conn : outcome) (b : Bot)
  : bool * Bot :=
  match voice with
  | None => (false, b)
  | Some guild_id =>
      let after_disconnect :=
        match voice_clients b !! guild_id with
        | Some _ => match disc with
                    | Succeeds => Some (disconnect guild_id b)
                    | Fails => None
                    end
        | None => Some b
        end in
      match after_disconnect with
      | None => (false, b)
      | Some b1 => match conn with
                   | Succeeds => (true, connect guild_id b1)
                   | Fails => (false, b1)
                   end
      end
  end.

(** The tail of [join_voice] after the confirmation message has been sent
    (lines 209-215). [_get_log_channel] has no suspension point of its own,
    so the test and the assignment run without another handler in between. *)
Definition start_voice_loop (guild_id : Z) (b : Bot) : Bot :=
  match voice_loops b !! guild_id with
  | Some _ => b
  | None =>
      let t := next_task b in
      mkBot (voice_clients b) (<[guild_id := t]> (voice_loops b)) (connected b)
            (<[t := guild_id]> (tasks b)) (next_connection b) (S t)
  end.

(** [MerithBot.join_voice]. [send] is what
    [interaction.response.send_message] does after a successful join; when
    it raises, the handler's [except] answers with the error and no loop is
    started. *)
Definition join_voice (voice : option Z) (disc conn send : outcome) (b : Bot) : Bot :=
  match voice with
  | None => b
  | Some guild_id =>
      let '(success, b1) := join_voice_channel voice disc conn b in
      if success then
        match send with
        | Succeeds => start_voice_loop guild_id b1
        | Fails => b1
        end
      else b1
  end.

(** The head of [leave_voice] (lines 229-234): [task.cancel()] and the
    removal of the entry. The cancelled task is waiting in an [await]; the
    event loop throws [CancelledError] into it before it runs anything that
    was scheduled later, and the loop's handler and [finally] block do not
    wait again, so the task is finished before any handler resumes. *)
Definition cancel_voice_loop (guild_id : Z) (b : Bot) : Bot :=
  match voice_loops b !! guild_id with
  | Some t =>
      mkBot (voice_clients b) (delete guild_id (voice_loops b)) (connected b)
            (delete t (tasks b)) (next_connection b) (next_task b)
  | None => b
  end.

(** [VoiceHandler.leave_voice_channel]. *)
Definition leave_voice_channel (guild_id : Z) (disc : outcome) (b : Bot) : bool * Bot :=
  match voice_clients b !! guild_id with
  | Some _ =>
      match disc with
      | Succeeds => (true, set_voice_clients (delete guild_id) (disconnect guild_id b))
      | Fails => (false, b)
      end
  | None => (false, b)
  end.

(** [MerithBot.leave_voice]. *)
Definition leave_voice (guild_id : Z) (disc : outcome) (b : Bot) : Bot :=
  snd (leave_voice_channel guild_id disc (cancel_voice_loop guild_id b)).

(** A loop task that ends on its own (the voice client cannot listen, the
    [while] test fails, or a fatal error reaches the outer handler):
    [voice_loops] keeps its entry. *)
Definition task_ends (t : nat) (b : Bot) : Bot :=
  mkBot (voice_clients b) (voice_loops b) (connected b) (delete t (tasks b))
        (next_connection b) (next_task b).

(** The handlers run on one cooperative scheduler and give way at every
    [await]. One step is what a handler does between two suspension points;
    steps of different handlers, for the same room or not, come in any
    order. *)
Inductive bot_step : Bot -> Bot -> Prop :=
| step_disconnected guild_id b :
    bot_step b (disconnect guild_id b)
| step_connected guild_id b :
    bot_step b (connect guild_id b)
| step_start guild_id b :
    bot_step b (start_voice_loop guild_id b)
| step_cancel guild_id b :
    bot_step b (cancel_voice_loop guild_id b)
| step_left guild_id b :
    bot_step b (set_voice_clients (delete guild_id) b)
| step_task_ends t b :
    bot_step b (task_ends t b).

Inductive reachable : Bot -> Prop :=
| reach_initial : reachable initial_bot
| reach_step b b' : reachable b -> bot_step b b' -> reachable b'.

(** Every task that has not finished is the one its room's entry of
    [voice_loops] points at. *)
Definition registered (b : Bot) : Prop :=
  forall t guild_id, tasks b !! t = Some guild_id -> voice_loops b !! guild_id = Some t.

Lemma registered_step b b' : bot_step b b' -> registered b -> registered b'.
Proof.
  intros Hstep Hreg. destruct Hstep as [g b|g b|g b|g b|g b|t0 b];
    unfold registered in *; simpl.
  - unfold disconnect. destruct (voice_clients b !! g); simpl; auto.
  - auto.
  - unfold start_voice_loop. destruct (voice_loops b !! g) eqn:Eg; simpl; auto.
    intros t g'. destruct (decide (next_task b = t)) as [<-|Hne].
    + rewrite lookup_insert_eq. intros [= <-]. apply lookup_insert_eq.
    + rewrite lookup_insert_ne by assumption. intros Ht.
      specialize (Hreg _ _ Ht).
      rewrite lookup_insert_ne; [assumption | congruence].
  - unfold cancel_voice_loop. destruct (voice_loops b !! g) as [t0|] eqn:Eg; simpl; auto.
    intros t g'. destruct (decide (t0 = t)) as [<-|Hne].
    + rewrite lookup_delete_eq. discriminate.
    + rewrite lookup_delete_ne by assumption. intros Ht.
      specialize (Hreg _ _ Ht).
      rewrite lookup_delete_ne; [assumption | congruence].
  - auto.
  - intros t g'. destruct (decide (t0 = t)) as [<-|Hne].
    + rewrite lookup_delete_eq. discriminate.
    + rewrite lookup_delete_ne by assumption. auto.
Qed.

Lemma reachable_registered b : reachable b -> registered b.
Proof.
  induction 1 as [|b b' _ IH Hstep].
  - intros t g. unfold initial_bot. simpl. rewrite lookup_empty. discriminate.
  - eapply registered_step; eassumption.
Qed.

(** The sequential handlers are made of these steps. *)
Lemma join_voice_reachable voice disc conn send b :
  reachable b -> reachable (join_voice voice disc conn send b).
Proof.
  intros Hb. unfold join_voice, join_voice_channel.
  destruct voice as [g|]; [|assumption].
  assert (Hd : reachable (disconnect g b)) by (eapply reach_step; [eassumption | constructor]).
  destruct (voice_clients b !! g), disc, conn, send; simpl;
    repeat (first [assumption | eapply reach_step; [| constructor]]).
Qed.

Lemma leave_voice_reachable guild_id disc b :
  reachable b -> reachable (leave_voice guild_id disc b).
Proof.
  intros Hb. unfold leave_voice, leave_voice_channel.
  assert (Hc : reachable (cancel_voice_loop guild_id b))
    by (eapply reach_step; [eassumption | constructor]).
  destruct (voice_clients (cancel_voice_loop guild_id b) !! guild_id), disc; simpl;
    repeat (first [assumption | eapply reach_step; [| constructor]]).
Qed.

(** At most one loop task per room is alive in any state the handlers can
    bring about. *)
Lemma one_task_per_room b t1 t2 guild_id :
  reachable b ->
  tasks b !! t1 = Some guild_id -> tasks b !! t2 = Some guild_id -> t1 = t2.
Proof.
  intros Hb H1 H2. apply reachable_registered in Hb.
  apply Hb in H1. apply Hb in H2. congruence.
Qed.

(** A join fails when the member is in no voice channel, when dropping the
    room's previous connection raises, or when [connect()] raises. *)
Definition join_fails (voice : option Z) (disc conn : outcome) (b : Bot) : Prop :=
  match voice with
  | None => True
  | Some guild_id =>
      (is_Some (voice_clients b !! guild_id) /\ disc = Fails) \/ conn = Fails
  end.

(** C9. A join attempt that fails makes [join_voice_channel] return [False];
    the room-to-connection map is then the one it was before the attempt, and
    [join_voice] starts no voice loop task: [voice_loops] and the set of
    running tasks are unchanged. (When the room already had a connection and
    [connect()] is what failed, that connection has been dropped by then; its
    entry is still in the map.) *)
Theorem failed_join_leaves_no_session voice disc conn send b :
  join_fails voice disc conn b ->
  fst (join_voice_channel voice disc conn b) = false /\
  voice_clients (snd (join_voice_channel voice disc conn b)) = voice_clients b /\
  voice_clients (join_voice voice disc conn send b) = voice_clients b /\
  voice_loops (join_voice voice disc conn send b) = voice_loops b /\
  tasks (join_voice voice disc conn send b) = tasks b.
Proof.
  unfold join_fails, join_voice, join_voice_channel, disconnect.
  destruct voice as [g|]; [|intros _; repeat split].
  destruct (voice_clients b !! g) as [c|] eqn:Eg.
  - intros [[_ ->] | ->]; [| destruct disc]; simpl;
      rewrite ?Eg; repeat split; reflexivity.
  - intros [[[c Hc] _] | ->]; [discriminate | simpl; repeat split].
Qed.

Lemma failed_join_leaves_no_session_witness :
  join_fails (Some 7) Succeeds Fails initial_bot /\
  tasks (join_voice (Some 7) Succeeds Fails Succeeds initial_bot) = tasks initial_bot.
Proof.
  assert (H : join_fails (Some 7) Succeeds Fails initial_bot) by (right; reflexivity).
  split; [exact H |].
  apply (failed_join_leaves_no_session (Some 7) Succeeds Fails Succeeds initial_bot H).
Defined.

(* ===================================================================== *)
(** * voice_handler.py: the audio sink                                    *)
(* ===================================================================== *)

Module AudioSink.

(** [audio_data] maps a speaker to the bytes received from them, oldest
    speaker first (a [dict] keeps insertion order, and the code reads its
    first key). *)
Record t := mk {
  audio_data : list (Z * list Z);
  last_packet_time : Z
}.

(** [__init__], at time [now]. *)
Definition init (now : Z) : t := mk [] now.

Fixpoint buffer_write (user_id : Z) (pcm : list Z) (d : list (Z * list Z))
  : list (Z * list Z) :=
  match d with
  | [] => [(user_id, pcm)]
  | (k, b) :: rest =>
      if k =? user_id then (k, b ++ pcm) :: rest
      else (k, b) :: buffer_write user_id pcm rest
  end.

(** [write], called at time [now]. *)
Definition write (user_id : Z) (pcm : list Z) (now : Z) (self : t) : t :=
  mk (buffer_write user_id pcm (audio_data self)) now.

(** [cleanup]; the assignment [sink.audio_data = {}] that follows it in
    [record_audio_from_channel] leaves the same state. *)
Definition cleanup (self : t) : t := mk [] (last_packet_time self).

Fixpoint buffer_get (user_id : Z) (d : list (Z * list Z)) : option (list Z) :=
  match d with
  | [] => None
  | (k, b) :: rest => if k =? user_id then Some b else buffer_get user_id rest
  end.

(** One little-endian 16-bit sample. *)
Definition int16 (lo hi : Z) : Z :=
  let u := lo + 256 * hi in if u <? 32768 then u else u - 65536.

(** [np.frombuffer(audio_bytes, dtype=np.int16)]: [None] stands for the
    [ValueError] raised on an odd number of bytes. *)
Fixpoint frombuffer_int16 (b : list Z) : option (list Z) :=
  match b with
  | [] => Some []
  | [_] => None
  | lo :: hi :: rest => option_map (cons (int16 lo hi)) (frombuffer_int16 rest)
  end.

(** [get_audio_data]. The array it returns holds each sample divided by
    32768 as a float32, which is exact for a 16-bit sample; it is modelled by
    the samples themselves. *)
Definition get_audio_data (user_id : option Z) (self : t) : option (list Z) :=
  let own :=
    match user_id with
    | Some u => if u =? 0 then None else buffer_get u (audio_data self)
    | None => None
    end in
  let audio_bytes :=
    match own with
    | Some b => Some b
    | None => match audio_data self with
              | [] => None
              | (_, b) :: _ => Some b
              end
    end in
  match audio_bytes with
  | None => None
  | Some [] => None
  | Some b => frombuffer_int16 b
  end.

End AudioSink.

(* ===================================================================== *)
(** * The world one room's loop runs in                                   *)
(* ===================================================================== *)

(** A voice packet still to come, [pk_after] milliseconds after the one
    before it (after now, for the first). *)
Record Packet := mkPacket { pk_after : N; pk_user : Z; pk_pcm : list Z }.

(** The audio player started by [voice_client.play]: [p_left] milliseconds
    of sound remain. *)
Record Player := mkPlayer { p_left : Z; p_path : string; p_error : bool }.

Record World := mkWorld {
  now : Z;                      (* time.time() *)
  arrivals : list Packet;
  cancel_in : option Z;         (* the loop is stopped from outside in that many ms: *)
  by_leaving : bool;            (* by the deletion of the room's entry from
                                   [voice_clients], as [leave_voice_channel] does
                                   it, when [true]; by [task.cancel()] otherwise *)
  joined : bool;                (* guild_id in self.voice_clients *)
  listening : bool;             (* voice_client.listen(sink) is in force *)
  sink : AudioSink.t;
  player : option Player;
  files : gset string;          (* the temporary audio files that exist *)
  tick : nat                    (* calls made to the outside so far *)
}.

Inductive Event :=
| EvListen                                  (* a wait for audio begins *)
| EvTurn (user_id : Z) (username : string) (audio : list Z)
| EvReset                                   (* the sink's buffers are cleared *)
| EvSleep (ms : Z)
| EvTranscribe (audio : list Z)
| EvSend (message : string)                 (* log_channel.send *)
| EvPost (attempt : Z) (tokens : Z) (user_message : string)
| EvSynthesize (text : string)
| EvPlay (path : string)                    (* voice_client.play *)
| EvPlayed (polls : nat)                    (* the wait for playback is over *)
| EvRemove (path : string)                  (* os.remove, os.unlink *)
| EvLoopError
| EvStopListening.

Inductive exn := TimeoutError | ClientException | KeyError | OtherError.

(** What running a coroutine comes to: a value, an exception (a subclass of
    [Exception]), [CancelledError] (which is not one), or a model loop that
    was given too few rounds. *)
Inductive res (A : Type) :=
| Ret (a : A)
| Raise (e : exn)
| Cancelled
| OutOfFuel.
Arguments Ret {A} a.
Arguments Raise {A} e.
Arguments Cancelled {A}.
Arguments OutOfFuel {A}.

Record Reply (A : Type) := mkReply {
  result : res A;
  final : World;
  events : list Event
}.
Arguments mkReply {A} _ _ _.
Arguments result {A} _.
Arguments final {A} _.
Arguments events {A} _.

Definition M (A : Type) : Type := World -> Reply A.

Definition ret {A} (a : A) : M A := fun w => mkReply (Ret a) w [].

Definition bind {A B} (m : M A) (k : A -> M B) : M B := fun w =>
  let r := m w in
  match result r with
  | Ret a => let r' := k a (final r) in
             mkReply (result r') (final r') (events r ++ events r')
  | Raise e => mkReply (Raise e) (final r) (events r)
  | Cancelled => mkReply Cancelled (final r) (events r)
  | OutOfFuel => mkReply OutOfFuel (final r) (events r)
  end.

Notation "x <- m ;; k" := (bind m (fun x => k))
  (at level 100, m at next level, right associativity).
Notation "m ;; k" := (bind m (fun _ => k))
  (at level 100, right associativity).

Definition get : M World := fun w => mkReply (Ret w) w [].
Definition modify (f : World -> World) : M unit := fun w => mkReply (Ret tt) (f w) [].
Definition emit (e : Event) : M unit := fun w => mkReply (Ret tt) w [e].
Definition raise {A} (e : exn) : M A := fun w => mkReply (Raise e) w [].
Definition cancelled {A} : M A := fun w => mkReply Cancelled w [].
Definition out_of_fuel {A} : M A := fun w => mkReply OutOfFuel w [].

(** [try: m  except Exception as e: h e]. *)
Definition try_except {A} (m : M A) (h : exn -> M A) : M A := fun w =>
  let r := m w in
  match result r with
  | Raise e => let r' := h e (final r) in
               mkReply (result r') (final r') (events r ++ events r')
  | _ => r
  end.

(** [try: m  except asyncio.CancelledError: h]. *)
Definition try_cancelled {A} (m : M A) (h : M A) : M A := fun w =>
  let r := m w in
  match result r with
  | Cancelled => let r' := h (final r) in
                 mkReply (result r') (final r') (events r ++ events r')
  | _ => r
  end.

(** [try: m  finally: f], for an [f] that ends normally. *)
Definition try_finally {A} (m : M A) (f : M unit) : M A := fun w =>
  let r := m w in
  match result r with
  | OutOfFuel => r
  | _ => let r' := f (final r) in
         mkReply (result r) (final r') (events r ++ events r')
  end.

(** ** Field updates *)

Definition set_clock (t : Z) (pending : list Packet) (s : AudioSink.t) (w : World) :=
  mkWorld t pending (cancel_in w) (by_leaving w) (joined w) (listening w) s (player w)
          (files w) (tick w).
(** What comes from outside: a new count-down, and the room's entry kept
    ([true]) or deleted. *)
Definition set_outside (c : option Z) (kept : bool) (w : World) :=
  mkWorld (now w) (arrivals w) c (by_leaving w) (kept && joined w) (listening w) (sink w)
          (player w) (files w) (tick w).
Definition set_cancel_in (c : option Z) (w : World) :=
  mkWorld (now w) (arrivals w) c (by_leaving w) (joined w) (listening w) (sink w)
          (player w) (files w) (tick w).
Definition set_listening (b : bool) (w : World) :=
  mkWorld (now w) (arrivals w) (cancel_in w) (by_leaving w) (joined w) b (sink w)
          (player w) (files w) (tick w).
Definition set_sink (s : AudioSink.t) (w : World) :=
  mkWorld (now w) (arrivals w) (cancel_in w) (by_leaving w) (joined w) (listening w) s
          (player w) (files w) (tick w).
Definition set_player (p : option Player) (w : World) :=
  mkWorld (now w) (arrivals w) (cancel_in w) (by_leaving w) (joined w) (listening w)
          (sink w) p (files w) (tick w).
Definition set_files (f : gset string) (w : World) :=
  mkWorld (now w) (arrivals w) (cancel_in w) (by_leaving w) (joined w) (listening w)
          (sink w) (player w) f (tick w).
Definition set_tick (n : nat) (w : World) :=
  mkWorld (now w) (arrivals w) (cancel_in w) (by_leaving w) (joined w) (listening w)
          (sink w) (player w) (files w) n.

(** ** Files, the player thread, and the passing of time *)

(** [os.path.exists]. *)
Definition file_exists (path : string) (w : World) : bool := bool_decide (path ∈ files w).

(** [os.remove] and [os.unlink] of a file that exists. *)
Definition remove (path : string) : M unit :=
  modify (fun w => set_files (files w ∖ {[path]}) w);; emit (EvRemove path).

(** [VoiceHandler._on_playback_done], the [after] callback of the player:
    whatever [error] is, the file is unlinked when it is still there. *)
Definition _on_playback_done (error : bool) (audio_path : string) : M unit :=
  w <- get;;
  if negb (Py.is_empty audio_path) && file_exists audio_path w
  then remove audio_path
  else ret tt.

(** The packets that arrive within [d] milliseconds from time [t] are
    written to the sink, each at its time of arrival, as long as the voice
    client is listening; the others stay pending. *)
Fixpoint deliver (d t : Z) (on : bool) (pending : list Packet) (s : AudioSink.t)
  : list Packet * AudioSink.t :=
  match pending with
  | [] => ([], s)
  | p :: rest =>
      let a := Z.of_N (pk_after p) in
      if a <=? d then
        deliver (d - a) (t + a) on rest
                (if on then AudioSink.write (pk_user p) (pk_pcm p) (t + a) s else s)
      else (mkPacket (Z.to_N (a - d)) (pk_user p) (pk_pcm p) :: rest, s)
  end.

(** [d] milliseconds go by: packets arrive, and the player, when its sound
    runs out, stops playing and calls back. *)
Definition advance (d : Z) : M unit :=
  modify (fun w =>
    set_clock (now w + d)
      (fst (deliver d (now w) (listening w) (arrivals w) (sink w)))
      (snd (deliver d (now w) (listening w) (arrivals w) (sink w))) w);;
  w <- get;;
  match player w with
  | Some p =>
      if p_left p <=? d
      then modify (set_player None);; _on_playback_done (p_error p) (p_path p)
      else modify (set_player (Some (mkPlayer (p_left p - d) (p_path p) (p_error p))))
  | None => ret tt
  end.

(** An [await] that takes [d] milliseconds. When the task is cancelled
    before it is over, [CancelledError] is raised in it; when the room's
    entry is deleted before it is over, the entry is gone when the coroutine
    goes on. *)
Definition pause (d : Z) : M unit :=
  w <- get;;
  match cancel_in w with
  | Some c =>
      if c <=? d then
        if by_leaving w
        then advance d;; modify (set_outside None false)
        else advance (Z.max 0 c);; modify (set_cancel_in None);; cancelled
      else advance d;; modify (set_cancel_in (Some (c - d)))
  | None => advance d
  end.

(** [await asyncio.sleep(ms / 1000)]. *)
Definition sleep (ms : Z) : M unit := emit (EvSleep ms);; pause (Z.max 0 ms).

(** ** The services outside *)

Inductive http_reply :=
| Reply200 (content : option string)   (* [None]: a body without the reply text *)
| ReplyStatus (status : Z)
| ReplyTimeout
| ReplyError.

Inductive play_reply := PlayRaises | PlayStarts (length : N) (error : bool).

(** What the services answer, and after how long, to the call numbered by
    the world's [tick]. *)
Record Env := mkEnv {
  stt : nat -> N * string;
  http : nat -> N * http_reply;
  tts : nat -> N * option string;
  text_send : nat -> N * outcome;
  ffmpeg : nat -> outcome;
  play : nat -> play_reply;
  listen : nat -> outcome;          (* [AudioSink()] and [voice_client.listen(sink)] *)
  stop_listening : nat -> outcome   (* [voice_client.stop_listening()] *)
}.

Record LMStudioClient := mkLMStudioClient {
  max_tokens : Z;
  retry_attempts : Z;
  retry_delay : Z                (* retry_delay_seconds, in ms *)
}.

Record VoiceHandler := mkVoiceHandler {
  silence_timeout : Z;           (* voice.silence_timeout_seconds, in ms *)
  max_recording_duration : Z;
  llm_client : LMStudioClient
}.

Record Room := mkRoom {
  members : list (Z * string);   (* voice_client.channel.members: id, name *)
  log_channel : bool             (* a log channel is configured *)
}.

Record Turn := mkTurn { audio : list Z; user_id : Z; username : string }.

(** The [duration] that [record_audio_from_channel] declares as its
    default, 3.0 s. *)
Definition default_duration : Z := 3000.

Inductive wait_end := Silence | Ceiling.

(** The rounds the wait loop of [record_audio_from_channel] is given: the
    ceiling is passed at the 301st poll at the latest. *)
Definition wait_rounds : nat := 301.

Section Voice.
Variable env : Env.
Variable self : VoiceHandler.
Variable room : Room.

Definition next_tick : M nat :=
  w <- get;; modify (set_tick (S (tick w)));; ret (tick w).

(** [await loop.run_in_executor(None, lambda: self.stt_engine.transcribe(...))];
    [STTEngine.transcribe] catches what the engine raises and returns a
    bracketed text instead. *)
Definition transcribe (samples : list Z) : M string :=
  k <- next_tick;;
  emit (EvTranscribe samples);;
  pause (Z.of_N (fst (stt env k)));;
  ret (snd (stt env k)).

(** [await log_channel.send(message)]. *)
Definition send (message : string) : M unit :=
  k <- next_tick;;
  emit (EvSend message);;
  pause (Z.of_N (fst (text_send env k)));;
  match snd (text_send env k) with
  | Succeeds => ret tt
  | Fails => raise OtherError
  end.

(** [await self.tts_engine.synthesize_async(text)]: [TTSEngine.synthesize]
    returns the path of the file it wrote, or [None]. *)
Definition synthesize_async (text : string) : M (option string) :=
  k <- next_tick;;
  emit (EvSynthesize text);;
  pause (Z.of_N (fst (tts env k)));;
  match snd (tts env k) with
  | Some path => modify (fun w => set_files ({[path]} ∪ files w) w);; ret (Some path)
  | None => ret None
  end.

(** ** llm_client.py *)

(** One [session.post] of [generate_response_async] and the reading of its
    answer. *)
Definition post (attempt tokens : Z) (user_message : string) : M http_reply :=
  k <- next_tick;;
  emit (EvPost attempt tokens user_message);;
  pause (Z.of_N (fst (http env k)));;
  ret (snd (http env k)).

(** The [for attempt in range(self.retry_attempts)] loop, over the attempts
    still to make. *)
Fixpoint attempts (llm : LMStudioClient) (tokens : Z) (user_message : string)
    (todo : list Z) : M string :=
  match todo with
  | [] => ret "[LM Studio unavailable]"%string
  | attempt :: rest =>
      r <- post attempt tokens user_message;;
      match r with
      | Reply200 (Some content) => ret (Py.strip content)
      | _ =>
          (if attempt <? retry_attempts llm - 1 then sleep (retry_delay llm) else ret tt);;
          attempts llm tokens user_message rest
      end
  end.

(** [LMStudioClient.generate_response_async]. *)
Definition generate_response_async (llm : LMStudioClient) (user_message : string)
    (voice_mode : bool) (max_tokens_arg : option Z) : M string :=
  let tokens :=
    match max_tokens_arg with
    | Some t => if t =? 0 then max_tokens llm else t
    | None => max_tokens llm
    end in
  let tokens := if voice_mode then Z.min tokens 100 else tokens in
  attempts llm tokens user_message (default [] (Py.range 0 (retry_attempts llm) 1)).

(** ** voice_handler.py: waiting for an utterance *)

(** The [while] loop of [record_audio_from_channel] (lines 205-212). Its
    three comparisons are made on floats of seconds. *)
Fixpoint wait_for_silence (fuel : nat) (duration start_wait last_packet_time : Z)
  : M wait_end :=
  w <- get;;
  if elapsed_lt (now w) last_packet_time duration then
    match fuel with
    | O => out_of_fuel
    | S fuel' =>
        sleep 100;;
        w <- get;;
        let last_packet_time :=
          if later (AudioSink.last_packet_time (sink w)) last_packet_time
          then AudioSink.last_packet_time (sink w) else last_packet_time in
        if elapsed_gt (now w) start_wait 30000 then ret Ceiling
        else wait_for_silence fuel' duration start_wait last_packet_time
    end
  else ret Silence.

(** The name of the member with that id, as the [for] loop of lines 229-232
    finds it. *)
Fixpoint member_name (user : Z) (ms : list (Z * string)) : string :=
  match ms with
  | [] => "Unknown User"%string
  | (id, name) :: rest => if id =? user then name else member_name user rest
  end.

(** [VoiceHandler.record_audio_from_channel]. *)
Definition record_audio_from_channel (duration : Z) : M (option Turn) :=
  w <- get;;
  if negb (joined w) then ret None else
  try_except
    (w <- get;;
     let start_wait := now w in
     let last_packet_time := AudioSink.last_packet_time (sink w) in
     e <- wait_for_silence wait_rounds duration start_wait last_packet_time;;
     match e with
     | Ceiling => ret None
     | Silence =>
         w <- get;;
         match AudioSink.audio_data (sink w) with
         | [] => ret None
         | (user, _) :: _ =>
             match AudioSink.get_audio_data (Some user) (sink w) with
             | None => ret None
             | Some audio_array =>
                 (* voice_client = self.voice_clients[guild_id] *)
                 if negb (joined w) then raise KeyError else
                 let name := member_name user (members room) in
                 modify (fun w => set_sink (AudioSink.cleanup (sink w)) w);;
                 emit EvReset;;
                 emit (EvTurn user name audio_array);;
                 ret (Some (mkTurn audio_array user name))
             end
         end
     end)
    (fun _ => ret None).

(** ** voice_handler.py: answering *)

(** [discord.FFmpegPCMAudio(audio_path, ...)]. *)
Definition ffmpeg_source (audio_path : string) : M unit :=
  k <- next_tick;;
  match ffmpeg env k with Succeeds => ret tt | Fails => raise OtherError end.

(** [voice_client.is_playing()]. *)
Definition is_playing (w : World) : bool :=
  match player w with Some _ => true | None => false end.

(** [voice_client.play(audio_source, after=...)]: discord.py refuses to
    start while a source is playing. *)
Definition voice_client_play (audio_path : string) : M unit :=
  k <- next_tick;;
  emit (EvPlay audio_path);;
  w <- get;;
  if is_playing w then raise ClientException else
  match play env k with
  | PlayRaises => raise ClientException
  | PlayStarts len err => modify (set_player (Some (mkPlayer (Z.of_N len) audio_path err)))
  end.

(** The polls the wait for the end of playback can make: [waited] reaches
    [timeout] = 30 after 300 additions of 0.1. *)
Definition playback_polls : nat := 300.

(** The wait for the end of playback (lines 334-338), over the polls that
    remain. It returns the number of polls made. *)
Fixpoint wait_for_playback (polls_left : nat) : M nat :=
  w <- get;;
  match polls_left with
  | O => ret O
  | S n => if is_playing w
           then sleep 100;; waited <- wait_for_playback n;; ret (S waited)
           else ret O
  end.

(** The inner [try] of [process_voice_message] (lines 311-352). *)
Definition play_response (response audio_path : string) : M bool :=
  try_except
    (ffmpeg_source audio_path;;
     (if log_channel room
      then try_except (send ("**Merith (Voice):** " ++ response)) (fun _ => ret tt)
      else ret tt);;
     voice_client_play audio_path;;
     waited <- wait_for_playback playback_polls;;
     emit (EvPlayed waited);;
     ret true)
    (fun playback_err =>
       w <- get;;
       (if file_exists audio_path w then remove audio_path else ret tt);;
       raise playback_err).

(** [VoiceHandler.process_voice_message]. *)
Definition process_voice_message (user_message : string) : M bool :=
  w <- get;;
  if negb (joined w) then ret false else
  try_except
    (response <- generate_response_async (llm_client self) user_message true (Some 100);;
     if Py.is_empty response || Py.startswith response "[" then ret false else
     audio_path <- synthesize_async response;;
     match audio_path with
     | None => ret false
     | Some path =>
         if Py.is_empty path then ret false else
         w <- get;;
         if negb (file_exists path w) then ret false else
         play_response response path
     end)
    (fun _ => ret false).

(** ** voice_handler.py: the loop *)

(** The filter of lines 411-414. *)
Definition only_noise (user_message : string) : bool :=
  Py.is_empty (Py.strip (Py.remove_char " " (Py.remove_char "." user_message))).

(** What the loop does with an utterance (lines 394-430). *)
Definition turn_stages (turn : Turn) : M unit :=
  user_message <- transcribe (audio turn);;
  if Py.is_empty user_message || Py.startswith user_message "[" then sleep 500
  else if only_noise user_message then sleep 500
  else
    (if log_channel room
     then try_except
            (send ("**" ++ username turn ++ " (Voice):** " ++ user_message))
            (fun _ => ret tt)
     else ret tt);;
    process_voice_message user_message;;
    sleep 0.

(** The body of the [try] inside the [while] (lines 385-430).
    [full_voice_loop] does not pass a [duration]. *)
Definition loop_body : M unit :=
  emit EvListen;;
  audio_result <- record_audio_from_channel default_duration;;
  match audio_result with
  | None => sleep 500
  | Some turn => turn_stages turn
  end.

(** One round of the [while]: [true] to go on, [false] after [break]. *)
Definition loop_round : M bool :=
  try_except
    (try_cancelled (loop_body;; ret true) (ret false))
    (fun _ => emit EvLoopError;; sleep 1000;; ret true).

(** [while guild_id in self.voice_clients], for at most [rounds] rounds. *)
Fixpoint voice_loop (rounds : nat) : M unit :=
  w <- get;;
  if joined w then
    match rounds with
    | O => out_of_fuel
    | S n => go_on <- loop_round;; if go_on then voice_loop n else ret tt
    end
  else ret tt.

(** The [finally] block of [full_voice_loop] (lines 445-452): when
    [stop_listening()] raises, [sink.cleanup()] is skipped and the bare
    [except] swallows the exception. *)
Definition stop_and_cleanup : M unit :=
  k <- next_tick;;
  emit EvStopListening;;
  match stop_listening env k with
  | Succeeds =>
      modify (fun w => set_listening false (set_sink (AudioSink.cleanup (sink w)) w))
  | Fails => ret tt
  end.

(** [VoiceHandler.full_voice_loop], watched for [rounds] rounds. The sink
    is made and the voice client is told to listen before the [try]
    (lines 374-377): what these two raise is raised by the loop. *)
Definition full_voice_loop (rounds : nat) : M unit :=
  w <- get;;
  if negb (joined w) then raise KeyError else
  k <- next_tick;;
  match listen env k with
  | Fails => raise OtherError
  | Succeeds =>
      modify (fun w => set_listening true (set_sink (AudioSink.init (now w)) w));;
      try_finally
        (try_except (voice_loop rounds) (fun _ => ret tt))
        stop_and_cleanup
  end.

End Voice.

(* ===================================================================== *)
(** * Running the first step of a coroutine                              *)
(* ===================================================================== *)

Lemma reply_eta {A} (r : Reply A) : mkReply (result r) (final r) (events r) = r.
Proof. destruct r; reflexivity. Qed.

Lemma bind_get {B} (k : World -> M B) w : bind get k w = k w w.
Proof. unfold bind, get. cbn [result final events app]. apply reply_eta. Qed.

Lemma bind_ret {A B} (a : A) (k : A -> M B) w : bind (ret a) k w = k a w.
Proof. unfold bind, ret. cbn [result final events app]. apply reply_eta. Qed.

Lemma bind_modify {B} f (k : unit -> M B) w : bind (modify f) k w = k tt (f w).
Proof. unfold bind, modify. cbn [result final events app]. apply reply_eta. Qed.

Lemma bind_emit {B} e (k : unit -> M B) w :
  bind (emit e) k w = mkReply (result (k tt w)) (final (k tt w)) (e :: events (k tt w)).
Proof. reflexivity. Qed.

Lemma bind_assoc {A B C} (m : M A) (k : A -> M B) (h : B -> M C) w :
  bind (bind m k) h w = bind m (fun a => bind (k a) h) w.
Proof.
  unfold bind. destruct (result (m w)); cbn [result final events]; try reflexivity.
  destruct (result (k a (final (m w)))); cbn [result final events];
    rewrite ?app_assoc; reflexivity.
Qed.

(** [m] ends normally with [a] in [w'], having emitted [es]. *)
Lemma bind_run {A B} (m : M A) (k : A -> M B) w a :
  result (m w) = Ret a ->
  bind m k w = mkReply (result (k a (final (m w)))) (final (k a (final (m w))))
                       (events (m w) ++ events (k a (final (m w)))).
Proof. intros E. unfold bind. rewrite E. reflexivity. Qed.

Lemma bind_stop {A B} (m : M A) (k : A -> M B) w :
  (forall a, result (m w) <> Ret a) ->
  result (bind m k w) = match result (m w) with
                        | Ret _ => OutOfFuel
                        | Raise e => Raise e
                        | Cancelled => Cancelled
                        | OutOfFuel => OutOfFuel
                        end /\
  final (bind m k w) = final (m w) /\ events (bind m k w) = events (m w).
Proof.
  intros Hn. unfold bind. destruct (result (m w)) as [a| | |]; cbn; auto.
  destruct (Hn a eq_refl).
Qed.

(* ===================================================================== *)
(** * Reasoning about coroutines                                          *)
(* ===================================================================== *)

(** [keeps_at R P m w]: run from [w], the coroutine [m] ends in a world
    related to [w] by [R], every event it emits satisfies [P], and when
    nothing is to come from outside in [w] ([cancel_in w = None]: no
    cancellation, no deletion of the room's entry) it is not cancelled, does
    not run out of rounds and leaves nothing to come. *)
Definition keeps_at {A} (R : World -> World -> Prop) (P : Event -> Prop)
    (m : M A) (w : World) : Prop :=
  R w (final (m w)) /\ Forall P (events (m w)) /\
  (cancel_in w = None ->
     cancel_in (final (m w)) = None /\
     result (m w) <> Cancelled /\ result (m w) <> OutOfFuel).

Definition keeps {A} (R : World -> World -> Prop) (P : Event -> Prop) (m : M A) : Prop :=
  forall w, keeps_at R P m w.

(** What [R] and [P] must allow for time to pass. *)
Class Frame (R : World -> World -> Prop) (P : Event -> Prop) : Prop := {
  frame_refl : forall w, R w w;
  frame_trans : forall a b c, R a b -> R b c -> R a c;
  frame_tick : forall w n, R w (set_tick n w);
  frame_outside : forall w c0 c kept,
    cancel_in w = Some c0 -> R w (set_outside c kept w);
  frame_player : forall w p, R w (set_player p w);
  frame_files : forall w f, R w (set_files f w);
  frame_clock : forall w d,
    R w (set_clock (now w + d)
           (fst (deliver d (now w) (listening w) (arrivals w) (sink w)))
           (snd (deliver d (now w) (listening w) (arrivals w) (sink w))) w);
  frame_sleep : forall ms, P (EvSleep ms);
  frame_remove : forall path, P (EvRemove path)
}.

Ltac keeps_now :=
  intros; unfold keeps, keeps_at; intros; simpl;
  repeat split;
  first [ assumption | discriminate
        | apply frame_refl
        | match goal with |- Forall _ _ => repeat constructor; assumption end
        | idtac ].

Section Keeps.
Context {R : World -> World -> Prop} {P : Event -> Prop} `{!Frame R P}.

Lemma keeps_ret {A} (a : A) : keeps R P (ret a).
Proof. keeps_now. Qed.

Lemma keeps_get : keeps R P get.
Proof. keeps_now. Qed.

Lemma keeps_raise {A} e : keeps R P (@raise A e).
Proof. keeps_now. Qed.

Lemma keeps_emit e : P e -> keeps R P (emit e).
Proof. keeps_now. Qed.

Lemma keeps_modify f :
  (forall w, R w (f w)) -> (forall w, cancel_in (f w) = cancel_in w) ->
  keeps R P (modify f).
Proof.
  intros Hf Hc w. unfold keeps_at. simpl. rewrite Hc.
  repeat split; auto; discriminate.
Qed.

Lemma keeps_at_bind {A B} (m : M A) (k : A -> M B) w :
  keeps_at R P m w ->
  (forall a, result (m w) = Ret a -> keeps_at R P (k a) (final (m w))) ->
  keeps_at R P (bind m k) w.
Proof.
  intros (HR & HP & HC) Hk.
  unfold keeps_at, bind. destruct (result (m w)) as [a| | |] eqn:E; simpl;
    try (split; [assumption | split; [assumption |]];
         intros Hw; destruct (HC Hw) as (? & ? & ?);
         repeat split; first [assumption | discriminate | congruence]).
  destruct (Hk a eq_refl) as (HR' & HP' & HC').
  split; [eapply frame_trans; eassumption |].
  split; [apply Forall_app; auto |].
  intros Hw. apply HC in Hw as (Hw & _). auto.
Qed.

Lemma keeps_bind {A B} (m : M A) (k : A -> M B) :
  keeps R P m -> (forall a, keeps R P (k a)) -> keeps R P (bind m k).
Proof. intros Hm Hk w. apply keeps_at_bind; [apply Hm | intros; apply Hk]. Qed.

(** After [get], the value read is the world the rest runs in. *)
Lemma keeps_at_bind_get {B} (k : World -> M B) w :
  keeps_at R P (k w) w -> keeps_at R P (bind get k) w.
Proof. unfold keeps_at. rewrite bind_get. trivial. Qed.

Lemma keeps_bind_get {B} (k : World -> M B) :
  (forall w, keeps_at R P (k w) w) -> keeps R P (bind get k).
Proof. intros Hk w. apply keeps_at_bind_get, Hk. Qed.

Lemma keeps_at_try_except {A} (m : M A) h w :
  keeps_at R P m w ->
  (forall e, result (m w) = Raise e -> keeps_at R P (h e) (final (m w))) ->
  keeps_at R P (try_except m h) w.
Proof.
  intros (HR & HP & HC) Hh.
  unfold keeps_at, try_except. destruct (result (m w)) as [a|e| |] eqn:E; simpl;
    try (rewrite E; split; [assumption | split; [assumption |]];
         intros Hw; destruct (HC Hw) as (? & ? & ?);
         repeat split; first [assumption | discriminate | congruence]).
  destruct (Hh e eq_refl) as (HR' & HP' & HC').
  split; [eapply frame_trans; eassumption |].
  split; [apply Forall_app; auto |].
  intros Hw. apply HC in Hw as (Hw & _). auto.
Qed.

Lemma keeps_try_except {A} (m : M A) h :
  keeps R P m -> (forall e, keeps R P (h e)) -> keeps R P (try_except m h).
Proof. intros Hm Hh w. apply keeps_at_try_except; [apply Hm | intros; apply Hh]. Qed.

Lemma keeps_try_cancelled {A} (m : M A) h :
  keeps R P m -> keeps R P h -> keeps R P (try_cancelled m h).
Proof.
  intros Hm Hh w. destruct (Hm w) as (HR & HP & HC).
  unfold keeps_at, try_cancelled. destruct (result (m w)) as [a|e| |] eqn:E; simpl;
    try (rewrite E; split; [assumption | split; [assumption |]];
         intros Hw; destruct (HC Hw) as (? & ? & ?);
         repeat split; first [assumption | discriminate | congruence]).
  destruct (Hh (final (m w))) as (HR' & HP' & HC').
  split; [eapply frame_trans; eassumption |].
  split; [apply Forall_app; auto |].
  intros Hw. apply HC in Hw as (_ & Hw & _). congruence.
Qed.

Lemma keeps_try_finally {A} (m : M A) f :
  keeps R P m -> keeps R P f -> keeps R P (try_finally m f).
Proof.
  intros Hm Hf w. destruct (Hm w) as (HR & HP & HC).
  destruct (Hf (final (m w))) as (HR' & HP' & HC').
  unfold keeps_at, try_finally.
  destruct (result (m w)) as [a|e| |] eqn:E; simpl; rewrite ?E;
    try (split; [eapply frame_trans; eassumption |];
         split; [apply Forall_app; auto |];
         intros Hw; destruct (HC Hw) as (Hw' & ? & ?); destruct (HC' Hw') as (? & ? & ?);
         repeat split; first [assumption | discriminate | congruence]).
  split; [assumption | split; [assumption |]].
  intros Hw; destruct (HC Hw) as (? & ? & ?). congruence.
Qed.

Lemma keeps_on_playback_done error path : keeps R P (_on_playback_done error path).
Proof.
  unfold _on_playback_done, remove.
  apply keeps_bind; [apply keeps_get | intros w].
  destruct (_ && _); [| apply keeps_ret].
  apply keeps_bind; [| intros _; apply keeps_emit, frame_remove].
  apply keeps_modify; [intros; apply frame_files | reflexivity].
Qed.

Lemma keeps_advance d : keeps R P (advance d).
Proof.
  unfold advance. apply keeps_bind.
  { apply keeps_modify; [intros; apply frame_clock | reflexivity]. }
  intros _. apply keeps_bind; [apply keeps_get | intros w].
  destruct (player w) as [p|]; [| apply keeps_ret].
  destruct (p_left p <=? d).
  - apply keeps_bind; [| intros _; apply keeps_on_playback_done].
    apply keeps_modify; [intros; apply frame_player | reflexivity].
  - apply keeps_modify; [intros; apply frame_player | reflexivity].
Qed.

Lemma advance_cancel_in d w : cancel_in (final (advance d w)) = cancel_in w.
Proof.
  unfold advance, bind, modify, get, _on_playback_done, remove, emit, ret. simpl.
  destruct (player w) as [p|]; simpl; [| reflexivity].
  destruct (p_left p <=? d); simpl; [| reflexivity].
  destruct (_ && _); reflexivity.
Qed.

Lemma frame_cancel w c0 c : cancel_in w = Some c0 -> R w (set_cancel_in c w).
Proof. intros H. exact (frame_outside w c0 c true H). Qed.

Lemma keeps_pause d : keeps R P (pause d).
Proof.
  unfold pause. apply keeps_bind_get. intros w.
  destruct (cancel_in w) as [c|] eqn:Ec; [| apply keeps_advance].
  assert (Hvoid : forall (m : M unit) d',
            R (final (advance d' w)) (final (m (final (advance d' w)))) ->
            Forall P (events (m (final (advance d' w)))) ->
            keeps_at R P (advance d';; m) w).
  { intros m d' HR HP. apply keeps_at_bind; [apply keeps_advance |].
    intros _ _. split; [assumption | split; [assumption |]].
    rewrite advance_cancel_in, Ec. discriminate. }
  assert (Hc : forall d', cancel_in (final (advance d' w)) = Some c)
    by (intros d'; rewrite advance_cancel_in; exact Ec).
  destruct (c <=? d); [destruct (by_leaving w) |]; apply Hvoid; simpl;
    first [ apply (frame_outside _ c), Hc | apply (frame_cancel _ c), Hc | constructor ].
Qed.

Lemma keeps_sleep ms : keeps R P (sleep ms).
Proof.
  unfold sleep. apply keeps_bind; [apply keeps_emit, frame_sleep | intros _].
  apply keeps_pause.
Qed.

Lemma keeps_next_tick : keeps R P next_tick.
Proof.
  unfold next_tick. apply keeps_bind; [apply keeps_get | intros w].
  apply keeps_bind; [| intros _; apply keeps_ret].
  apply keeps_modify; [intros; apply frame_tick | reflexivity].
Qed.

End Keeps.

(** ** Postconditions *)

(** [wp m w Q]: run from [w], the coroutine [m] ends with a result, a world
    and a list of events that satisfy [Q]. *)
Definition wp {A} (m : M A) (w : World) (Q : res A -> World -> list Event -> Prop) : Prop :=
  Q (result (m w)) (final (m w)) (events (m w)).

Lemma wp_mono {A} (m : M A) w (Q Q' : res A -> World -> list Event -> Prop) :
  wp m w Q -> (forall r w' es, Q r w' es -> Q' r w' es) -> wp m w Q'.
Proof. unfold wp. auto. Qed.

Lemma wp_bind {A B} (m : M A) (k : A -> M B) w (Q : res B -> World -> list Event -> Prop) :
  wp m w (fun r w1 es1 =>
            match r with
            | Ret a => wp (k a) w1 (fun r2 w2 es2 => Q r2 w2 (es1 ++ es2))
            | Raise e => Q (Raise e) w1 es1
            | Cancelled => Q Cancelled w1 es1
            | OutOfFuel => Q OutOfFuel w1 es1
            end) ->
  wp (bind m k) w Q.
Proof. unfold wp, bind. destruct (result (m w)); trivial. Qed.

Lemma wp_try_except {A} (m : M A) h w (Q : res A -> World -> list Event -> Prop) :
  wp m w (fun r w1 es1 =>
            match r with
            | Raise e => wp (h e) w1 (fun r2 w2 es2 => Q r2 w2 (es1 ++ es2))
            | _ => Q r w1 es1
            end) ->
  wp (try_except m h) w Q.
Proof.
  unfold wp, try_except. cbv zeta.
  destruct (result (m w)) eqn:E; rewrite ?E; trivial.
Qed.

Lemma wp_get w (Q : res World -> World -> list Event -> Prop) :
  Q (Ret w) w [] -> wp get w Q.
Proof. trivial. Qed.

Lemma wp_ret {A} (a : A) w (Q : res A -> World -> list Event -> Prop) :
  Q (Ret a) w [] -> wp (ret a) w Q.
Proof. trivial. Qed.

Lemma wp_raise {A} e w (Q : res A -> World -> list Event -> Prop) :
  Q (Raise e) w [] -> wp (raise e) w Q.
Proof. trivial. Qed.

Lemma wp_emit e w (Q : res unit -> World -> list Event -> Prop) :
  Q (Ret tt) w [e] -> wp (emit e) w Q.
Proof. trivial. Qed.

Lemma wp_modify f w (Q : res unit -> World -> list Event -> Prop) :
  Q (Ret tt) (f w) [] -> wp (modify f) w Q.
Proof. trivial. Qed.

Lemma wp_next_tick w (Q : res nat -> World -> list Event -> Prop) :
  Q (Ret (tick w)) (set_tick (S (tick w)) w) [] -> wp next_tick w Q.
Proof. trivial. Qed.

(** ** What an [await] does to the world *)

Lemma advance_now d w : now (final (advance d w)) = now w + d.
Proof.
  unfold advance, bind, modify, get, _on_playback_done, remove, emit, ret. simpl.
  destruct (player w) as [p|]; simpl; [| reflexivity].
  destruct (p_left p <=? d); simpl; [| reflexivity].
  destruct (_ && _); reflexivity.
Qed.

Lemma advance_sink d w :
  sink (final (advance d w))
  = snd (deliver d (now w) (listening w) (arrivals w) (sink w)).
Proof.
  unfold advance, bind, modify, get, _on_playback_done, remove, emit, ret. simpl.
  destruct (player w) as [p|]; simpl; [| reflexivity].
  destruct (p_left p <=? d); simpl; [| reflexivity].
  destruct (_ && _); reflexivity.
Qed.

Lemma advance_joined d w : joined (final (advance d w)) = joined w.
Proof.
  unfold advance, bind, modify, get, _on_playback_done, remove, emit, ret. simpl.
  destruct (player w) as [p|]; simpl; [| reflexivity].
  destruct (p_left p <=? d); simpl; [| reflexivity].
  destruct (_ && _); reflexivity.
Qed.

Lemma advance_result d w : result (advance d w) = Ret tt.
Proof.
  unfold advance, bind, modify, get, _on_playback_done, remove, emit, ret. simpl.
  destruct (player w) as [p|]; simpl; [| reflexivity].
  destruct (p_left p <=? d); simpl; [| reflexivity].
  destruct (_ && _); reflexivity.
Qed.

Arguments advance : simpl never.
Arguments pause : simpl never.
Arguments sleep : simpl never.

Lemma set_outside_kept c w : set_outside c true w = set_cancel_in c w.
Proof. reflexivity. Qed.

(** An [await] either lasts its time, and what may have come from outside
    meanwhile is the deletion of the room's entry, or is cut short by a
    cancellation. *)
Lemma pause_cases d w :
  (result (pause d w) = Ret tt /\
   (exists c kept, final (pause d w) = set_outside c kept (final (advance d w))) /\
   events (pause d w) = events (advance d w))
  \/
  (result (pause d w) = Cancelled /\
   exists c, cancel_in w = Some c /\ c <= d /\
     final (pause d w) = set_cancel_in None (final (advance (Z.max 0 c) w)) /\
     events (pause d w) = events (advance (Z.max 0 c) w)).
Proof.
  unfold pause. rewrite bind_get.
  destruct (cancel_in w) as [c|] eqn:Ec.
  - destruct (Z.leb_spec c d) as [Hle|Hgt].
    + destruct (by_leaving w).
      * left. unfold bind. rewrite advance_result. cbn.
        rewrite app_nil_r. repeat split; eauto.
      * right. unfold bind. rewrite advance_result. cbn.
        split; [reflexivity |]. exists c. rewrite app_nil_r. auto.
    + left. unfold bind. rewrite advance_result. cbn.
      rewrite app_nil_r. repeat split; auto.
      exists (Some (c - d)), true. reflexivity.
  - left. rewrite advance_result.
    split; [reflexivity |]. split; [| reflexivity].
    exists None, true.
    pose proof (advance_cancel_in d w) as Hc. rewrite Ec in Hc.
    destruct (final (advance d w)); simpl in *. subst. reflexivity.
Qed.

Lemma sleep_cases ms w :
  (result (sleep ms w) = Ret tt /\
   (exists c kept,
      final (sleep ms w) = set_outside c kept (final (advance (Z.max 0 ms) w))) /\
   events (sleep ms w) = EvSleep ms :: events (advance (Z.max 0 ms) w))
  \/ result (sleep ms w) = Cancelled.
Proof.
  unfold sleep. rewrite bind_emit. cbn [result final events].
  destruct (pause_cases (Z.max 0 ms) w) as [(Hr & Hf & He) | (Hr & _)];
    [left | right; assumption].
  rewrite He. auto.
Qed.

Lemma sleep_now ms w a :
  result (sleep ms w) = Ret a -> now (final (sleep ms w)) = now w + Z.max 0 ms.
Proof.
  intros Hr. destruct (sleep_cases ms w) as [(_ & (c & kept & Hf) & _) | Hc]; [| congruence].
  rewrite Hf. simpl. apply advance_now.
Qed.

Lemma wp_pause d w (Q : res unit -> World -> list Event -> Prop) :
  (forall d' c kept,
     Q (Ret tt) (set_outside c kept (final (advance d' w))) (events (advance d' w))) ->
  (forall d' c, Q Cancelled (set_cancel_in c (final (advance d' w))) (events (advance d' w))) ->
  wp (pause d) w Q.
Proof.
  intros Hret Hcan. unfold wp.
  destruct (pause_cases d w) as [(Hr & (c & kept & Hf) & He) | (Hr & c & _ & _ & Hf & He)];
    rewrite Hr, Hf, He; auto.
Qed.

Lemma wp_sleep ms w (Q : res unit -> World -> list Event -> Prop) :
  (forall d' c kept, Q (Ret tt) (set_outside c kept (final (advance d' w)))
                       (EvSleep ms :: events (advance d' w))) ->
  (forall d' c, Q Cancelled (set_cancel_in c (final (advance d' w)))
                  (EvSleep ms :: events (advance d' w))) ->
  wp (sleep ms) w Q.
Proof.
  intros Hret Hcan. unfold sleep. apply wp_bind, wp_emit.
  apply wp_pause; intros; cbn [app]; auto.
Qed.

(** ** The rules, applied by the shape of the code *)

Ltac keeps_step :=
  lazymatch goal with
  | |- keeps _ _ (bind _ _) => apply keeps_bind; [| intros ?]
  | |- keeps _ _ (ret _) => apply keeps_ret
  | |- keeps _ _ get => apply keeps_get
  | |- keeps _ _ (raise _) => apply keeps_raise
  | |- keeps _ _ (emit _) => apply keeps_emit
  | |- keeps _ _ (sleep _) => apply keeps_sleep
  | |- keeps _ _ (pause _) => apply keeps_pause
  | |- keeps _ _ next_tick => apply keeps_next_tick
  | |- keeps _ _ (try_except _ _) => apply keeps_try_except; [| intros ?]
  | |- keeps _ _ (try_cancelled _ _) => apply keeps_try_cancelled
  | |- keeps _ _ (try_finally _ _) => apply keeps_try_finally
  | |- keeps _ _ (modify _) => apply keeps_modify; [intros ? | reflexivity]
  | |- keeps _ _ (if ?b then _ else _) => destruct b
  | |- keeps _ _ (match ?x with _ => _ end) => destruct x
  end.

Section KeepsVoice.
Context {R : World -> World -> Prop} {P : Event -> Prop} `{!Frame R P}.
Variable env : Env.

Lemma keeps_wait_for_playback n : keeps R P (wait_for_playback n).
Proof.
  induction n as [|n IH]; simpl; repeat keeps_step. apply IH.
Qed.

Lemma keeps_attempts llm tokens user_message todo :
  (forall a, P (EvPost a tokens user_message)) ->
  keeps R P (attempts env llm tokens user_message todo).
Proof.
  intros HP. induction todo as [|attempt rest IH]; simpl; [apply keeps_ret |].
  unfold post.
  repeat first [apply IH | apply HP | apply frame_tick | keeps_step].
Qed.

(** The wait loop never uses up its 301 rounds: each one lasts 100 ms, and
    the ceiling stops the loop once more than 30 s have gone by. *)
Lemma keeps_wait_for_silence fuel : forall duration start l w (k : nat),
  now w - start = 100 * Z.of_nat k -> (301 <= fuel + k)%nat -> now w - start <= 30000 ->
  keeps_at R P (wait_for_silence fuel duration start l) w.
Proof.
  induction fuel as [|fuel IH]; intros duration start l w k Hk Hfuel Hlow; [lia |].
  cbn [wait_for_silence].
  apply keeps_at_bind_get.
  destruct (elapsed_lt (now w) l duration); [| apply keeps_ret].
  apply keeps_at_bind; [apply keeps_sleep |]. intros [] Hs.
  pose proof (sleep_now _ _ _ Hs) as Hn.
  apply keeps_at_bind_get.
  destruct (elapsed_gt (now (final (sleep 100 w))) start 30000) eqn:Hgt;
    [apply keeps_ret |].
  apply elapsed_gt_false in Hgt.
  apply (IH _ _ _ _ (S k)); lia.
Qed.

End KeepsVoice.

(* ===================================================================== *)
(** * The wait for silence                                                *)
(* ===================================================================== *)

Lemma bind_cancelled {A B} (m : M A) (k : A -> M B) w :
  result (m w) = Cancelled ->
  bind m k w = mkReply Cancelled (final (m w)) (events (m w)).
Proof. intros E. unfold bind. rewrite E. reflexivity. Qed.

Lemma bind_raise {A B} (m : M A) (k : A -> M B) w e :
  result (m w) = Raise e ->
  bind m k w = mkReply (Raise e) (final (m w)) (events (m w)).
Proof. intros E. unfold bind. rewrite E. reflexivity. Qed.

(** The time of the last packet never goes back, and is never ahead of the
    clock. *)
Lemma deliver_last_packet_time pending : forall d t on s,
  0 <= d -> AudioSink.last_packet_time s <= t ->
  AudioSink.last_packet_time s
    <= AudioSink.last_packet_time (snd (deliver d t on pending s)) <= t + d.
Proof.
  induction pending as [|p rest IH]; intros d t on s Hd Hs; simpl; [lia |].
  destruct (Z.leb_spec (Z.of_N (pk_after p)) d) as [Hle|Hgt]; simpl; [| lia].
  set (s' := if on then AudioSink.write (pk_user p) (pk_pcm p) (t + Z.of_N (pk_after p)) s
             else s).
  assert (Hs' : AudioSink.last_packet_time s <= AudioSink.last_packet_time s'
                <= t + Z.of_N (pk_after p)).
  { subst s'. destruct on; simpl; lia. }
  specialize (IH (d - Z.of_N (pk_after p)) (t + Z.of_N (pk_after p)) on s').
  lia.
Qed.

Lemma sleep_last_packet_time ms w a :
  result (sleep ms w) = Ret a ->
  AudioSink.last_packet_time (sink w) <= now w ->
  AudioSink.last_packet_time (sink w)
    <= AudioSink.last_packet_time (sink (final (sleep ms w)))
    <= now (final (sleep ms w)).
Proof.
  intros Hr Hs. rewrite (sleep_now _ _ _ Hr).
  destruct (sleep_cases ms w) as [(_ & (c & kept & Hf) & _) | Hc]; [| congruence].
  rewrite Hf. cbn [sink set_outside]. rewrite advance_sink.
  apply deliver_last_packet_time; lia.
Qed.

(** How a wait that began at [start] may end, for a silence timeout of
    [duration]: by [Silence], when at least [duration] has gone by since the
    last packet, and, unless the wait ended at once, not more than one poll
    interval more; by [Ceiling], at the first poll that binary64 sees as
    later than 30 s after the start, which is the poll at 30.1 s or the one
    at 30.0 s, when the last packet was not more than [duration] old 100 ms
    before; or by a cancellation. *)
Definition wait_timing (duration start : Z) (r : Reply wait_end) : Prop :=
  let t := now (final r) in
  let last := AudioSink.last_packet_time (sink (final r)) in
  match result r with
  | Ret Silence => last + duration <= t /\ (t = start \/ t <= last + duration + 100)
  | Ret Ceiling => (t = start + 30000 \/ t = start + 30100) /\ t - 100 <= last + duration
  | Cancelled => True
  | Raise _ => False
  | OutOfFuel => False
  end.

Lemma wait_for_silence_timing fuel : forall duration start w (k : nat),
  now w - start = 100 * Z.of_nat k -> (301 <= fuel + k)%nat -> now w - start <= 30000 ->
  AudioSink.last_packet_time (sink w) <= now w ->
  (now w = start \/ now w <= AudioSink.last_packet_time (sink w) + duration + 100) ->
  wait_timing duration start
    (wait_for_silence fuel duration start (AudioSink.last_packet_time (sink w)) w).
Proof.
  induction fuel as [|fuel IH]; intros duration start w k Hk Hfuel Hlow Hs Hprev; [lia |].
  cbn [wait_for_silence]. rewrite bind_get.
  destruct (elapsed_lt (now w) (AudioSink.last_packet_time (sink w)) duration) eqn:Hlt.
  2:{ apply elapsed_lt_false in Hlt. unfold wait_timing, ret. cbn [result final]. lia. }
  apply elapsed_lt_true in Hlt.
  destruct (sleep_cases 100 w) as [(Hr & _) | Hc].
  2:{ rewrite (bind_cancelled _ _ _ Hc). exact I. }
  pose proof (sleep_now _ _ _ Hr) as Hn.
  pose proof (sleep_last_packet_time _ _ _ Hr Hs) as Hl.
  rewrite (bind_run _ _ _ _ Hr), bind_get.
  set (w1 := final (sleep 100 w)) in *.
  rewrite later_spec.
  replace (if AudioSink.last_packet_time (sink w1) >? AudioSink.last_packet_time (sink w)
           then AudioSink.last_packet_time (sink w1)
           else AudioSink.last_packet_time (sink w))
    with (AudioSink.last_packet_time (sink w1))
    by (destruct (Z.gtb_spec (AudioSink.last_packet_time (sink w1))
                             (AudioSink.last_packet_time (sink w))); lia).
  destruct (elapsed_gt (now w1) start 30000) eqn:Hgt.
  - apply elapsed_gt_true in Hgt. unfold wait_timing, ret. cbn [result final]. lia.
  - apply elapsed_gt_false in Hgt. specialize (IH duration start w1 (S k)).
    unfold wait_timing in *. cbn [result final]. apply IH; lia.
Qed.

(** Corrected C2. With the silence timeout [duration] it is run with, the
    wait loop of [record_audio_from_channel] does not fire early: when it
    ends by silence, at least [duration] has gone by since the last packet
    received. It fires within one poll interval: unless the silence was
    already there when the wait began, not more than [duration] + 0.1 s has
    gone by since that packet. And the only other ways out are the ceiling,
    at the first poll the code sees as later than 30 s after the wait began
    (30.0 s or 30.1 s after it), when 0.1 s earlier the last packet was still
    not more than [duration] old, and a cancellation. *)
Theorem wait_fires_on_silence duration w :
  AudioSink.last_packet_time (sink w) <= now w ->
  wait_timing duration (now w)
    (wait_for_silence wait_rounds duration (now w) (AudioSink.last_packet_time (sink w)) w).
Proof.
  intros Hs. apply (wait_for_silence_timing wait_rounds duration (now w) w 0);
    unfold wait_rounds; lia.
Qed.

(** A room where someone has just said a word, at 1.1 s, and nothing
    follows. *)
Definition after_a_word : World :=
  mkWorld 1100 [] None false true true (AudioSink.mk [(1, [1; 0])] 1100) None ∅ 0.

(** The wait in that room ends by silence, 3.1 s after the word: at 4.1 s
    the code computes [4.1 - 1.1 < 3.0], which holds in binary64, and polls
    once more. *)
Lemma wait_fires_on_silence_witness :
  AudioSink.last_packet_time (sink after_a_word) <= now after_a_word /\
  result (wait_for_silence wait_rounds 3000 (now after_a_word)
            (AudioSink.last_packet_time (sink after_a_word)) after_a_word)
    = Ret Silence /\
  now (final (wait_for_silence wait_rounds 3000 (now after_a_word)
                (AudioSink.last_packet_time (sink after_a_word)) after_a_word))
    = 4200 /\
  wait_timing 3000 (now after_a_word)
    (wait_for_silence wait_rounds 3000 (now after_a_word)
       (AudioSink.last_packet_time (sink after_a_word)) after_a_word).
Proof.
  assert (H : AudioSink.last_packet_time (sink after_a_word) <= now after_a_word)
    by (vm_compute; discriminate).
  split; [exact H |].
  split; [vm_compute; reflexivity |].
  split; [vm_compute; reflexivity |].
  exact (wait_fires_on_silence 3000 after_a_word H).
Defined.

(** The same word said at 1.0 s: [4.0 - 1.0 < 3.0] does not hold, and the
    wait ends 3.0 s after the word. A gap that is exactly the timeout is or
    is not seen as one, by the rounding of the two readings. *)
Example silence_at_the_timeout :
  let w := mkWorld 1000 [] None false true true (AudioSink.mk [(1, [1; 0])] 1000) None ∅ 0 in
  elapsed_lt 4000 1000 3000 = false /\ elapsed_lt 4100 1100 3000 = true /\
  now (final (wait_for_silence wait_rounds 3000 (now w)
                (AudioSink.last_packet_time (sink w)) w)) = 4000.
Proof. vm_compute. repeat split; reflexivity. Qed.

(** The ceiling is passed at 30.1 s for a wait that begins at 0 s, and at
    30.0 s already for one that begins at 2.002 s: [32.002 - 2.002 > 30]
    holds in binary64. *)
Example ceiling_at_thirty_seconds :
  elapsed_gt 30000 0 30000 = false /\ elapsed_gt 30100 0 30000 = true /\
  elapsed_gt 32002 2002 30000 = true.
Proof. vm_compute. repeat split; reflexivity. Qed.

(** A room where someone speaks: a packet of one sample every 2 s, the last
    one 27.1 s after the wait begins, and silence from then on. *)
Definition talkative_room : World :=
  mkWorld 0 (repeat (mkPacket 2000 1 [1; 0]) 13 ++ [mkPacket 1100 1 [1; 0]])
          None false true true (AudioSink.init 0) None ∅ 0.

(** C2 as stated fails at the ceiling. The last packet comes 27.1 s into the
    wait and nothing follows, so the gap reaches the timeout of 3 s at
    30.1 s; the poll made at that very time ends the wait by the ceiling, not
    by silence. *)
Lemma ceiling_comes_before_silence :
  let r := wait_for_silence wait_rounds 3000 0 0 talkative_room in
  result r = Ret Ceiling /\
  arrivals (final r) = [] /\
  AudioSink.last_packet_time (sink (final r)) + 3000 = now (final r).
Proof. vm_compute. repeat split; reflexivity. Qed.

(* ===================================================================== *)
(** * Handing over an utterance                                           *)
(* ===================================================================== *)

Lemma try_except_pass {A} (m : M A) h w :
  (forall e, result (m w) <> Raise e) -> try_except m h w = m w.
Proof.
  intros Hn. unfold try_except. destruct (result (m w)) as [a|e| |] eqn:E; try reflexivity.
  destruct (Hn e eq_refl).
Qed.

(** What [record_audio_from_channel] returns, read off the way its wait
    ended. *)
Definition handed_over (room : Room) (r0 : Reply wait_end) (r : Reply (option Turn)) : Prop :=
  let w1 := final r0 in
  match result r0 with
  | Ret Ceiling => r = mkReply (Ret None) w1 (events r0)
  | Ret Silence =>
      match AudioSink.audio_data (sink w1) with
      | [] => r = mkReply (Ret None) w1 (events r0)
      | (user, _) :: _ =>
          match AudioSink.get_audio_data (Some user) (sink w1) with
          | None => r = mkReply (Ret None) w1 (events r0)
          | Some samples =>
              if joined w1 then
                let name := member_name user (members room) in
                r = mkReply (Ret (Some (mkTurn samples user name)))
                            (set_sink (AudioSink.cleanup (sink w1)) w1)
                            (events r0 ++ [EvReset; EvTurn user name samples])
              else r = mkReply (Ret None) w1 (events r0)
          end
      end
  | Raise _ => r = mkReply (Ret None) w1 (events r0)
  | Cancelled => r = mkReply Cancelled w1 (events r0)
  | OutOfFuel => r = mkReply OutOfFuel w1 (events r0)
  end.

Lemma try_except_eq {A} (m : M A) h w r :
  m w = r ->
  try_except m h w
  = match result r with
    | Raise e => mkReply (result (h e (final r))) (final (h e (final r)))
                         (events r ++ events (h e (final r)))
    | _ => r
    end.
Proof. intros <-. reflexivity. Qed.

Lemma bind_eq {A B} (m : M A) (k : A -> M B) w r :
  m w = r ->
  bind m k w
  = match result r with
    | Ret a => mkReply (result (k a (final r))) (final (k a (final r)))
                       (events r ++ events (k a (final r)))
    | Raise e => mkReply (Raise e) (final r) (events r)
    | Cancelled => mkReply Cancelled (final r) (events r)
    | OutOfFuel => mkReply OutOfFuel (final r) (events r)
    end.
Proof. intros <-. reflexivity. Qed.

Lemma record_audio_from_channel_cases room duration w :
  joined w = true ->
  handed_over room
    (wait_for_silence wait_rounds duration (now w) (AudioSink.last_packet_time (sink w)) w)
    (record_audio_from_channel room duration w).
Proof.
  intros Hj. unfold record_audio_from_channel, handed_over.
  generalize wait_rounds. intros fuel.
  rewrite bind_get, Hj. cbn [negb].
  erewrite try_except_eq; [| rewrite bind_get; apply bind_eq; reflexivity].
  destruct (wait_for_silence fuel duration (now w) (AudioSink.last_packet_time (sink w)) w)
    as [res w1 es].
  cbn [result final events].
  destruct res as [[|]| e | |]; cbn [result final events ret];
    rewrite ?app_nil_r; try reflexivity.
  rewrite bind_get.
  destruct (AudioSink.audio_data (sink w1)) as [|[user b] rest];
    cbn [result final events ret]; rewrite ?app_nil_r; try reflexivity.
  destruct (AudioSink.get_audio_data (Some user) (sink w1)) as [samples|];
    cbn [result final events ret]; rewrite ?app_nil_r; try reflexivity.
  destruct (joined w1); cbn [negb result final events ret raise];
    rewrite ?app_nil_r; reflexivity.
Qed.

(** Corrected C3. When the 30 s ceiling ends the wait, no turn is emitted
    and the loop goes back to listening with the sink as the wait left it:
    nothing is selected, snapshot or reset, whether or not a speaker has
    buffered audio. A turn is emitted only when the wait ends by silence. *)
Theorem ceiling_emits_no_turn room duration w :
  joined w = true ->
  let r0 := wait_for_silence wait_rounds duration (now w)
              (AudioSink.last_packet_time (sink w)) w in
  let r := record_audio_from_channel room duration w in
  (result r0 = Ret Ceiling ->
     result r = Ret None /\ final r = final r0 /\ events r = events r0) /\
  (forall turn, result r = Ret (Some turn) -> result r0 = Ret Silence).
Proof.
  intros Hj.
  pose proof (record_audio_from_channel_cases room duration w Hj) as H.
  revert H. unfold handed_over. cbv zeta.
  generalize (record_audio_from_channel room duration w).
  generalize (wait_for_silence wait_rounds duration (now w)
                (AudioSink.last_packet_time (sink w)) w).
  intros [res w1 es] r. cbn [result final events]. intros H. split.
  - intros ->. rewrite H. auto.
  - intros turn Hr. destruct res as [[|]| e | |];
      try reflexivity; rewrite H in Hr; discriminate.
Qed.

Lemma ceiling_emits_no_turn_witness :
  joined talkative_room = true /\
  result (wait_for_silence wait_rounds 3000 (now talkative_room)
            (AudioSink.last_packet_time (sink talkative_room)) talkative_room)
    = Ret Ceiling /\
  result (record_audio_from_channel (mkRoom [] false) 3000 talkative_room) = Ret None.
Proof.
  assert (Hj : joined talkative_room = true) by reflexivity.
  assert (Hc : result (wait_for_silence wait_rounds 3000 (now talkative_room)
                 (AudioSink.last_packet_time (sink talkative_room)) talkative_room)
               = Ret Ceiling) by (vm_compute; reflexivity).
  split; [exact Hj | split; [exact Hc |]].
  exact (proj1 (proj1 (ceiling_emits_no_turn (mkRoom [] false) 3000 talkative_room Hj) Hc)).
Defined.

(** C3 as stated fails: when the ceiling ends the wait in the room where
    someone speaks, speaker 1 has 28 bytes buffered, and yet no turn is
    emitted and the buffer is left as it is. *)
Lemma ceiling_with_buffered_audio_gives_no_turn :
  let r := record_audio_from_channel (mkRoom [(1, "ann"%string)] false) default_duration
             talkative_room in
  result r = Ret None /\
  now (final r) = 30100 /\
  AudioSink.audio_data (sink (final r)) = [(1, concat (repeat [1; 0] 14))].
Proof. vm_compute. repeat split; reflexivity. Qed.

(* ===================================================================== *)
(** * Playback and the temporary file                                     *)
(* ===================================================================== *)

(** How many times [path] is removed in a run. *)
Fixpoint removals (path : string) (es : list Event) : nat :=
  match es with
  | [] => 0
  | EvRemove p :: rest => (if String.eqb p path then 1 else 0) + removals path rest
  | _ :: rest => removals path rest
  end.

Lemma removals_app path es1 es2 :
  removals path (es1 ++ es2) = (removals path es1 + removals path es2)%nat.
Proof.
  induction es1 as [|e es1 IH]; simpl; [reflexivity |].
  destruct e; simpl; rewrite ?IH; lia.
Qed.

(** The three stages the file of a reply goes through: it waits to be
    played while no player holds it, it is being played, it is gone. *)
Definition waiting (path : string) (w : World) : Prop :=
  file_exists path w = true /\ forall q, player w = Some q -> p_path q <> path.

Definition playing (path : string) (w : World) : Prop :=
  file_exists path w = true /\ exists q, player w = Some q /\ p_path q = path.

Definition removed (path : string) (w : World) : Prop :=
  file_exists path w = false /\ player w = None.

(** What time does to the player and the files. *)
Lemma advance_player d w :
  match player w with
  | None =>
      player (final (advance d w)) = None /\
      files (final (advance d w)) = files w /\ events (advance d w) = []
  | Some q =>
      if p_left q <=? d then
        player (final (advance d w)) = None /\
        (if negb (Py.is_empty (p_path q)) && file_exists (p_path q) w
         then files (final (advance d w)) = files w ∖ {[p_path q]} /\
              events (advance d w) = [EvRemove (p_path q)]
         else files (final (advance d w)) = files w /\ events (advance d w) = [])
      else
        player (final (advance d w)) = Some (mkPlayer (p_left q - d) (p_path q) (p_error q)) /\
        files (final (advance d w)) = files w /\ events (advance d w) = []
  end.
Proof.
  unfold advance. rewrite bind_modify, bind_get. cbn [player set_clock].
  destruct (player w) as [q|] eqn:Ep; [| cbn; auto].
  destruct (p_left q <=? d); [| cbn; auto].
  rewrite bind_modify. unfold _on_playback_done. rewrite bind_get.
  unfold file_exists. cbn [files set_player set_clock].
  destruct (negb (Py.is_empty (p_path q)) && bool_decide (p_path q ∈ files w)); cbn; auto.
Qed.

Lemma file_exists_remove path path' (w w' : World) :
  files w' = files w ∖ {[path']} -> path' <> path ->
  file_exists path w' = file_exists path w.
Proof.
  intros Hf Hne. unfold file_exists. rewrite Hf.
  apply bool_decide_ext. rewrite elem_of_difference, elem_of_singleton.
  split; [tauto | intros H; split; [exact H | congruence]].
Qed.

Lemma file_exists_same path (w w' : World) :
  files w' = files w -> file_exists path w' = file_exists path w.
Proof. intros Hf. unfold file_exists. rewrite Hf. reflexivity. Qed.

Lemma file_exists_removed path (w w' : World) :
  files w' = files w ∖ {[path]} -> file_exists path w' = false.
Proof.
  intros Hf. unfold file_exists. rewrite Hf.
  apply bool_decide_eq_false. rewrite elem_of_difference, elem_of_singleton. tauto.
Qed.

Lemma advance_waiting path d w :
  waiting path w ->
  waiting path (final (advance d w)) /\ removals path (events (advance d w)) = 0%nat.
Proof.
  intros [Hf Hq]. pose proof (advance_player d w) as H. unfold waiting.
  destruct (player w) as [q|] eqn:Ep.
  - specialize (Hq q eq_refl).
    destruct (p_left q <=? d).
    + destruct H as (Hp & H). rewrite Hp.
      destruct (negb (Py.is_empty (p_path q)) && file_exists (p_path q) w);
        destruct H as (Hfs & He); rewrite He.
      * rewrite (file_exists_remove _ _ _ _ Hfs Hq).
        apply String.eqb_neq in Hq. cbn [removals]. rewrite Hq.
        repeat split; auto; discriminate.
      * rewrite (file_exists_same _ _ _ Hfs). repeat split; auto; discriminate.
    + destruct H as (Hp & Hfs & He). rewrite Hp, He, (file_exists_same _ _ _ Hfs).
      repeat split; auto. intros q' [= <-]. exact Hq.
  - destruct H as (Hp & Hfs & He). rewrite Hp, He, (file_exists_same _ _ _ Hfs).
    repeat split; auto; discriminate.
Qed.

Lemma advance_playing path d w :
  Py.is_empty path = false -> playing path w ->
  (playing path (final (advance d w)) /\ removals path (events (advance d w)) = 0%nat) \/
  (removed path (final (advance d w)) /\ removals path (events (advance d w)) = 1%nat).
Proof.
  intros Hne (Hf & q & Hq & Hpath). pose proof (advance_player d w) as H.
  rewrite Hq in H. subst path.
  destruct (p_left q <=? d).
  - right. destruct H as (Hp & H). rewrite Hne, Hf in H. destruct H as (Hfs & He).
    unfold removed. rewrite (file_exists_removed _ _ _ Hfs), Hp, He. cbn [removals].
    rewrite String.eqb_refl. auto.
  - left. destruct H as (Hp & Hfs & He). unfold playing.
    rewrite (file_exists_same _ _ _ Hfs), Hp, He. cbn [removals p_path]. eauto.
Qed.

Ltac wp_step :=
  lazymatch goal with
  | |- wp next_tick _ _ => apply wp_next_tick
  | |- wp (bind _ _) _ _ => apply wp_bind
  | |- wp (try_except _ _) _ _ => apply wp_try_except
  | |- wp get _ _ => apply wp_get
  | |- wp (ret _) _ _ => apply wp_ret
  | |- wp (raise _) _ _ => apply wp_raise
  | |- wp (emit _) _ _ => apply wp_emit
  | |- wp (modify _) _ _ => apply wp_modify
  end;
  cbv beta iota.

(** A step during which the file stays in the stage [stage]. *)
Definition goes_on {A} (stage : World -> Prop) (path : string)
  : res A -> World -> list Event -> Prop :=
  fun r w' es =>
    match r with
    | Ret _ | Raise _ => stage w' /\ removals path es = 0%nat
    | Cancelled => True
    | OutOfFuel => False
    end.

Section Playback.
Variable env : Env.
Variable room : Room.
Variable path : string.
Hypothesis path_not_empty : Py.is_empty path = false.

Lemma ffmpeg_source_waiting w :
  waiting path w -> wp (ffmpeg_source env path) w (goes_on (waiting path) path).
Proof.
  intros Hw. unfold ffmpeg_source, goes_on. repeat wp_step.
  destruct (ffmpeg env (tick w)); wp_step; split; auto.
Qed.

Lemma send_waiting message w :
  waiting path w ->
  wp (try_except (send env message) (fun _ => ret tt)) w
     (fun r w' es => match r with
                     | Ret _ => waiting path w' /\ removals path es = 0%nat
                     | Cancelled => True
                     | _ => False
                     end).
Proof.
  intros Hw. unfold send. repeat wp_step. apply wp_pause; [intros d' c kept | intros d' c]; cbv beta iota.
  - destruct (advance_waiting path d' (set_tick (S (tick w)) w) Hw) as [Hw' Hr].
    destruct (snd (text_send env (tick w))); repeat wp_step;
      cbn [app removals]; rewrite ?app_nil_r, ?removals_app, Hr; split; auto.
  - exact I.
Qed.

Lemma voice_client_play_waiting w :
  waiting path w ->
  wp (voice_client_play env path) w
     (fun r w' es => match r with
                     | Ret _ => playing path w' /\ removals path es = 0%nat
                     | Raise _ => waiting path w' /\ removals path es = 0%nat
                     | _ => False
                     end).
Proof.
  intros Hw. unfold voice_client_play. repeat wp_step.
  destruct (is_playing (set_tick (S (tick w)) w)); [wp_step; split; auto |].
  destruct (play env (tick w)) as [|len err]; wp_step; [split; auto |].
  split; [| reflexivity]. destruct Hw as [Hf _]. split; [exact Hf |].
  eexists. split; reflexivity.
Qed.

Lemma wait_for_playback_removed n w :
  removed path w -> wait_for_playback n w = mkReply (Ret O) w [].
Proof.
  intros [_ Hp]. destruct n; cbn [wait_for_playback]; rewrite bind_get; [reflexivity |].
  unfold is_playing. rewrite Hp. reflexivity.
Qed.

Lemma wait_for_playback_playing n : forall w,
  playing path w ->
  wp (wait_for_playback n) w
     (fun r w' es =>
        match r with
        | Ret polls => (playing path w' /\ removals path es = 0%nat /\ polls = n) \/
                       (removed path w' /\ removals path es = 1%nat)
        | Cancelled => True
        | _ => False
        end).
Proof.
  induction n as [|n IH]; intros w Hw; cbn [wait_for_playback].
  - repeat wp_step. left. auto.
  - repeat wp_step.
    assert (Hp : is_playing w = true).
    { destruct Hw as (_ & q & Hq & _). unfold is_playing. rewrite Hq. reflexivity. }
    rewrite Hp. wp_step. apply wp_sleep; [intros d' c kept | intros d' c]; cbv beta iota; [| exact I].
    wp_step.
    destruct (advance_playing path d' w path_not_empty Hw) as [[Hw' Hr] | [Hw' Hr]].
    + eapply wp_mono; [apply IH; exact Hw' |].
      intros r w' es. destruct r as [polls| | |]; trivial.
      intros [(Hpl & Hes & ->) | (Hrm & Hes)]; wp_step;
        cbn [app removals]; rewrite !removals_app, Hr, Hes; cbn [removals]; auto.
    + unfold wp at 1. rewrite wait_for_playback_removed by exact Hw'.
      cbn [result final events]. wp_step.
      right. cbn [app removals]. rewrite !removals_app, Hr. cbn [removals]. auto.
Qed.

(** The [except] branch of the inner [try], reached while the file waits. *)
Lemma playback_error_removes e w :
  waiting path w ->
  wp (w0 <- get;;
      (if file_exists path w0 then remove path else ret tt);;
      @raise bool e) w
     (fun r w' es => r = Raise e /\ file_exists path w' = false /\
                     removals path es = 1%nat).
Proof.
  intros [Hf _]. repeat wp_step. rewrite Hf. unfold remove. repeat wp_step.
  repeat split.
  - unfold file_exists. cbn [files set_files]. apply bool_decide_eq_false.
    rewrite elem_of_difference, elem_of_singleton. tauto.
  - cbn [app removals]. rewrite String.eqb_refl. reflexivity.
Qed.

End Playback.

(** Where the file of a reply is when the play operation is over. *)
Definition cleaned_up (path : string) (r : Reply bool) : Prop :=
  let w' := final r in
  let n := removals path (events r) in
  match result r with
  | Ret b =>
      b = true /\
      ((removed path w' /\ n = 1%nat) \/
       (playing path w' /\ n = 0%nat /\ In (EvPlayed playback_polls) (events r) /\
        forall d q, player w' = Some q -> p_left q <= d ->
          removed path (final (advance d w')) /\
          removals path (events (advance d w')) = 1%nat))
  | Raise _ => file_exists path w' = false /\ n = 1%nat
  | Cancelled => True
  | OutOfFuel => False
  end.

Lemma late_callback_removes path w d q :
  Py.is_empty path = false -> playing path w ->
  player w = Some q -> p_left q <= d ->
  removed path (final (advance d w)) /\ removals path (events (advance d w)) = 1%nat.
Proof.
  intros Hne Hw Hq Hd.
  destruct (advance_playing path d w Hne Hw) as [[(_ & q' & Hq' & _) _] | H]; [| exact H].
  pose proof (advance_player d w) as H. rewrite Hq in H.
  destruct (Z.leb_spec (p_left q) d); [| lia].
  destruct H as (Hp & _). congruence.
Qed.

Section PlayResponse.
Variable env : Env.
Variable room : Room.
Variable path : string.
Hypothesis path_not_empty : Py.is_empty path = false.

Lemma play_and_wait w :
  waiting path w ->
  wp (voice_client_play env path;;
      waited <- wait_for_playback playback_polls;;
      emit (EvPlayed waited);;
      ret true) w
     (fun r w' es =>
        match r with
        | Ret b => b = true /\
                   ((removed path w' /\ removals path es = 1%nat) \/
                    (playing path w' /\ removals path es = 0%nat /\
                     In (EvPlayed playback_polls) es))
        | Raise _ => waiting path w' /\ removals path es = 0%nat
        | Cancelled => True
        | OutOfFuel => False
        end).
Proof.
  intros Hw. wp_step.
  eapply wp_mono; [apply voice_client_play_waiting; exact Hw |].
  intros r w1 es1. destruct r as [[]|e| |]; trivial; try contradiction. intros [Hw1 Hr1].
  wp_step.
  eapply wp_mono; [apply wait_for_playback_playing; [exact path_not_empty | exact Hw1] |].
  intros r w2 es2. destruct r as [polls|e| |]; trivial; try contradiction.
  intros [(Hpl & Hes & ->) | (Hrm & Hes)]; repeat wp_step; (split; [reflexivity |]).
  - right. rewrite !removals_app, Hr1, Hes. cbn [removals].
    split; [exact Hpl | split; [reflexivity |]].
    apply in_or_app. right. apply in_or_app. right.
    apply in_or_app. left. left. reflexivity.
  - left. rewrite !removals_app, Hr1, Hes. cbn [removals]. auto.
Qed.

Lemma play_response_body response w :
  waiting path w ->
  wp (ffmpeg_source env path;;
      (if log_channel room
       then try_except (send env ("**Merith (Voice):** " ++ response)) (fun _ => ret tt)
       else ret tt);;
      voice_client_play env path;;
      waited <- wait_for_playback playback_polls;;
      emit (EvPlayed waited);;
      ret true) w
     (fun r w' es =>
        match r with
        | Ret b => b = true /\
                   ((removed path w' /\ removals path es = 1%nat) \/
                    (playing path w' /\ removals path es = 0%nat /\
                     In (EvPlayed playback_polls) es))
        | Raise _ => waiting path w' /\ removals path es = 0%nat
        | Cancelled => True
        | OutOfFuel => False
        end).
Proof.
  intros Hw. wp_step.
  eapply wp_mono; [apply ffmpeg_source_waiting; exact Hw |].
  intros r w1 es1. unfold goes_on. destruct r as [[]|e| |]; trivial; try contradiction. intros [Hw1 Hr1].
  wp_step.
  assert (Htail : forall w2 es2, waiting path w2 -> removals path es2 = 0%nat ->
            wp (voice_client_play env path;;
                waited <- wait_for_playback playback_polls;;
                emit (EvPlayed waited);; ret true) w2
               (fun r3 w3 es3 =>
                  match r3 with
                  | Ret b => b = true /\
                      ((removed path w3 /\ removals path (es1 ++ es2 ++ es3) = 1%nat) \/
                       (playing path w3 /\ removals path (es1 ++ es2 ++ es3) = 0%nat /\
                        In (EvPlayed playback_polls) (es1 ++ es2 ++ es3)))
                  | Raise _ => waiting path w3 /\ removals path (es1 ++ es2 ++ es3) = 0%nat
                  | Cancelled => True
                  | OutOfFuel => False
                  end)).
  { intros w2 es2 Hw2 Hr2.
    eapply wp_mono; [apply play_and_wait; exact Hw2 |].
    intros r w3 es3. rewrite !removals_app, Hr1, Hr2. cbn [Nat.add].
    destruct r as [b|e| |]; trivial; try contradiction.
    intros (-> & [H | (Hpl & Hes & Hin)]); (split; [reflexivity |]); [left; exact H |].
    right. split; [exact Hpl | split; [exact Hes |]].
    apply in_or_app. right. apply in_or_app. right. exact Hin. }
  destruct (log_channel room).
  - eapply wp_mono; [apply send_waiting; exact Hw1 |].
    intros r w2 es2. destruct r as [[]|e| |]; trivial; try contradiction. intros [Hw2 Hr2].
    apply Htail; assumption.
  - wp_step. apply Htail; [exact Hw1 | reflexivity].
Qed.

End PlayResponse.

(** Corrected C4. For a reply whose file has been written and is held by no
    player yet: when the play operation ends by an error, the file has been
    deleted, once; when it ends because playback is over, the player's
    callback has deleted it, once; when it ends because the 30 s ceiling is
    reached (300 polls were made), the file is still there and still being
    played, nothing has been deleted, and the callback deletes it, once,
    when the sound later runs out. *)
Theorem temporary_file_after_playback env room response path w :
  Py.is_empty path = false ->
  waiting path w ->
  cleaned_up path (play_response env room response path w).
Proof.
  intros Hne Hw. unfold cleaned_up. cbv zeta.
  change (wp (play_response env room response path) w
            (fun r w' es =>
               match r with
               | Ret b =>
                   b = true /\
                   ((removed path w' /\ removals path es = 1%nat) \/
                    (playing path w' /\ removals path es = 0%nat /\
                     In (EvPlayed playback_polls) es /\
                     forall d q, player w' = Some q -> p_left q <= d ->
                       removed path (final (advance d w')) /\
                       removals path (events (advance d w')) = 1%nat))
               | Raise _ => file_exists path w' = false /\ removals path es = 1%nat
               | Cancelled => True
               | OutOfFuel => False
               end)).
  unfold play_response. wp_step.
  eapply wp_mono; [apply play_response_body; [exact Hne | exact Hw] |].
  intros r w1 es1. destruct r as [b|e| |]; trivial; try contradiction.
  - intros (-> & [H | (Hpl & Hes & Hin)]); (split; [reflexivity |]); [left; exact H |].
    right. split; [exact Hpl | split; [exact Hes | split; [exact Hin |]]].
    intros d q Hq Hd. eapply late_callback_removes; eassumption.
  - intros [Hw1 Hr1].
    eapply wp_mono; [apply playback_error_removes; exact Hw1 |].
    intros r w2 es2 (-> & Hf & Hr2). rewrite removals_app, Hr1, Hr2. auto.
Qed.

(** Services that answer at once and well; the sound of a reply lasts
    [sound] milliseconds. *)
Definition obliging (heard reply path : string) (sound : N) : Env :=
  mkEnv (fun _ => (0%N, heard))
        (fun _ => (0%N, Reply200 (Some reply)))
        (fun _ => (0%N, Some path))
        (fun _ => (0%N, Succeeds))
        (fun _ => Succeeds)
        (fun _ => PlayStarts sound false)
        (fun _ => Succeeds)
        (fun _ => Succeeds).

(** A joined room in which the file of a reply has just been written. *)
Definition reply_written : World :=
  mkWorld 0 [] None false true true (AudioSink.init 0) None {["reply.wav"%string]} 0.

Lemma temporary_file_after_playback_witness :
  Py.is_empty "reply.wav" = false /\
  waiting "reply.wav" reply_written /\
  cleaned_up "reply.wav"
    (play_response (obliging "hello" "Hi!" "reply.wav" 1200) (mkRoom [] false)
       "Hi!" "reply.wav" reply_written).
Proof.
  assert (Hne : Py.is_empty "reply.wav" = false) by reflexivity.
  assert (Hw : waiting "reply.wav" reply_written).
  { split; [vm_compute; reflexivity | intros q; discriminate]. }
  split; [exact Hne | split; [exact Hw |]].
  exact (temporary_file_after_playback (obliging "hello" "Hi!" "reply.wav" 1200)
           (mkRoom [] false) "Hi!" "reply.wav" reply_written Hne Hw).
Defined.

(** C4 as stated fails on the timeout path: with 45 s of sound, the play
    operation returns after 30 s, the file has not been deleted and is still
    there. *)
Lemma playback_timeout_leaves_the_file :
  let r := play_response (obliging "hello" "Hi!" "reply.wav" 45000) (mkRoom [] false)
             "Hi!" "reply.wav" reply_written in
  result r = Ret true /\
  now (final r) = 30000 /\
  removals "reply.wav" (events r) = 0%nat /\
  file_exists "reply.wav" (final r) = true.
Proof. vm_compute. repeat split; reflexivity. Qed.

(* ===================================================================== *)
(** * What every stage of a turn keeps                                    *)
(* ===================================================================== *)

(** The events of the stages of a turn, from recognition to playback. *)
Definition stage (e : Event) : bool :=
  match e with
  | EvTranscribe _ | EvSend _ | EvPost _ _ _ | EvSynthesize _ | EvPlay _ | EvPlayed _ => true
  | _ => false
  end.

Ltac keeps_auto :=
  repeat first
    [ keeps_step
    | apply keeps_wait_for_playback
    | apply frame_tick | apply frame_cancel | apply frame_player | apply frame_files
    | apply frame_remove | apply frame_sleep
    | match goal with H : forall e, stage e = true -> _ |- _ => apply H; reflexivity end ].

Section KeepsStages.
Context {R : World -> World -> Prop} {P : Event -> Prop} `{!Frame R P}.
Variable env : Env.
Variable self : VoiceHandler.
Variable room : Room.
Hypothesis P_stage : forall e, stage e = true -> P e.

Lemma keeps_transcribe samples : keeps R P (transcribe env samples).
Proof. unfold transcribe. keeps_auto. Qed.

Lemma keeps_send message : keeps R P (send env message).
Proof. unfold send. keeps_auto. Qed.

Lemma keeps_synthesize_async text : keeps R P (synthesize_async env text).
Proof. unfold synthesize_async. keeps_auto. Qed.

Lemma keeps_generate_response_async llm user_message voice_mode max_tokens_arg :
  keeps R P (generate_response_async env llm user_message voice_mode max_tokens_arg).
Proof.
  unfold generate_response_async. apply keeps_attempts.
  intros a. apply P_stage. reflexivity.
Qed.

Lemma keeps_play_response response audio_path :
  keeps R P (play_response env room response audio_path).
Proof.
  unfold play_response, ffmpeg_source, voice_client_play, remove.
  repeat first [apply keeps_send | progress keeps_auto].
Qed.

Lemma keeps_process_voice_message user_message :
  keeps R P (process_voice_message env self room user_message).
Proof.
  unfold process_voice_message.
  repeat first [ apply keeps_generate_response_async | apply keeps_synthesize_async
               | apply keeps_play_response | keeps_step ].
Qed.

Lemma keeps_turn_stages turn : keeps R P (turn_stages env self room turn).
Proof.
  unfold turn_stages.
  repeat first [ apply keeps_transcribe | apply keeps_send
               | apply keeps_process_voice_message | keeps_step ].
Qed.

End KeepsStages.

(** ** Relations between worlds that time respects *)

(** No relation at all: only the events matter. *)
Definition any_world (w w' : World) : Prop := True.

Lemma frame_any_world (P : Event -> Prop) :
  (forall ms, P (EvSleep ms)) -> (forall path, P (EvRemove path)) -> Frame any_world P.
Proof. intros Hs Hr. split; unfold any_world; auto. Qed.

(** When nothing is to come from outside, nothing is to come afterwards
    and the room is joined after if it was before. *)
Definition same_room (w w' : World) : Prop :=
  cancel_in w = None -> cancel_in w' = None /\ joined w' = joined w.

Lemma frame_same_room (P : Event -> Prop) :
  (forall ms, P (EvSleep ms)) -> (forall path, P (EvRemove path)) -> Frame same_room P.
Proof.
  intros Hs Hr. split; unfold same_room; auto.
  - intros a b c Hab Hbc Ha. destruct (Hab Ha) as [Hb E1].
    destruct (Hbc Hb) as [Hc E2]. split; congruence.
  - intros w c0 c kept Hw. congruence.
Qed.

(* ===================================================================== *)
(** * The noise filter                                                    *)
(* ===================================================================== *)

(** The texts [STTEngine] returns instead of raising (stt_kyutai.py). *)
Definition reserved_sentinels : list string :=
  [ "[STT not available]"; "[Unknown STT engine]"; "[Transcription failed]";
    "[Transcription error]"; "[No speech detected]"; "[Kyutai STT not available]" ]%string.

(** White space, and the one filler punctuation mark the filter knows. *)
Definition filler (c : ascii) : bool := Py.isspace c || Ascii.eqb c ".".

(** The recognized texts the claim speaks of: the empty text, a reserved
    sentinel, a text made of white space and filler punctuation only. *)
Definition discarded (text : string) : Prop :=
  text = EmptyString \/ In text reserved_sentinels \/
  forallb filler (list_ascii_of_string text) = true.

Lemma lstrip_spaces s :
  forallb Py.isspace (list_ascii_of_string s) = true -> Py.lstrip s = EmptyString.
Proof.
  induction s as [|c s IH]; simpl; [reflexivity |].
  intros H. apply andb_prop in H as [Hc Hs]. rewrite Hc. auto.
Qed.

Lemma scrub_leaves_spaces s :
  forallb filler (list_ascii_of_string s) = true ->
  forallb Py.isspace
    (list_ascii_of_string (Py.remove_char " " (Py.remove_char "." s))) = true.
Proof.
  induction s as [|c s IH]; simpl; [reflexivity |].
  intros H. apply andb_prop in H as [Hc Hs]. specialize (IH Hs).
  destruct (Ascii.eqb c ".") eqn:Edot; [exact IH |].
  unfold filler in Hc. rewrite Edot, orb_false_r in Hc.
  simpl. destruct (Ascii.eqb c " "); [exact IH |].
  simpl. rewrite Hc. exact IH.
Qed.

Lemma filler_only_noise text :
  forallb filler (list_ascii_of_string text) = true -> only_noise text = true.
Proof.
  intros H. unfold only_noise, Py.strip.
  rewrite (lstrip_spaces _ (scrub_leaves_spaces _ H)). reflexivity.
Qed.

Lemma discarded_filtered text :
  discarded text ->
  Py.is_empty text || Py.startswith text "[" = true \/ only_noise text = true.
Proof.
  intros [-> | [Hin | Hf]].
  - left. reflexivity.
  - left. simpl in Hin.
    repeat (destruct Hin as [<- | Hin]; [reflexivity |]). destruct Hin.
  - right. apply filler_only_noise, Hf.
Qed.

(** The events of a turn that is dropped: the recognition itself, the pause
    before the next wait, and what the player thread may do meanwhile. *)
Definition silent (e : Event) : bool :=
  match e with
  | EvTranscribe _ | EvSleep _ | EvRemove _ => true
  | _ => false
  end.

Lemma advance_silent d w : Forall (fun e => silent e = true) (events (advance d w)).
Proof.
  pose proof (frame_any_world (fun e => silent e = true)
                (fun _ => eq_refl) (fun _ => eq_refl)) as HF.
  apply (@keeps_advance any_world _ HF d w).
Qed.

(** C5. A turn whose recognized text is empty, is a reserved sentinel, or
    consists of white space and filler punctuation only, ends the run of the
    stages normally (or by a cancellation), never by an exception, and all it
    emits is the recognition and the pause before the next wait: no request
    to the language model, nothing sent to the log channel. *)
Theorem noise_is_discarded env self room turn w :
  discarded (snd (stt env (tick w))) ->
  let r := turn_stages env self room turn w in
  (result r = Ret tt \/ result r = Cancelled) /\
  Forall (fun e => silent e = true) (events r).
Proof.
  intros Hd. apply discarded_filtered in Hd. cbv zeta.
  change (wp (turn_stages env self room turn) w
            (fun r w' es => (r = Ret tt \/ r = Cancelled) /\
                            Forall (fun e => silent e = true) es)).
  assert (Hsleep : forall w1 es1, Forall (fun e => silent e = true) es1 ->
            wp (sleep 500) w1
               (fun r w' es => (r = Ret tt \/ r = Cancelled) /\
                               Forall (fun e => silent e = true) (es1 ++ es))).
  { intros w1 es1 H1. apply wp_sleep; [intros d' c kept | intros d' c]; (split; [auto |]);
      apply Forall_app; (split; [exact H1 |]);
      constructor; [reflexivity | apply advance_silent | reflexivity | apply advance_silent]. }
  unfold turn_stages, transcribe. repeat wp_step.
  apply wp_pause; [intros d' c kept | intros d' c]; cbv beta iota.
  2:{ split; [auto |]. constructor; [reflexivity | apply advance_silent]. }
  repeat wp_step.
  assert (Hes : Forall (fun e => silent e = true)
                  ([] ++ ([] ++ [EvTranscribe (audio turn)] ++ events (advance d' (set_tick (S (tick w)) w)) ++ []))).
  { cbn [app]. constructor; [reflexivity |]. rewrite app_nil_r. apply advance_silent. }
  destruct Hd as [Hd | Hd].
  - rewrite Hd. apply Hsleep, Hes.
  - destruct (Py.is_empty _ || Py.startswith _ _); [apply Hsleep, Hes |].
    rewrite Hd. apply Hsleep, Hes.
Qed.

Lemma noise_is_discarded_witness :
  discarded (snd (stt (obliging ". . ." "Hi!" "reply.wav" 1200) (tick reply_written))) /\
  Forall (fun e => silent e = true)
    (events (turn_stages (obliging ". . ." "Hi!" "reply.wav" 1200)
               (mkVoiceHandler 3000 15000 (mkLMStudioClient 100 3 1000))
               (mkRoom [] true) (mkTurn [1] 1 "ann") reply_written)).
Proof.
  assert (H : discarded (snd (stt (obliging ". . ." "Hi!" "reply.wav" 1200)
                                  (tick reply_written))))
    by (right; right; reflexivity).
  split; [exact H |].
  exact (proj2 (noise_is_discarded (obliging ". . ." "Hi!" "reply.wav" 1200)
                  (mkVoiceHandler 3000 15000 (mkLMStudioClient 100 3 1000))
                  (mkRoom [] true) (mkTurn [1] 1 "ann") reply_written H)).
Defined.

(* ===================================================================== *)
(** * The language model call                                             *)
(* ===================================================================== *)

Lemma advance_events d w :
  events (advance d w) = [] \/ exists path, events (advance d w) = [EvRemove path].
Proof.
  pose proof (advance_player d w) as H.
  destruct (player w) as [q|]; [| left; tauto].
  destruct (p_left q <=? d); [| left; tauto].
  destruct H as (_ & H).
  destruct (negb (Py.is_empty (p_path q)) && file_exists (p_path q) w);
    [right; eexists; apply H | left; apply H].
Qed.

(** How many requests a run sends. *)
Fixpoint posts (es : list Event) : nat :=
  match es with
  | [] => 0
  | EvPost _ _ _ :: rest => S (posts rest)
  | _ :: rest => posts rest
  end.

Lemma posts_app es1 es2 : posts (es1 ++ es2) = (posts es1 + posts es2)%nat.
Proof.
  induction es1 as [|e es1 IH]; simpl; [reflexivity |].
  destruct e; simpl; rewrite ?IH; reflexivity.
Qed.

(** The pace of a call: a request may only come first or after a delay, a
    delay only after a request and only of [d] milliseconds; nothing else
    happens but what the player thread does. *)
Inductive pace := Start | AfterPost | AfterSleep.

Definition pace_step (d : Z) (p : pace) (e : Event) : option pace :=
  match e with
  | EvPost _ _ _ => match p with AfterPost => None | _ => Some AfterPost end
  | EvSleep ms => match p with
                  | AfterPost => if ms =? d then Some AfterSleep else None
                  | _ => None
                  end
  | EvRemove _ => Some p
  | _ => None
  end.

Fixpoint paced (d : Z) (p : pace) (es : list Event) : option pace :=
  match es with
  | [] => Some p
  | e :: rest => match pace_step d p e with
                 | Some p' => paced d p' rest
                 | None => None
                 end
  end.

Lemma paced_app d p es1 es2 :
  paced d p (es1 ++ es2)
  = match paced d p es1 with Some p' => paced d p' es2 | None => None end.
Proof.
  revert p. induction es1 as [|e es1 IH]; intros p; simpl; [reflexivity |].
  destruct (pace_step d p e); auto.
Qed.

Lemma paced_advance d p d' w : paced d p (events (advance d' w)) = Some p.
Proof. destruct (advance_events d' w) as [-> | [path ->]]; reflexivity. Qed.

Lemma posts_advance d' w : posts (events (advance d' w)) = 0%nat.
Proof. destruct (advance_events d' w) as [-> | [path ->]]; reflexivity. Qed.

(** A reply that does not carry the text of an answer. *)
Definition unanswered (r : http_reply) : Prop :=
  match r with Reply200 (Some _) => False | _ => True end.

Definition unavailable : string := "[LM Studio unavailable]".

Section Attempts.
Variable env : Env.
Variable llm : LMStudioClient.
Variable tokens : Z.
Variable user_message : string.

(** What a run of the attempts numbered [k], ..., [k + m - 1] comes to,
    from the pace [p0]. *)
Definition retried (p0 : pace) (m : nat) : res string -> World -> list Event -> Prop :=
  fun r w' es =>
    (exists st, paced (retry_delay llm) p0 es = Some st /\
       forall x, r = Ret x -> (m = 0%nat /\ st = p0) \/ st = AfterPost) /\
    (posts es <= m)%nat /\
    (forall e, r <> Raise e) /\ r <> OutOfFuel /\
    ((forall k, unanswered (snd (http env k))) ->
       forall x, r = Ret x -> x = unavailable /\ posts es = m).

Lemma retried_intro p0 m (r : res string) w' es st n :
  paced (retry_delay llm) p0 es = Some st ->
  posts es = n ->
  (forall x, r = Ret x -> (m = 0%nat /\ st = p0) \/ st = AfterPost) ->
  (n <= m)%nat ->
  (forall e, r <> Raise e) -> r <> OutOfFuel ->
  ((forall k, unanswered (snd (http env k))) ->
     forall x, r = Ret x -> x = unavailable /\ n = m) ->
  retried p0 m r w' es.
Proof. intros H1 <-. unfold retried. eauto 10. Qed.

Lemma paced_advance_app d p d' w es :
  paced d p (events (advance d' w) ++ es) = paced d p es.
Proof. rewrite paced_app, paced_advance. reflexivity. Qed.

Lemma posts_advance_app d' w es : posts (events (advance d' w) ++ es) = posts es.
Proof. rewrite posts_app, posts_advance. reflexivity. Qed.

Lemma paced_post d p a t msg l :
  p <> AfterPost -> paced d p (EvPost a t msg :: l) = paced d AfterPost l.
Proof. intros Hp. cbn [paced pace_step]. destruct p; congruence. Qed.

Lemma paced_sleep d l : paced d AfterPost (EvSleep d :: l) = paced d AfterSleep l.
Proof. cbn [paced pace_step]. rewrite Z.eqb_refl. reflexivity. Qed.

Lemma paced_nil d p : paced d p [] = Some p.
Proof. reflexivity. Qed.

Lemma posts_post a t msg l : posts (EvPost a t msg :: l) = S (posts l).
Proof. reflexivity. Qed.

Lemma posts_sleep ms l : posts (EvSleep ms :: l) = posts l.
Proof. reflexivity. Qed.

Lemma posts_nil : posts [] = 0%nat.
Proof. reflexivity. Qed.

Ltac trace_norm :=
  cbn [app]; rewrite ?app_nil_r, <- ?app_assoc; cbn [app];
  repeat first
    [ rewrite paced_advance_app | rewrite posts_advance_app
    | rewrite paced_advance | rewrite posts_advance
    | rewrite paced_sleep | rewrite posts_post | rewrite posts_sleep
    | rewrite paced_nil | rewrite posts_nil
    | rewrite paced_post by assumption ].

Lemma attempts_retried m : forall (k : nat) w p0,
  p0 <> AfterPost ->
  (m = 0%nat \/ Z.of_nat (k + m) = retry_attempts llm) ->
  wp (attempts env llm tokens user_message (map Z.of_nat (seq k m))) w (retried p0 m).
Proof.
  induction m as [|m IH]; intros k w p0 Hp0 Hn.
  - cbn [seq map attempts]. wp_step.
    apply (retried_intro _ _ _ _ _ p0 0%nat); cbn [paced posts]; auto; try discriminate.
    intros _ x [= <-]. auto.
  - destruct Hn as [Hn | Hn]; [discriminate |].
    cbn [seq map attempts]. unfold post. repeat wp_step.
    apply wp_pause; [intros d' c kept | intros d' c]; cbv beta iota.
    2:{ apply (retried_intro _ _ _ _ _ AfterPost 1%nat);
          [trace_norm; reflexivity | trace_norm; reflexivity | ..];
          auto; try discriminate; lia. }
    repeat wp_step.
    assert (Hfail : unanswered (snd (http env (tick w))) ->
              wp ((if Z.of_nat k <? retry_attempts llm - 1
                   then sleep (retry_delay llm) else ret tt);;
                  attempts env llm tokens user_message (map Z.of_nat (seq (S k) m)))
                 (set_outside c kept (final (advance d' (set_tick (S (tick w)) w))))
                 (fun r2 w2 es2 =>
                    retried p0 (S m) r2 w2
                      (([] ++ ([] ++ [EvPost (Z.of_nat k) tokens user_message]
                               ++ events (advance d' (set_tick (S (tick w)) w))) ++ [])
                       ++ es2))).
    { intros _. wp_step.
      destruct (Z.ltb_spec (Z.of_nat k) (retry_attempts llm - 1)) as [Hlt | Hge].
      - apply wp_sleep; [intros d2 c2 kept2 | intros d2 c2]; cbv beta iota.
        + eapply wp_mono; [apply (IH (S k) _ AfterSleep); [discriminate | right; lia] |].
          intros r w3 es3 ((st & Hst & Hend) & Hle & Hraise & Hfuel & Hall).
          apply (retried_intro _ _ _ _ _ st (S (posts es3)));
            [trace_norm; exact Hst
            | trace_norm; reflexivity | ..]; auto; try lia.
          * intros x Hx. right. destruct (Hend x Hx) as [[Hm _] | Hs]; [lia | exact Hs].
          * intros Hu x Hx. destruct (Hall Hu x Hx) as [-> ->]. auto.
        + apply (retried_intro _ _ _ _ _ AfterSleep 1%nat);
            [trace_norm; reflexivity
            | trace_norm; reflexivity | ..]; auto; try discriminate; lia.
      - wp_step. assert (Hm : m = 0%nat) by lia. subst m. cbn [seq map attempts]. wp_step.
        apply (retried_intro _ _ _ _ _ AfterPost 1%nat);
          [trace_norm; reflexivity
          | trace_norm; reflexivity | ..]; auto; try discriminate.
        intros _ x [= <-]. auto. }
    destruct (snd (http env (tick w))) as [[content|] | status | |] eqn:Er;
      try (apply Hfail; exact I).
    wp_step.
    apply (retried_intro _ _ _ _ _ AfterPost 1%nat);
      [trace_norm; reflexivity
      | trace_norm; reflexivity | ..]; auto; try discriminate; try lia.
    intros Hu. specialize (Hu (tick w)). rewrite Er in Hu. destruct Hu.
Qed.

End Attempts.

Lemma range_attempts n :
  default [] (Py.range 0 n 1) = map Z.of_nat (seq 0 (Z.to_nat n)).
Proof.
  unfold Py.range, Py.range_len. cbn [Z.eqb Z.ltb Z.compare default].
  replace ((n - 0 + 1 - 1) / 1) with n by (rewrite Z.div_1_r; lia).
  apply map_ext. intros j. lia.
Qed.

Lemma process_voice_message_aborts env self room user_message w reply :
  joined w = true ->
  result (generate_response_async env (llm_client self) user_message true (Some 100) w)
    = Ret reply ->
  Py.is_empty reply || Py.startswith reply "[" = true ->
  process_voice_message env self room user_message w
  = mkReply (Ret false)
      (final (generate_response_async env (llm_client self) user_message true (Some 100) w))
      (events (generate_response_async env (llm_client self) user_message true (Some 100) w)).
Proof.
  intros Hj Hr Hc. unfold process_voice_message.
  rewrite bind_get, Hj. cbn [negb].
  erewrite try_except_eq; [| apply bind_eq; reflexivity].
  destruct (generate_response_async env (llm_client self) user_message true (Some 100) w)
    as [res w1 es].
  cbn [result final events] in *. subst res. rewrite Hc.
  cbn [ret result final events]. rewrite app_nil_r. reflexivity.
Qed.

(** C6. A call to the language model from the voice pipeline sends at most
    [retry_attempts] requests; a request comes first or after a delay, a
    delay only after a request that failed, always of [retry_delay], and a
    call that returns does not end on a delay; the call never raises; when
    every request fails it returns the bracketed "unavailable" text after
    exactly [retry_attempts] requests; and a reply that is empty or
    bracketed, as that text is, makes [process_voice_message] return [False]
    with nothing done beyond the call: no synthesis, no playback. *)
Theorem llm_call_is_retried_then_given_up env self room user_message w :
  let llm := llm_client self in
  let r := generate_response_async env llm user_message true (Some 100) w in
  (posts (events r) <= Z.to_nat (retry_attempts llm))%nat /\
  (exists st, paced (retry_delay llm) Start (events r) = Some st /\
              forall x, result r = Ret x -> st <> AfterSleep) /\
  (forall e, result r <> Raise e) /\
  ((forall k, unanswered (snd (http env k))) -> cancel_in w = None ->
     result r = Ret unavailable /\ posts (events r) = Z.to_nat (retry_attempts llm)) /\
  Py.startswith unavailable "[" = true /\
  (joined w = true ->
   forall reply, result r = Ret reply ->
     Py.is_empty reply || Py.startswith reply "[" = true ->
     process_voice_message env self room user_message w
     = mkReply (Ret false) (final r) (events r)).
Proof.
  cbv zeta.
  set (llm := llm_client self).
  pose proof (attempts_retried env llm (Z.min 100 100) user_message
                (Z.to_nat (retry_attempts llm)) 0 w Start) as H.
  assert (Hr : generate_response_async env llm user_message true (Some 100) w
               = attempts env llm (Z.min 100 100) user_message
                   (map Z.of_nat (seq 0 (Z.to_nat (retry_attempts llm)))) w).
  { unfold generate_response_async. rewrite range_attempts. reflexivity. }
  rewrite Hr.
  destruct H as ((st & Hst & Hend) & Hle & Hraise & Hfuel & Hall);
    [discriminate | destruct (Z.to_nat (retry_attempts llm)) eqn:E; [left; reflexivity | right; lia] |].
  split; [exact Hle |].
  split; [exists st; split; [exact Hst |] |].
  { intros x Hx. destruct (Hend x Hx) as [[_ ->] | ->]; discriminate. }
  split; [exact Hraise |].
  split.
  { intros Hu Hc.
    pose proof (frame_any_world (fun _ => True) (fun _ => I) (fun _ => I)) as HF.
    destruct (@keeps_generate_response_async any_world _ HF env (fun _ _ => I)
                llm user_message true (Some 100) w) as (_ & _ & Hcalm).
    rewrite Hr in Hcalm. destruct (Hcalm Hc) as (_ & Hnc & _).
    destruct (result (attempts env llm (Z.min 100 100) user_message
                (map Z.of_nat (seq 0 (Z.to_nat (retry_attempts llm)))) w)) as [x|e| |] eqn:Ex;
      try congruence.
    destruct (Hall Hu x eq_refl) as [-> Hp]. auto. }
  split; [reflexivity |].
  intros Hj reply Hreply Hc. rewrite <- Hr in *.
  apply (process_voice_message_aborts env self room user_message w reply); assumption.
Qed.

(** The scenario of the specification: three attempts are configured and
    the transport fails each time. *)
Definition unreachable_llm : Env :=
  mkEnv (fun _ => (0%N, "hello there"%string))
        (fun _ => (200%N, ReplyError))
        (fun _ => (0%N, Some "reply.wav"%string))
        (fun _ => (0%N, Succeeds))
        (fun _ => Succeeds)
        (fun _ => PlayStarts 1200 false)
        (fun _ => Succeeds)
        (fun _ => Succeeds).

Example three_failed_attempts :
  let self := mkVoiceHandler 3000 15000 (mkLMStudioClient 100 3 1000) in
  let r := process_voice_message unreachable_llm self (mkRoom [] true) "hello there"
             reply_written in
  result r = Ret false /\
  events r = [EvPost 0 100 "hello there"; EvSleep 1000;
              EvPost 1 100 "hello there"; EvSleep 1000;
              EvPost 2 100 "hello there"] /\
  now (final r) = 2600.
Proof. vm_compute. repeat split; reflexivity. Qed.

Lemma llm_call_is_retried_then_given_up_witness :
  (forall k, unanswered (snd (http unreachable_llm k))) /\
  cancel_in reply_written = None /\
  result (generate_response_async unreachable_llm (mkLMStudioClient 100 3 1000)
            "hello there" true (Some 100) reply_written) = Ret unavailable.
Proof.
  assert (Hu : forall k, unanswered (snd (http unreachable_llm k))) by (intros k; exact I).
  assert (Hc : cancel_in reply_written = None) by reflexivity.
  split; [exact Hu | split; [exact Hc |]].
  exact (proj1 (proj1 (proj2 (proj2 (proj2
           (llm_call_is_retried_then_given_up unreachable_llm
              (mkVoiceHandler 3000 15000 (mkLMStudioClient 100 3 1000))
              (mkRoom [] true) "hello there" reply_written)))) Hu Hc)).
Defined.

(* ===================================================================== *)
(** * The loop                                                            *)
(* ===================================================================== *)

Lemma wp_try_cancelled {A} (m h : M A) w (Q : res A -> World -> list Event -> Prop) :
  wp m w (fun r w1 es1 =>
            match r with
            | Cancelled => wp h w1 (fun r2 w2 es2 => Q r2 w2 (es1 ++ es2))
            | _ => Q r w1 es1
            end) ->
  wp (try_cancelled m h) w Q.
Proof.
  unfold wp, try_cancelled. cbv zeta.
  destruct (result (m w)) eqn:E; rewrite ?E; trivial.
Qed.

(** What [keeps_at] says, as a postcondition. *)
Lemma keeps_wp {A} R P (m : M A) w (Q : res A -> World -> list Event -> Prop) :
  keeps_at R P m w ->
  (forall r w' es,
     R w w' -> Forall P es ->
     (cancel_in w = None -> cancel_in w' = None /\ r <> Cancelled /\ r <> OutOfFuel) ->
     Q r w' es) ->
  wp m w Q.
Proof. intros (HR & HP & HC) HQ. apply HQ; assumption. Qed.

(** The rest of [loop_body], once the wait for audio is announced. *)
Definition listen_and_answer (env : Env) (self : VoiceHandler) (room : Room) : M unit :=
  audio_result <- record_audio_from_channel room default_duration;;
  match audio_result with
  | None => sleep 500
  | Some turn => turn_stages env self room turn
  end.

Lemma loop_body_eq env self room w :
  loop_body env self room w
  = mkReply (result (listen_and_answer env self room w))
            (final (listen_and_answer env self room w))
            (EvListen :: events (listen_and_answer env self room w)).
Proof. reflexivity. Qed.

Section KeepsLoop.
Context {R : World -> World -> Prop} {P : Event -> Prop} `{!Frame R P}.
Variable env : Env.
Variable self : VoiceHandler.
Variable room : Room.
Hypothesis P_stage : forall e, stage e = true -> P e.
Hypothesis R_reset : forall w, R w (set_sink (AudioSink.cleanup (sink w)) w).
Hypothesis P_reset : P EvReset.
Hypothesis P_turn : forall user name samples, P (EvTurn user name samples).
Hypothesis P_loop_error : P EvLoopError.

Lemma keeps_hand_over user name samples :
  keeps R P
    (modify (fun w => set_sink (AudioSink.cleanup (sink w)) w);;
     emit EvReset;;
     emit (EvTurn user name samples);;
     ret (Some (mkTurn samples user name))).
Proof. repeat first [apply R_reset | apply P_reset | apply P_turn | keeps_step]. Qed.

Lemma keeps_record_audio_from_channel duration :
  keeps R P (record_audio_from_channel room duration).
Proof.
  unfold record_audio_from_channel. apply keeps_bind_get. intros w.
  destruct (negb (joined w)); [apply keeps_ret |].
  apply keeps_at_try_except; [| intros; apply keeps_ret].
  apply keeps_at_bind_get.
  apply keeps_at_bind.
  - apply (keeps_wait_for_silence wait_rounds _ _ _ _ 0%nat);
      [lia | unfold wait_rounds; lia | lia].
  - intros e _. generalize (final (wait_for_silence wait_rounds duration (now w)
                                     (AudioSink.last_packet_time (sink w)) w)).
    change (keeps R P
              (match e with
               | Ceiling => ret None
               | Silence =>
                   w0 <- get;;
                   match AudioSink.audio_data (sink w0) with
                   | [] => ret None
                   | (user, _) :: _ =>
                       match AudioSink.get_audio_data (Some user) (sink w0) with
                       | None => ret None
                       | Some audio_array =>
                           if negb (joined w0) then raise KeyError else
                           let name := member_name user (members room) in
                           modify (fun w => set_sink (AudioSink.cleanup (sink w)) w);;
                           emit EvReset;;
                           emit (EvTurn user name audio_array);;
                           ret (Some (mkTurn audio_array user name))
                       end
                   end
               end)).
    destruct e; [| apply keeps_ret].
    apply keeps_bind_get. intros w0.
    destruct (AudioSink.audio_data (sink w0)) as [|[user b] rest]; [apply keeps_ret |].
    destruct (AudioSink.get_audio_data (Some user) (sink w0)); [| apply keeps_ret].
    destruct (negb (joined w0)); [apply keeps_raise |].
    cbv zeta.
    apply keeps_hand_over.
Qed.

Lemma keeps_listen_and_answer : keeps R P (listen_and_answer env self room).
Proof.
  unfold listen_and_answer.
  apply keeps_bind; [apply keeps_record_audio_from_channel |].
  intros [turn|]; [| apply keeps_sleep].
  apply keeps_turn_stages, P_stage.
Qed.

(** One round of the loop: it announces one wait, never ends by an
    exception, and goes on to the next round unless something comes from
    outside. *)
Definition round_goes_on (w : World) : res bool -> World -> list Event -> Prop :=
  fun r w' es =>
    R w w' /\
    (exists es', es = EvListen :: es' /\ Forall P es') /\
    (forall e, r <> Raise e) /\
    (cancel_in w = None -> r = Ret true /\ cancel_in w' = None).

Lemma loop_round_goes_on w : wp (loop_round env self room) w (round_goes_on w).
Proof.
  unfold loop_round.
  apply wp_try_except, wp_try_cancelled, wp_bind.
  unfold wp at 1. rewrite loop_body_eq. cbn [result final events].
  apply (keeps_wp R P); [apply keeps_listen_and_answer |].
  intros r w1 es1 HR HP HC.
  destruct r as [[]|e| |].
  - apply wp_ret. rewrite app_nil_r.
    split; [exact HR |]. split; [eauto |]. split; [discriminate |].
    intros Hc. split; [reflexivity | apply HC, Hc].
  - apply wp_bind, wp_emit. cbv beta iota. apply wp_bind.
    destruct (keeps_sleep 1000 w1) as (HR2 & HP2 & HC2).
    unfold wp at 1.
    assert (Hes : exists es', (EvListen :: es1) ++ [EvLoopError] ++ events (sleep 1000 w1)
                              = EvListen :: es' /\ Forall P es').
    { eexists. split; [reflexivity |].
      apply Forall_app. split; [exact HP |]. constructor; assumption. }
    assert (HR' : R w (final (sleep 1000 w1))) by (eapply frame_trans; eassumption).
    destruct (sleep_cases 1000 w1) as [(E2 & _) | E2]; rewrite E2 in *.
    + apply wp_ret. rewrite app_nil_r.
      split; [exact HR' |]. split; [exact Hes |]. split; [discriminate |].
      intros Hc. split; [reflexivity |]. apply HC2, HC, Hc.
    + split; [exact HR' |]. split; [exact Hes |]. split; [discriminate |].
      intros Hc. destruct (HC2 (proj1 (HC Hc))) as (_ & H & _). congruence.
  - apply wp_ret. rewrite app_nil_r.
    split; [exact HR |]. split; [eauto |]. split; [discriminate |].
    intros Hc. destruct (HC Hc) as (_ & H & _). congruence.
  - split; [exact HR |]. split; [eauto |]. split; [discriminate |].
    intros Hc. destruct (HC Hc) as (_ & _ & H). congruence.
Qed.

End KeepsLoop.

(** How many waits for audio a run announces. *)
Fixpoint listens (es : list Event) : nat :=
  match es with
  | [] => 0
  | EvListen :: rest => S (listens rest)
  | _ :: rest => listens rest
  end.

Lemma listens_app es1 es2 : listens (es1 ++ es2) = (listens es1 + listens es2)%nat.
Proof.
  induction es1 as [|e es1 IH]; simpl; [reflexivity |].
  destruct e; simpl; rewrite ?IH; reflexivity.
Qed.

Lemma listens_none es : Forall (fun e => e <> EvListen) es -> listens es = 0%nat.
Proof.
  induction 1 as [|e es He _ IH]; simpl; [reflexivity |].
  destruct e; try assumption. congruence.
Qed.

Lemma frame_between_listens : Frame same_room (fun e => e <> EvListen).
Proof. apply frame_same_room; discriminate. Qed.

Lemma loop_round_next env self room w :
  wp (loop_round env self room) w
     (@round_goes_on same_room (fun e => e <> EvListen) w).
Proof.
  apply (@loop_round_goes_on same_room _ frame_between_listens).
  - intros e He. destruct e; discriminate.
  - intros w0 Hc. split; [exact Hc | reflexivity].
  - discriminate.
  - discriminate.
  - discriminate.
Qed.

(** As long as the room is joined and the task is not cancelled, the loop
    is still running after any number of rounds, each of which began
    with a wait for audio. *)
Lemma voice_loop_goes_on env self room rounds : forall w,
  joined w = true -> cancel_in w = None ->
  result (voice_loop env self room rounds w) = OutOfFuel /\
  listens (events (voice_loop env self room rounds w)) = rounds.
Proof.
  induction rounds as [|n IH]; intros w Hj Hc; cbn [voice_loop];
    rewrite bind_get, Hj; [split; reflexivity |].
  destruct (loop_round_next env self room w) as (HR & (es & He & HP) & _ & Hcalm).
  destruct (Hcalm Hc) as [Hr Hc'].
  rewrite (bind_run _ _ _ _ Hr). cbn [result final events].
  destruct (IH (final (loop_round env self room w))) as [IHr IHl];
    [destruct (HR Hc) as [_ HR']; congruence | exact Hc' |].
  split; [exact IHr |].
  rewrite listens_app, IHl, He. cbn [listens]. rewrite (listens_none _ HP). reflexivity.
Qed.

(** ** A reply that cannot be spoken *)

Definition not_played (e : Event) : Prop := forall path, e <> EvPlay path.

Lemma frame_not_played : Frame any_world not_played.
Proof. apply frame_any_world; intros ? ?; discriminate. Qed.

Lemma synthesize_async_none env text w :
  snd (tts env (tick w)) = None ->
  wp (synthesize_async env text) w
     (fun r w' es => (r = Ret None \/ r = Cancelled) /\ Forall not_played es).
Proof.
  intros Hn. unfold synthesize_async. repeat wp_step.
  assert (Hadv : forall d w0, Forall not_played (events (advance d w0)))
    by (intros d w0; apply (@keeps_advance any_world _ frame_not_played d w0)).
  apply wp_pause; [intros d' c kept | intros d' c]; cbv beta iota.
  - rewrite Hn. wp_step. split; [auto |]. cbn [app]. rewrite !app_nil_r.
    constructor; [intros ?; discriminate | apply Hadv].
  - split; [auto |]. cbn [app].
    constructor; [intros ?; discriminate | apply Hadv].
Qed.

Lemma process_voice_message_without_audio env self room user_message w response :
  joined w = true ->
  result (generate_response_async env (llm_client self) user_message true (Some 100) w)
    = Ret response ->
  Py.is_empty response || Py.startswith response "[" = false ->
  snd (tts env (tick (final (generate_response_async env (llm_client self) user_message
                               true (Some 100) w)))) = None ->
  wp (process_voice_message env self room user_message) w
     (fun r w' es => (r = Ret false \/ r = Cancelled) /\ Forall not_played es).
Proof.
  intros Hj Hr Hb Hn. unfold process_voice_message.
  apply wp_bind, wp_get. cbv beta iota. rewrite Hj. cbn [negb].
  apply wp_try_except, wp_bind.
  assert (Hg : Forall not_played
                 (events (generate_response_async env (llm_client self) user_message
                            true (Some 100) w))).
  { apply (@keeps_attempts any_world _ frame_not_played). intros a ?. discriminate. }
  unfold wp at 1. rewrite Hr. rewrite Hb.
  apply wp_bind.
  eapply wp_mono; [apply synthesize_async_none, Hn |].
  intros r w' es [[-> | ->] Hes].
  - wp_step. split; [auto |]. cbn [app]. rewrite app_nil_r.
    apply Forall_app. auto.
  - split; [auto |]. cbn [app]. apply Forall_app. auto.
Qed.

(** C7. When the synthesizer returns no audio path for a reply,
    [process_voice_message] returns [False] (or is cancelled) and nothing is
    played; a round of the session loop never ends by an exception, whatever
    stage of its turn failed, and unless the task is being cancelled (or the
    room's entry deleted: [cancel_in] is what comes from outside) it ends
    with the loop going on, the room still joined; so the loop, as long as
    the room is joined and the task is not cancelled, is still running after
    any number of rounds, each begun by a new wait for audio. *)
Theorem failed_turn_does_not_end_the_loop env self room :
  (forall user_message w response,
     joined w = true ->
     result (generate_response_async env (llm_client self) user_message true (Some 100) w)
       = Ret response ->
     Py.is_empty response || Py.startswith response "[" = false ->
     snd (tts env (tick (final (generate_response_async env (llm_client self) user_message
                                  true (Some 100) w)))) = None ->
     (result (process_voice_message env self room user_message w) = Ret false \/
      result (process_voice_message env self room user_message w) = Cancelled) /\
     (forall path, ~ In (EvPlay path)
                      (events (process_voice_message env self room user_message w))) /\
     (cancel_in w = None ->
      result (process_voice_message env self room user_message w) = Ret false)) /\
  (forall w e, result (loop_round env self room w) <> Raise e) /\
  (forall w, cancel_in w = None ->
     result (loop_round env self room w) = Ret true /\
     cancel_in (final (loop_round env self room w)) = None /\
     joined (final (loop_round env self room w)) = joined w) /\
  (forall rounds w, joined w = true -> cancel_in w = None ->
     result (voice_loop env self room rounds w) = OutOfFuel /\
     listens (events (voice_loop env self room rounds w)) = rounds).
Proof.
  split; [| split; [| split]].
  - intros user_message w response Hj Hr Hb Hn.
    destruct (process_voice_message_without_audio env self room user_message w response
                Hj Hr Hb Hn) as [Hres Hes].
    split; [exact Hres |]. split.
    + intros path Hin. rewrite Forall_forall in Hes.
      apply list_elem_of_In in Hin. exact (Hes _ Hin path eq_refl).
    + intros Hc.
      destruct (@keeps_process_voice_message any_world _
                  (frame_any_world (fun _ => True) (fun _ => I) (fun _ => I))
                  env self room (fun _ _ => I) user_message w) as (_ & _ & Hcalm).
      destruct (Hcalm Hc) as (_ & Hnc & _).
      destruct Hres as [Hres | Hres]; [exact Hres | contradiction].
  - intros w. exact (proj1 (proj2 (proj2 (loop_round_next env self room w)))).
  - intros w Hc.
    destruct (loop_round_next env self room w) as (HR & _ & _ & Hcalm).
    destruct (Hcalm Hc) as [Hr Hc']. destruct (HR Hc) as [_ HR']. auto.
  - intros rounds w. apply voice_loop_goes_on.
Qed.

(** A room where the synthesizer gives nothing: after the first turn the
    loop waits for audio again. *)
Definition mute_synthesizer : Env :=
  mkEnv (fun _ => (300%N, "hello there"%string))
        (fun _ => (200%N, Reply200 (Some "Hi!"%string)))
        (fun _ => (100%N, None))
        (fun _ => (50%N, Succeeds))
        (fun _ => Succeeds)
        (fun _ => PlayStarts 1200 false)
        (fun _ => Succeeds)
        (fun _ => Succeeds).

Definition one_speaker : World :=
  mkWorld 0 [mkPacket 100 7 [1; 0; 2; 0]] None false true true (AudioSink.init 0) None ∅ 0.

Example mute_synthesizer_second_wait :
  let self := mkVoiceHandler 3000 15000 (mkLMStudioClient 100 3 1000) in
  let r := voice_loop mute_synthesizer self (mkRoom [(7, "ann"%string)] false) 2 one_speaker in
  result r = OutOfFuel /\
  filter stage (events r)
  = [EvTranscribe [1; 2]; EvPost 0 100 "hello there"; EvSynthesize "Hi!"] /\
  listens (events r) = 2%nat.
Proof. vm_compute. repeat split; reflexivity. Qed.

Lemma failed_turn_does_not_end_the_loop_witness :
  joined one_speaker = true /\ cancel_in one_speaker = None /\
  result (voice_loop mute_synthesizer
            (mkVoiceHandler 3000 15000 (mkLMStudioClient 100 3 1000))
            (mkRoom [(7, "ann"%string)] false) 2 one_speaker) = OutOfFuel.
Proof.
  assert (Hj : joined one_speaker = true) by reflexivity.
  assert (Hc : cancel_in one_speaker = None) by reflexivity.
  split; [exact Hj | split; [exact Hc |]].
  exact (proj1 (proj2 (proj2 (proj2
           (failed_turn_does_not_end_the_loop mute_synthesizer
              (mkVoiceHandler 3000 15000 (mkLMStudioClient 100 3 1000))
              (mkRoom [(7, "ann"%string)] false))))
           2%nat one_speaker Hj Hc)).
Defined.

(* ===================================================================== *)
(** * The buffers between two turns                                       *)
(* ===================================================================== *)

(** How many times a run clears the buffers, and how many turns it
    extracts. *)
Fixpoint resets (es : list Event) : nat :=
  match es with
  | [] => 0
  | EvReset :: rest => S (resets rest)
  | _ :: rest => resets rest
  end.

Fixpoint turns (es : list Event) : nat :=
  match es with
  | [] => 0
  | EvTurn _ _ _ :: rest => S (turns rest)
  | _ :: rest => turns rest
  end.

Lemma resets_app es1 es2 : resets (es1 ++ es2) = (resets es1 + resets es2)%nat.
Proof.
  induction es1 as [|e es1 IH]; simpl; [reflexivity |].
  destruct e; simpl; rewrite ?IH; reflexivity.
Qed.

Lemma turns_app es1 es2 : turns (es1 ++ es2) = (turns es1 + turns es2)%nat.
Proof.
  induction es1 as [|e es1 IH]; simpl; [reflexivity |].
  destruct e; simpl; rewrite ?IH; reflexivity.
Qed.

(** The events of everything but an extraction. *)
Definition no_extraction (e : Event) : Prop :=
  e <> EvReset /\ forall user name samples, e <> EvTurn user name samples.

Lemma no_extraction_counts es :
  Forall no_extraction es -> resets es = 0%nat /\ turns es = 0%nat.
Proof.
  induction 1 as [|e es [He1 He2] _ [IH1 IH2]]; simpl; [split; reflexivity |].
  destruct e; try (split; assumption).
  - destruct (He2 _ _ _ eq_refl).
  - destruct (He1 eq_refl).
Qed.

(** What a packet carries. *)
Definition payload (p : Packet) : Z * list Z := (pk_user p, pk_pcm p).

(** The buffers after the packets [arrived] have been written to them. *)
Definition buffered (arrived : list (Z * list Z)) (d : list (Z * list Z))
  : list (Z * list Z) :=
  fold_left (fun d p => AudioSink.buffer_write (fst p) (snd p) d) arrived d.

(** From [w] to [w'] the voice client went on as it was, and every packet
    that arrived was written to the buffers when it was listening: none was
    dropped, and nothing was cleared. *)
Definition heard (w w' : World) : Prop :=
  listening w' = listening w /\
  exists arrived,
    map payload (arrivals w) = arrived ++ map payload (arrivals w') /\
    AudioSink.audio_data (sink w')
    = if listening w then buffered arrived (AudioSink.audio_data (sink w))
      else AudioSink.audio_data (sink w).

Lemma deliver_heard pending : forall d t on s,
  exists arrived,
    map payload pending = arrived ++ map payload (fst (deliver d t on pending s)) /\
    AudioSink.audio_data (snd (deliver d t on pending s))
    = if on then buffered arrived (AudioSink.audio_data s) else AudioSink.audio_data s.
Proof.
  induction pending as [|p rest IH]; intros d t on s; cbn [deliver].
  - exists []. split; [reflexivity | destruct on; reflexivity].
  - destruct (Z.of_N (pk_after p) <=? d).
    + destruct (IH (d - Z.of_N (pk_after p)) (t + Z.of_N (pk_after p)) on
                  (if on then AudioSink.write (pk_user p) (pk_pcm p)
                                (t + Z.of_N (pk_after p)) s else s))
        as (arrived & Ha & Hs).
      exists (payload p :: arrived). split.
      * cbn [map app]. rewrite Ha. reflexivity.
      * rewrite Hs. destruct on; reflexivity.
    + exists []. split; [reflexivity | destruct on; reflexivity].
Qed.

Lemma heard_same w w' :
  listening w' = listening w -> arrivals w' = arrivals w -> sink w' = sink w ->
  heard w w'.
Proof.
  intros Hl Ha Hs. split; [exact Hl |]. exists []. rewrite Ha, Hs.
  split; [reflexivity |]. destruct (listening w); reflexivity.
Qed.

Lemma heard_refl w : heard w w.
Proof. apply heard_same; reflexivity. Qed.

Lemma heard_trans a b c : heard a b -> heard b c -> heard a c.
Proof.
  intros (Hl1 & arr1 & Ha1 & Hs1) (Hl2 & arr2 & Ha2 & Hs2).
  split; [congruence |]. exists (arr1 ++ arr2). split.
  - rewrite Ha1, Ha2, app_assoc. reflexivity.
  - rewrite Hs2, Hs1, Hl1. destruct (listening a); [| reflexivity].
    unfold buffered. rewrite fold_left_app. reflexivity.
Qed.

Lemma frame_heard (P : Event -> Prop) :
  (forall ms, P (EvSleep ms)) -> (forall path, P (EvRemove path)) -> Frame heard P.
Proof.
  intros Hs Hr. split; auto using heard_refl.
  - apply heard_trans.
  - intros w n. apply heard_same; reflexivity.
  - intros w c0 c kept _. apply heard_same; reflexivity.
  - intros w p. apply heard_same; reflexivity.
  - intros w f. apply heard_same; reflexivity.
  - intros w d. split; [reflexivity |]. cbn [arrivals sink set_clock].
    apply deliver_heard.
Qed.

Lemma frame_no_extraction R :
  (forall P, (forall ms, P (EvSleep ms)) -> (forall path, P (EvRemove path)) -> Frame R P) ->
  Frame R no_extraction.
Proof. intros H. apply H; intros ?; split; intros; discriminate. Qed.

Lemma stage_no_extraction e : stage e = true -> no_extraction e.
Proof. destruct e; try discriminate; intros _; split; intros; discriminate. Qed.

(** The stages of a turn clear nothing and lose no packet. *)
Lemma turn_stages_heard env self room turn w :
  heard w (final (turn_stages env self room turn w)) /\
  Forall no_extraction (events (turn_stages env self room turn w)).
Proof.
  destruct (@keeps_turn_stages heard _ (frame_no_extraction heard frame_heard)
              env self room stage_no_extraction turn w) as (HR & HP & _).
  auto.
Qed.

(** An extraction clears the buffers once, when it hands a turn over. *)
Definition cleared_once (r : Reply (option Turn)) : Prop :=
  match result r with
  | Ret (Some turn) =>
      resets (events r) = 1%nat /\ turns (events r) = 1%nat /\
      AudioSink.audio_data (sink (final r)) = [] /\
      exists es, events r = es ++ [EvReset; EvTurn (user_id turn) (username turn) (audio turn)]
  | _ => resets (events r) = 0%nat /\ turns (events r) = 0%nat
  end.

Lemma handed_over_cleared_once room r0 r :
  handed_over room r0 r ->
  resets (events r0) = 0%nat -> turns (events r0) = 0%nat ->
  cleared_once r.
Proof.
  unfold handed_over, cleared_once. destruct r0 as [res w1 es].
  cbn [result final events]. intros H Hr Ht.
  destruct res as [[|]|e| |]; try (rewrite H; cbn [result events]; auto).
  destruct (AudioSink.audio_data (sink w1)) as [|[user b] rest];
    [rewrite H; cbn [result events]; auto |].
  destruct (AudioSink.get_audio_data (Some user) (sink w1)) as [samples|];
    [| rewrite H; cbn [result events]; auto].
  destruct (joined w1); [| rewrite H; cbn [result events]; auto].
  rewrite H. cbn [result events final].
  rewrite resets_app, turns_app, Hr, Ht.
  split; [reflexivity | split; [reflexivity | split; [reflexivity |]]].
  exists es. reflexivity.
Qed.

Lemma record_audio_from_channel_not_joined room duration w :
  joined w = false ->
  record_audio_from_channel room duration w = mkReply (Ret None) w [].
Proof.
  intros Hj. unfold record_audio_from_channel. rewrite bind_get, Hj. reflexivity.
Qed.

Lemma record_audio_from_channel_resets room duration w :
  cleared_once (record_audio_from_channel room duration w).
Proof.
  assert (Hj : joined w = true \/ joined w = false) by (destruct (joined w); auto).
  destruct Hj as [Hj | Hj].
  2:{ rewrite (record_audio_from_channel_not_joined _ _ _ Hj). split; reflexivity. }
  pose proof (@keeps_wait_for_silence any_world _
                (frame_no_extraction any_world frame_any_world)
                wait_rounds duration (now w) (AudioSink.last_packet_time (sink w)) w 0%nat)
    as (_ & HP & _); [lia | unfold wait_rounds; lia | lia |].
  apply no_extraction_counts in HP as [Hr Ht].
  exact (handed_over_cleared_once room _ _
           (record_audio_from_channel_cases room duration w Hj) Hr Ht).
Qed.

Lemma cleared_once_balanced r : cleared_once r -> resets (events r) = turns (events r).
Proof.
  unfold cleared_once.
  destruct (result r) as [[turn|]|e| |]; intros H; try (destruct H; congruence).
  destruct H as (Hr & Ht & _). congruence.
Qed.

(** A run that clears the buffers as many times as it extracts a turn. *)
Definition balanced {A} (m : M A) : Prop :=
  forall w, resets (events (m w)) = turns (events (m w)).

(** A run that does neither. *)
Definition quiet {A} (m : M A) : Prop :=
  forall w, Forall no_extraction (events (m w)).

Lemma balanced_quiet {A} (m : M A) : quiet m -> balanced m.
Proof. intros H w. destruct (no_extraction_counts _ (H w)). congruence. Qed.

Lemma quiet_keeps {A} R (m : M A) : keeps R no_extraction m -> quiet m.
Proof. intros H w. apply H. Qed.

Lemma balanced_bind {A B} (m : M A) (k : A -> M B) :
  balanced m -> (forall a, balanced (k a)) -> balanced (bind m k).
Proof.
  intros Hm Hk w. unfold bind. specialize (Hm w).
  destruct (result (m w)) as [a| | |]; cbn [events]; try assumption.
  rewrite resets_app, turns_app, Hm, (Hk a). reflexivity.
Qed.

Lemma balanced_bind_get {B} (k : World -> M B) :
  (forall w, balanced (k w)) -> balanced (bind get k).
Proof. intros Hk w. rewrite bind_get. apply Hk. Qed.

Lemma balanced_try_except {A} (m : M A) h :
  balanced m -> (forall e, balanced (h e)) -> balanced (try_except m h).
Proof.
  intros Hm Hh w. unfold try_except. cbv zeta. specialize (Hm w).
  destruct (result (m w)) as [a|e| |]; cbn [events]; try assumption.
  rewrite resets_app, turns_app, Hm, (Hh e). reflexivity.
Qed.

Lemma balanced_try_cancelled {A} (m h : M A) :
  balanced m -> balanced h -> balanced (try_cancelled m h).
Proof.
  intros Hm Hh w. unfold try_cancelled. cbv zeta. specialize (Hm w).
  destruct (result (m w)) as [a|e| |]; cbn [events]; try assumption.
  rewrite resets_app, turns_app, Hm, (Hh _). reflexivity.
Qed.

Lemma balanced_ret {A} (a : A) : balanced (ret a).
Proof. intros w. reflexivity. Qed.

Section Balanced.
Variable env : Env.
Variable self : VoiceHandler.
Variable room : Room.

Lemma balanced_sleep ms : balanced (sleep ms).
Proof.
  apply balanced_quiet, (quiet_keeps any_world).
  apply (@keeps_sleep any_world _ (frame_no_extraction any_world frame_any_world)).
Qed.

Lemma balanced_turn_stages turn : balanced (turn_stages env self room turn).
Proof.
  apply balanced_quiet, (quiet_keeps any_world).
  apply (@keeps_turn_stages any_world _ (frame_no_extraction any_world frame_any_world)).
  apply stage_no_extraction.
Qed.

Lemma balanced_loop_round : balanced (loop_round env self room).
Proof.
  unfold loop_round.
  apply balanced_try_except.
  - apply balanced_try_cancelled; [| apply balanced_ret].
    apply balanced_bind; [| intros; apply balanced_ret].
    unfold loop_body.
    apply balanced_bind; [intros w; reflexivity |]. intros _.
    apply balanced_bind.
    + intros w. apply cleared_once_balanced, record_audio_from_channel_resets.
    + intros [turn|]; [apply balanced_turn_stages | apply balanced_sleep].
  - intros e.
    apply balanced_bind; [intros w; reflexivity |]. intros _.
    apply balanced_bind; [apply balanced_sleep |]. intros; apply balanced_ret.
Qed.

Lemma balanced_voice_loop rounds : balanced (voice_loop env self room rounds).
Proof.
  induction rounds as [|n IH]; cbn [voice_loop]; apply balanced_bind_get; intros w.
  - destruct (joined w); intros w'; reflexivity.
  - destruct (joined w); [| apply balanced_ret].
    apply balanced_bind; [apply balanced_loop_round |].
    intros [|]; [apply IH | apply balanced_ret].
Qed.

End Balanced.

Lemma buffer_get_write_same u pcm d :
  AudioSink.buffer_get u (AudioSink.buffer_write u pcm d)
  = Some (default [] (AudioSink.buffer_get u d) ++ pcm).
Proof.
  induction d as [|[k b] rest IH]; cbn [AudioSink.buffer_write AudioSink.buffer_get].
  - rewrite Z.eqb_refl. reflexivity.
  - destruct (k =? u) eqn:E; cbn [AudioSink.buffer_get]; rewrite E; [reflexivity | exact IH].
Qed.

Lemma buffer_get_write_other u v pcm d :
  v <> u ->
  AudioSink.buffer_get v (AudioSink.buffer_write u pcm d) = AudioSink.buffer_get v d.
Proof.
  intros Hne.
  induction d as [|[k b] rest IH]; cbn [AudioSink.buffer_write AudioSink.buffer_get].
  - destruct (Z.eqb_spec u v); [congruence | reflexivity].
  - destruct (Z.eqb_spec k u) as [-> | Hk]; cbn [AudioSink.buffer_get].
    + destruct (Z.eqb_spec u v); [congruence | reflexivity].
    + rewrite IH. reflexivity.
Qed.

(** What [user] said in the packets [arrived]: the bytes of the packets
    of that speaker, in the order of arrival. *)
Fixpoint said (user : Z) (arrived : list (Z * list Z)) : list Z :=
  match arrived with
  | [] => []
  | (u, pcm) :: rest => if u =? user then pcm ++ said user rest else said user rest
  end.

Lemma said_app user l1 l2 : said user (l1 ++ l2) = said user l1 ++ said user l2.
Proof.
  induction l1 as [|[u pcm] l1 IH]; cbn [said app]; [reflexivity |].
  destruct (u =? user); rewrite IH, ?app_assoc; reflexivity.
Qed.

(** A buffer holds what it held and what its speaker has said since. *)
Lemma buffered_get arrived : forall d user b,
  AudioSink.buffer_get user (buffered arrived d) = Some b ->
  b = default [] (AudioSink.buffer_get user d) ++ said user arrived.
Proof.
  induction arrived as [|[u pcm] arrived IH]; intros d user b; cbn [buffered fold_left said].
  - intros ->. cbn [default]. rewrite app_nil_r. reflexivity.
  - cbn [fst snd]. intros H. apply IH in H.
    destruct (Z.eqb_spec u user) as [-> | Hne].
    + rewrite buffer_get_write_same in H. cbn [default] in H.
      rewrite H, app_assoc. reflexivity.
    + rewrite buffer_get_write_other in H by congruence. exact H.
Qed.

Lemma buffered_app l1 l2 d : buffered (l1 ++ l2) d = buffered l2 (buffered l1 d).
Proof. unfold buffered. apply fold_left_app. Qed.

(** The utterance [record_audio_from_channel] hands over is the decoded
    buffer of the speaker at the head of the buffers; all the buffers are
    cleared by it. *)
Lemma handed_over_utterance room r0 r next :
  handed_over room r0 r ->
  result r = Ret (Some next) ->
  exists b rest,
    AudioSink.audio_data (sink (final r0)) = (user_id next, b) :: rest /\
    AudioSink.frombuffer_int16 b = Some (audio next) /\
    AudioSink.audio_data (sink (final r)) = [] /\
    arrivals (final r) = arrivals (final r0).
Proof.
  unfold handed_over. destruct r0 as [res w1 es]. cbn [result final events].
  intros H Hr.
  destruct res as [[|]|e| |]; try (rewrite H in Hr; discriminate).
  destruct (AudioSink.audio_data (sink w1)) as [|[user b] rest] eqn:Ea;
    [rewrite H in Hr; discriminate |].
  destruct (AudioSink.get_audio_data (Some user) (sink w1)) as [samples|] eqn:Eg;
    [| rewrite H in Hr; discriminate].
  destruct (joined w1); [| rewrite H in Hr; discriminate].
  rewrite H in Hr. cbn [result] in Hr. injection Hr as <-.
  rewrite H. cbn [final sink set_sink arrivals AudioSink.cleanup AudioSink.audio_data
                  audio user_id].
  exists b, rest. split; [reflexivity |]. split; [| split; reflexivity].
  unfold AudioSink.get_audio_data in Eg. rewrite Ea in Eg.
  cbn [AudioSink.buffer_get] in Eg. rewrite Z.eqb_refl in Eg.
  destruct (user =? 0); destruct b; first [discriminate | exact Eg].
Qed.

(** The packets that arrive during a wait are written to the buffers. *)
Lemma wait_for_silence_heard duration w :
  heard w (final (wait_for_silence wait_rounds duration (now w)
                    (AudioSink.last_packet_time (sink w)) w)).
Proof.
  apply (@keeps_wait_for_silence heard (fun _ => True)
           (frame_heard _ (fun _ => I) (fun _ => I))
           wait_rounds duration (now w) (AudioSink.last_packet_time (sink w)) w 0%nat);
    [lia | unfold wait_rounds; lia | lia].
Qed.

(** From one extraction to the next: the buffers, empty when the stages of
    a turn begin, hold at the end of the stages the packets that arrived
    during them, and the next utterance is what its speaker said in the
    packets that arrived since the stages began. *)
Lemma next_utterance env self room turn w duration next :
  listening w = true -> AudioSink.audio_data (sink w) = [] ->
  joined (final (turn_stages env self room turn w)) = true ->
  result (record_audio_from_channel room duration
            (final (turn_stages env self room turn w))) = Ret (Some next) ->
  exists during after,
    map payload (arrivals w)
    = during ++ after
      ++ map payload (arrivals (final (record_audio_from_channel room duration
                                         (final (turn_stages env self room turn w))))) /\
    AudioSink.audio_data (sink (final (turn_stages env self room turn w)))
    = buffered during [] /\
    AudioSink.frombuffer_int16 (said (user_id next) (during ++ after)) = Some (audio next) /\
    AudioSink.audio_data
      (sink (final (record_audio_from_channel room duration
                      (final (turn_stages env self room turn w))))) = [].
Proof.
  intros Hl He Hj Hr.
  destruct (turn_stages_heard env self room turn w) as [(Hl1 & during & Ha1 & Hs1) _].
  set (w1 := final (turn_stages env self room turn w)) in *.
  destruct (wait_for_silence_heard duration w1) as (Hl2 & after & Ha2 & Hs2).
  destruct (handed_over_utterance room _ _ next
              (record_audio_from_channel_cases room duration w1 Hj) Hr)
    as (b & rest & Hhead & Hdec & Hclear & Harr).
  rewrite Hl, He in Hs1. rewrite Hl1, Hl, Hs1, <- buffered_app in Hs2.
  exists during, after. split; [| split; [exact Hs1 | split; [| exact Hclear]]].
  - rewrite Harr, Ha1, Ha2. reflexivity.
  - rewrite Hs2 in Hhead.
    assert (Hb : AudioSink.buffer_get (user_id next) (buffered (during ++ after) [])
                 = Some b).
    { rewrite Hhead. cbn [AudioSink.buffer_get]. rewrite Z.eqb_refl. reflexivity. }
    apply buffered_get in Hb. cbn [AudioSink.buffer_get default app] in Hb.
    rewrite <- Hb. exact Hdec.
Qed.

(** Corrected C8. The buffers are cleared exactly once for every turn that
    is extracted, at the extraction itself: [record_audio_from_channel]
    clears them when it hands a turn over, leaving them empty, and not
    otherwise. The stages of the turn that follow, from recognition to the
    wait for playback, clear nothing, and the voice client goes on listening
    through them: every packet that arrives meanwhile is written to the
    buffers and is there when the next wait begins. Over any number of rounds
    of the loop there are as many clearings as turns. The utterance of the
    next turn is what its speaker said in the packets that arrived since the
    stages began, those that arrived during the stages included; what the
    other speakers said in that time is cleared with it and is in no
    utterance. *)
Theorem buffers_are_cleared_at_extraction env self room :
  (forall duration w, cleared_once (record_audio_from_channel room duration w)) /\
  (forall turn w,
     heard w (final (turn_stages env self room turn w)) /\
     resets (events (turn_stages env self room turn w)) = 0%nat) /\
  (forall rounds w,
     resets (events (voice_loop env self room rounds w))
     = turns (events (voice_loop env self room rounds w))) /\
  (forall turn w duration next,
     listening w = true -> AudioSink.audio_data (sink w) = [] ->
     joined (final (turn_stages env self room turn w)) = true ->
     result (record_audio_from_channel room duration
               (final (turn_stages env self room turn w))) = Ret (Some next) ->
     exists during after,
       map payload (arrivals w)
       = during ++ after
         ++ map payload (arrivals (final (record_audio_from_channel room duration
                                            (final (turn_stages env self room turn w))))) /\
       AudioSink.audio_data (sink (final (turn_stages env self room turn w)))
       = buffered during [] /\
       AudioSink.frombuffer_int16 (said (user_id next) (during ++ after))
       = Some (audio next) /\
       AudioSink.audio_data
         (sink (final (record_audio_from_channel room duration
                         (final (turn_stages env self room turn w))))) = []).
Proof.
  split; [| split; [| split]].
  - intros duration w. apply record_audio_from_channel_resets.
  - intros turn w. destruct (turn_stages_heard env self room turn w) as [Hh Hq].
    split; [exact Hh | apply no_extraction_counts, Hq].
  - intros rounds w. apply balanced_voice_loop.
  - intros turn w duration next. apply next_utterance.
Qed.

(** A room where ann says something, says more while the reply to it is
    being played, and goes on after that. *)
Definition two_utterances : World :=
  mkWorld 0 [mkPacket 100 7 [1; 0; 2; 0]; mkPacket 3500 7 [3; 0; 4; 0];
             mkPacket 1400 7 [5; 0]]
          None false true true (AudioSink.init 0) None ∅ 0.

Definition extraction (e : Event) : bool :=
  match e with
  | EvReset | EvTurn _ _ _ => true
  | _ => false
  end.

(** C8 as stated fails: the packet that arrives at 3.6 s, while the reply
    to the first turn is being played (from 3.1 s to 4.3 s), is in the
    buffers when the playback is over, and is the beginning of the second
    turn's utterance. *)
Lemma packet_during_playback_is_kept :
  let env := obliging "hello there" "Hi!" "reply.wav" 1200 in
  let self := mkVoiceHandler 3000 15000 (mkLMStudioClient 100 3 1000) in
  let room := mkRoom [(7, "ann"%string)] false in
  let r0 := record_audio_from_channel room default_duration two_utterances in
  let s := turn_stages env self room (mkTurn [1; 2] 7 "ann") (final r0) in
  let r := voice_loop env self room 2 two_utterances in
  result r0 = Ret (Some (mkTurn [1; 2] 7 "ann")) /\
  now (final r0) = 3100 /\
  AudioSink.audio_data (sink (final r0)) = [] /\
  filter stage (events s)
  = [EvTranscribe [1; 2]; EvPost 0 100 "hello there"; EvSynthesize "Hi!";
     EvPlay "reply.wav"; EvPlayed 12] /\
  now (final s) = 4300 /\
  sink (final s) = AudioSink.mk [(7, [3; 0; 4; 0])] 3600 /\
  filter extraction (events r)
  = [EvReset; EvTurn 7 "ann" [1; 2]; EvReset; EvTurn 7 "ann" [3; 4; 5]].
Proof. vm_compute. repeat split; reflexivity. Qed.

(** The same room, where bob too says something after ann's second word,
    while she is still the first in the buffers: ann's words make the second
    utterance, and what bob said is cleared with them and is in no
    utterance. *)
Example other_speaker_is_cleared :
  let env := obliging "hello there" "Hi!" "reply.wav" 1200 in
  let self := mkVoiceHandler 3000 15000 (mkLMStudioClient 100 3 1000) in
  let room := mkRoom [(7, "ann"%string); (8, "bob"%string)] false in
  let w := mkWorld 0 [mkPacket 100 7 [1; 0; 2; 0]; mkPacket 3500 7 [3; 0];
                      mkPacket 200 8 [9; 0; 9; 0]]
                   None false true true (AudioSink.init 0) None ∅ 0 in
  let r := voice_loop env self room 3 w in
  filter extraction (events r)
  = [EvReset; EvTurn 7 "ann" [1; 2]; EvReset; EvTurn 7 "ann" [3]] /\
  arrivals (final r) = [] /\
  AudioSink.audio_data (sink (final r)) = [].
Proof. vm_compute. repeat split; reflexivity. Qed.

(* ===================================================================== *)
(** * One pipeline at a time                                              *)
(* ===================================================================== *)

(** Where a session is: not yet waiting, in a wait for audio, or in the
    pipeline of the turn that the wait gave. *)
Inductive phase := Idle | Listening | Running.

(** What may happen in a phase. A turn is extracted only in a wait for
    audio; the stages of its pipeline happen only after it and before the
    next wait is announced. *)
Definition phase_step (p : phase) (e : Event) : option phase :=
  match e with
  | EvListen => Some Listening
  | EvReset => match p with Listening => Some Listening | _ => None end
  | EvTurn _ _ _ => match p with Listening => Some Running | _ => None end
  | EvTranscribe _ | EvSend _ | EvPost _ _ _ | EvSynthesize _ | EvPlay _ | EvPlayed _ =>
      match p with Running => Some Running | _ => None end
  | EvSleep _ | EvRemove _ | EvLoopError | EvStopListening => Some p
  end.

Fixpoint serial (p : phase) (es : list Event) : option phase :=
  match es with
  | [] => Some p
  | e :: rest =>
      match phase_step p e with
      | Some p' => serial p' rest
      | None => None
      end
  end.

Lemma serial_app p es1 es2 :
  serial p (es1 ++ es2)
  = match serial p es1 with Some p' => serial p' es2 | None => None end.
Proof.
  revert p. induction es1 as [|e es1 IH]; intros p; cbn [serial app]; [reflexivity |].
  destruct (phase_step p e); [apply IH | reflexivity].
Qed.

Lemma serial_stays p es :
  Forall (fun e => phase_step p e = Some p) es -> serial p es = Some p.
Proof. induction 1 as [|e es He _ IH]; cbn [serial]; [reflexivity |]. rewrite He. exact IH. Qed.

(** What happens in any phase and leaves it as it is. *)
Definition idle (e : Event) : Prop := forall p, phase_step p e = Some p.

Lemma serial_idle p es : Forall idle es -> serial p es = Some p.
Proof.
  intros H. apply serial_stays. eapply Forall_impl; [exact H |].
  intros e He. apply He.
Qed.

(** [m], begun in a phase that satisfies [pre], keeps to the phases, and
    when it returns [a] it ends in a phase that satisfies [post a]. *)
Definition follows {A} (m : M A) (pre : phase -> Prop) (post : A -> phase -> Prop) : Prop :=
  forall w p, pre p ->
    exists p', serial p (events (m w)) = Some p' /\
               forall a, result (m w) = Ret a -> post a p'.

Lemma follows_bind {A B} (m : M A) (k : A -> M B) pre mid post :
  follows m pre mid -> (forall a, follows (k a) (mid a) post) ->
  follows (bind m k) pre post.
Proof.
  intros Hm Hk w p Hp. destruct (Hm w p Hp) as (p1 & Hs1 & Hmid).
  unfold bind. destruct (result (m w)) as [a| | |] eqn:E; cbn [result events];
    try (exists p1; split; [exact Hs1 | discriminate]).
  destruct (Hk a (final (m w)) p1 (Hmid a eq_refl)) as (p2 & Hs2 & Hpost).
  exists p2. rewrite serial_app, Hs1. auto.
Qed.

Lemma follows_bind_get {B} (k : World -> M B) pre post :
  (forall w, follows (k w) pre post) -> follows (bind get k) pre post.
Proof. intros Hk w p Hp. rewrite bind_get. apply Hk, Hp. Qed.

Lemma follows_weaken {A} (m : M A) (pre pre' : phase -> Prop) (post post' : A -> phase -> Prop) :
  follows m pre post -> (forall p, pre' p -> pre p) ->
  (forall a p, post a p -> post' a p) -> follows m pre' post'.
Proof.
  intros Hm Hpre Hpost w p Hp. destruct (Hm w p (Hpre p Hp)) as (p' & Hs & H).
  exists p'. split; [exact Hs |]. intros a Ha. apply Hpost, H, Ha.
Qed.

Lemma follows_try_except {A} (m : M A) h pre post :
  follows m pre post -> (forall e, follows (h e) (fun _ => True) post) ->
  follows (try_except m h) pre post.
Proof.
  intros Hm Hh w p Hp. destruct (Hm w p Hp) as (p1 & Hs1 & Hpost).
  unfold try_except. cbv zeta.
  destruct (result (m w)) as [a|e| |] eqn:E; rewrite ?E; cbn [result events];
    try (exists p1; split; [exact Hs1 | rewrite ?E; first [exact Hpost | discriminate]]).
  destruct (Hh e (final (m w)) p1 I) as (p2 & Hs2 & Hpost2).
  exists p2. rewrite serial_app, Hs1. auto.
Qed.

Lemma follows_try_cancelled {A} (m h : M A) pre post :
  follows m pre post -> follows h (fun _ => True) post ->
  follows (try_cancelled m h) pre post.
Proof.
  intros Hm Hh w p Hp. destruct (Hm w p Hp) as (p1 & Hs1 & Hpost).
  unfold try_cancelled. cbv zeta.
  destruct (result (m w)) as [a|e| |] eqn:E; rewrite ?E; cbn [result events];
    try (exists p1; split; [exact Hs1 | rewrite ?E; first [exact Hpost | discriminate]]).
  destruct (Hh (final (m w)) p1 I) as (p2 & Hs2 & Hpost2).
  exists p2. rewrite serial_app, Hs1. auto.
Qed.

Lemma follows_ret {A} (a : A) (post : A -> phase -> Prop) :
  follows (ret a) (post a) post.
Proof. intros w p Hp. exists p. split; [reflexivity |]. intros a' [= <-]. exact Hp. Qed.

(** A run of idle events can be made in any phase. *)
Lemma follows_idle {A} (m : M A) (pre : phase -> Prop) :
  (forall w, Forall idle (events (m w))) -> follows m pre (fun _ => pre).
Proof.
  intros H w p Hp. exists p. split; [apply serial_idle, H | auto].
Qed.

Lemma frame_idle R :
  (forall P, (forall ms, P (EvSleep ms)) -> (forall path, P (EvRemove path)) -> Frame R P) ->
  Frame R idle.
Proof. intros H. apply H; intros ? ?; reflexivity. Qed.

(** The events of a pipeline. *)
Definition in_turn (e : Event) : Prop := phase_step Running e = Some Running.

Lemma frame_in_turn : Frame any_world in_turn.
Proof. apply frame_any_world; intros ?; reflexivity. Qed.

Lemma stage_in_turn e : stage e = true -> in_turn e.
Proof. destruct e; try discriminate; reflexivity. Qed.

(** An extraction keeps to the wait it ends: the turn it hands over opens
    the pipeline. *)
Definition extracted (a : option Turn) (p : phase) : Prop :=
  match a with
  | Some _ => p = Running
  | None => p = Listening
  end.

Lemma handed_over_extracted room r0 r :
  handed_over room r0 r -> Forall idle (events r0) ->
  exists p', serial Listening (events r) = Some p' /\
             forall a, result r = Ret a -> extracted a p'.
Proof.
  unfold handed_over. destruct r0 as [res w1 es]. cbn [result final events].
  intros H Hes. pose proof (serial_idle Listening es Hes) as Hs.
  assert (Hnone : r = mkReply (Ret None) w1 es ->
            exists p', serial Listening (events r) = Some p' /\
                       forall a, result r = Ret a -> extracted a p').
  { intros ->. exists Listening. split; [exact Hs |]. intros a [= <-]. reflexivity. }
  assert (Hstop : forall res', (forall a, res' <> Ret a) -> r = mkReply res' w1 es ->
            exists p', serial Listening (events r) = Some p' /\
                       forall a, result r = Ret a -> extracted a p').
  { intros res' Hn ->. exists Listening. split; [exact Hs |].
    intros a Ha. destruct (Hn a Ha). }
  destruct res as [[|]|e| |].
  - destruct (AudioSink.audio_data (sink w1)) as [|[user b] rest]; [auto |].
    destruct (AudioSink.get_audio_data (Some user) (sink w1)) as [samples|]; [| auto].
    destruct (joined w1); [| auto].
    rewrite H. cbn [result events]. exists Running. split.
    + rewrite serial_app, Hs. reflexivity.
    + intros a [= <-]. reflexivity.
  - auto.
  - auto.
  - apply (Hstop Cancelled); [discriminate | exact H].
  - apply (Hstop OutOfFuel); [discriminate | exact H].
Qed.

Section Serial.
Variable env : Env.
Variable self : VoiceHandler.
Variable room : Room.

Lemma follows_record_audio_from_channel duration :
  follows (record_audio_from_channel room duration) (fun p => p = Listening) extracted.
Proof.
  intros w p ->.
  assert (Hj : joined w = true \/ joined w = false) by (destruct (joined w); auto).
  destruct Hj as [Hj | Hj].
  2:{ rewrite (record_audio_from_channel_not_joined _ _ _ Hj).
      exists Listening. split; [reflexivity |]. intros a [= <-]. reflexivity. }
  apply (handed_over_extracted room _ _ (record_audio_from_channel_cases room duration w Hj)).
  apply (@keeps_wait_for_silence any_world _ (frame_idle any_world frame_any_world)
           wait_rounds duration (now w) (AudioSink.last_packet_time (sink w)) w 0%nat);
    [lia | unfold wait_rounds; lia | lia].
Qed.

Lemma follows_sleep ms (pre : phase -> Prop) : follows (sleep ms) pre (fun _ => pre).
Proof.
  apply follows_idle. intros w.
  apply (@keeps_sleep any_world _ (frame_idle any_world frame_any_world)).
Qed.

Lemma follows_turn_stages turn :
  follows (turn_stages env self room turn) (fun p => p = Running) (fun _ _ => True).
Proof.
  intros w p ->. exists Running. split; [| auto].
  apply serial_stays.
  apply (@keeps_turn_stages any_world _ frame_in_turn env self room stage_in_turn turn w).
Qed.

Lemma follows_loop_round :
  follows (loop_round env self room) (fun _ => True) (fun _ _ => True).
Proof.
  unfold loop_round. apply follows_try_except.
  - apply follows_try_cancelled; [| apply (follows_ret false (fun _ _ => True))].
    eapply follows_bind; [| intros a; apply (follows_ret true (fun _ _ => True))].
    unfold loop_body.
    apply (follows_bind _ _ _ (fun _ p => p = Listening)).
    { intros w p _. exists Listening. split; [reflexivity | reflexivity]. }
    intros _. apply (follows_bind _ _ _ extracted).
    { apply follows_record_audio_from_channel. }
    intros [turn|]; unfold extracted.
    + apply follows_turn_stages.
    + eapply follows_weaken; [apply (follows_sleep 500 (fun _ => True)) | |]; intros; exact I.
  - intros e.
    apply (follows_bind _ _ _ (fun _ _ => True)).
    { apply (follows_idle (emit EvLoopError) (fun _ => True)).
      intros w. repeat constructor. }
    intros _. apply (follows_bind _ _ _ (fun _ _ => True)).
    { apply (follows_sleep 1000 (fun _ => True)). }
    intros _. apply (follows_ret true (fun _ _ => True)).
Qed.

Lemma follows_voice_loop rounds :
  follows (voice_loop env self room rounds) (fun _ => True) (fun _ _ => True).
Proof.
  induction rounds as [|n IH]; cbn [voice_loop]; apply follows_bind_get; intros w.
  - destruct (joined w); intros w' p _; exists p; split; auto; reflexivity.
  - destruct (joined w); [| apply (follows_ret tt (fun _ _ => True))].
    apply (follows_bind _ _ _ (fun _ _ => True)); [apply follows_loop_round |].
    intros [|]; [apply IH | apply (follows_ret tt (fun _ _ => True))].
Qed.

End Serial.

Lemma follows_try_finally {A} (m : M A) f pre :
  follows m pre (fun _ _ => True) -> follows f (fun _ => True) (fun _ _ => True) ->
  follows (try_finally m f) pre (fun _ _ => True).
Proof.
  intros Hm Hf w p Hp. destruct (Hm w p Hp) as (p1 & Hs1 & _).
  destruct (Hf (final (m w)) p1 I) as (p2 & Hs2 & _).
  unfold try_finally. cbv zeta.
  destruct (result (m w)) as [a|e| |]; cbn [result events];
    first [ exists p2; rewrite serial_app, Hs1; split; [exact Hs2 | trivial]
          | exists p1; split; [exact Hs1 | trivial] ].
Qed.

Lemma follows_full_voice_loop env self room rounds :
  follows (full_voice_loop env self room rounds) (fun _ => True) (fun _ _ => True).
Proof.
  assert (Hstill : forall {A} (m : M A), (forall w, events (m w) = []) ->
            follows m (fun _ => True) (fun _ _ => True)).
  { intros A m Hm w' p _. exists p. rewrite Hm. split; [reflexivity | trivial]. }
  unfold full_voice_loop. apply follows_bind_get. intros w.
  destruct (negb (joined w)); [apply Hstill; reflexivity |].
  apply (follows_bind _ _ _ (fun _ _ => True)); [apply Hstill; reflexivity |].
  intros k. destruct (listen env k); [| apply Hstill; reflexivity].
  apply (follows_bind _ _ _ (fun _ _ => True)); [apply Hstill; reflexivity |].
  intros _. apply follows_try_finally.
  - apply follows_try_except; [apply follows_voice_loop |].
    intros e. apply (follows_ret tt (fun _ _ => True)).
  - unfold stop_and_cleanup.
    apply (follows_bind _ _ _ (fun _ _ => True)); [apply Hstill; reflexivity |].
    intros k'.
    apply (follows_bind _ _ _ (fun _ _ => True)).
    + intros w' p _. exists p. split; [reflexivity | trivial].
    + intros _. destruct (stop_listening env k'); apply Hstill; reflexivity.
Qed.

Lemma try_cancelled_pass {A} (m h : M A) w :
  result (m w) <> Cancelled -> try_cancelled m h w = m w.
Proof.
  intros Hn. unfold try_cancelled. destruct (result (m w)) eqn:E; try reflexivity.
  destruct (Hn eq_refl).
Qed.

(** A round in which a turn is extracted ends where the run of that turn's
    stages ends, with all that the run did before it: the next round, and
    so the next wait for audio, begins there. *)
Lemma loop_round_runs_the_turn env self room w turn :
  result (record_audio_from_channel room default_duration w) = Ret (Some turn) ->
  result (turn_stages env self room turn
            (final (record_audio_from_channel room default_duration w))) = Ret tt ->
  loop_round env self room w
  = mkReply (Ret true)
      (final (turn_stages env self room turn
                (final (record_audio_from_channel room default_duration w))))
      (EvListen :: events (record_audio_from_channel room default_duration w)
                ++ events (turn_stages env self room turn
                             (final (record_audio_from_channel room default_duration w)))).
Proof.
  intros Hrec Hs.
  assert (Hla : listen_and_answer env self room w
                = mkReply (Ret tt)
                    (final (turn_stages env self room turn
                              (final (record_audio_from_channel room default_duration w))))
                    (events (record_audio_from_channel room default_duration w)
                     ++ events (turn_stages env self room turn
                                  (final (record_audio_from_channel room default_duration w))))).
  { unfold listen_and_answer. rewrite (bind_run _ _ _ _ Hrec). rewrite Hs. reflexivity. }
  assert (Hb : loop_body env self room w
               = mkReply (Ret tt)
                   (final (turn_stages env self room turn
                             (final (record_audio_from_channel room default_duration w))))
                   (EvListen :: events (record_audio_from_channel room default_duration w)
                      ++ events (turn_stages env self room turn
                                   (final (record_audio_from_channel room default_duration w))))).
  { rewrite loop_body_eq, Hla. reflexivity. }
  unfold loop_round.
  rewrite try_except_pass; rewrite try_cancelled_pass;
    rewrite (bind_run _ _ _ tt) by (rewrite Hb; reflexivity);
    rewrite Hb; cbn [result final events ret]; rewrite ?app_nil_r;
    first [reflexivity | discriminate].
Qed.

(** C1. In every state the handlers can bring about, a room has at most one
    voice loop task alive, and [process_voice_message] runs nowhere else;
    within the loop, in any number of rounds from any state, a turn is
    extracted only during a wait for audio, and the stages of its pipeline,
    from recognition to the end of the wait for playback, all come after its
    extraction and before the next wait is announced; and a round in which a
    turn is extracted ends where the run of that turn's stages ends, so that
    the next wait begins only when that run is over. *)
Theorem one_pipeline_at_a_time env self room :
  (forall b t1 t2 guild_id,
     reachable b ->
     tasks b !! t1 = Some guild_id -> tasks b !! t2 = Some guild_id -> t1 = t2) /\
  (forall rounds w,
     exists p, serial Idle (events (full_voice_loop env self room rounds w)) = Some p) /\
  (forall rounds w p,
     exists p', serial p (events (voice_loop env self room rounds w)) = Some p') /\
  (forall w turn,
     result (record_audio_from_channel room default_duration w) = Ret (Some turn) ->
     result (turn_stages env self room turn
               (final (record_audio_from_channel room default_duration w))) = Ret tt ->
     loop_round env self room w
     = mkReply (Ret true)
         (final (turn_stages env self room turn
                   (final (record_audio_from_channel room default_duration w))))
         (EvListen :: events (record_audio_from_channel room default_duration w)
                   ++ events (turn_stages env self room turn
                                (final (record_audio_from_channel room default_duration w))))).
Proof.
  split; [| split; [| split]].
  - intros b t1 t2 guild_id Hb. apply one_task_per_room, Hb.
  - intros rounds w.
    destruct (follows_full_voice_loop env self room rounds w Idle I) as (p & Hp & _).
    exists p. exact Hp.
  - intros rounds w p.
    destruct (follows_voice_loop env self room rounds w p I) as (p' & Hp & _).
    exists p'. exact Hp.
  - intros w turn. apply loop_round_runs_the_turn.
Qed.

(** Two joins of room 7 in a row leave one task; and the phases do tell a
    serial session from one where a reply is played after the next wait
    began. *)
Example second_join_starts_no_task :
  let b := join_voice (Some 7) Succeeds Succeeds Succeeds
             (join_voice (Some 7) Succeeds Succeeds Succeeds initial_bot) in
  reachable b /\ tasks b = {[ 0%nat := 7 ]}.
Proof.
  split; [repeat apply join_voice_reachable; constructor |].
  vm_compute. reflexivity.
Qed.

Lemma one_pipeline_at_a_time_witness :
  reachable (join_voice (Some 7) Succeeds Succeeds Succeeds
               (join_voice (Some 7) Succeeds Succeeds Succeeds initial_bot)) /\
  tasks (join_voice (Some 7) Succeeds Succeeds Succeeds
           (join_voice (Some 7) Succeeds Succeeds Succeeds initial_bot))
    !! 0%nat = Some 7 /\
  0%nat = 0%nat.
Proof.
  assert (Hb : reachable (join_voice (Some 7) Succeeds Succeeds Succeeds
                            (join_voice (Some 7) Succeeds Succeeds Succeeds initial_bot)))
    by (repeat apply join_voice_reachable; constructor).
  assert (Ht : tasks (join_voice (Some 7) Succeeds Succeeds Succeeds
                        (join_voice (Some 7) Succeeds Succeeds Succeeds initial_bot))
               !! 0%nat = Some 7) by (vm_compute; reflexivity).
  split; [exact Hb | split; [exact Ht |]].
  exact (proj1 (one_pipeline_at_a_time mute_synthesizer
                  (mkVoiceHandler 3000 15000 (mkLMStudioClient 100 3 1000))
                  (mkRoom [] false))
           _ 0%nat 0%nat 7 Hb Ht Ht).
Defined.

Example overlapping_turns_are_not_serial :
  serial Idle [EvListen; EvReset; EvTurn 7 "ann" [1; 2]; EvTranscribe [1; 2];
               EvListen; EvPlay "reply.wav"] = None /\
  serial Idle (events (voice_loop (obliging "hello there" "Hi!" "reply.wav" 1200)
                         (mkVoiceHandler 3000 15000 (mkLMStudioClient 100 3 1000))
                         (mkRoom [(7, "ann"%string)] false) 2 two_utterances))
  = Some Running.
Proof. vm_compute. split; reflexivity. Qed.

(* ===================================================================== *)
(** * More of the audio sink                                              *)
(* ===================================================================== *)

(** X1. A packet written to the sink is appended to the buffer of its
    speaker (a new buffer when the speaker had none), the buffers of the
    other speakers are as they were, and the time of the last packet is the
    time of the write. *)
Theorem sink_write_read user pcm now s :
  AudioSink.buffer_get user (AudioSink.audio_data (AudioSink.write user pcm now s))
  = Some (default [] (AudioSink.buffer_get user (AudioSink.audio_data s)) ++ pcm) /\
  (forall other, other <> user ->
     AudioSink.buffer_get other (AudioSink.audio_data (AudioSink.write user pcm now s))
     = AudioSink.buffer_get other (AudioSink.audio_data s)) /\
  AudioSink.last_packet_time (AudioSink.write user pcm now s) = now.
Proof.
  unfold AudioSink.write. cbn [AudioSink.audio_data AudioSink.last_packet_time].
  split; [apply buffer_get_write_same |].
  split; [intros other Hne; apply buffer_get_write_other, Hne | reflexivity].
Qed.

Lemma buffer_write_first u pcm v b rest :
  exists extra rest',
    AudioSink.buffer_write u pcm ((v, b) :: rest) = (v, b ++ extra) :: rest'.
Proof.
  cbn [AudioSink.buffer_write]. destruct (v =? u).
  - exists pcm, rest. reflexivity.
  - exists [], (AudioSink.buffer_write u pcm rest). rewrite app_nil_r. reflexivity.
Qed.

Lemma buffered_first arrived : forall v b rest,
  exists extra rest', buffered arrived ((v, b) :: rest) = (v, b ++ extra) :: rest'.
Proof.
  induction arrived as [|[u pcm] arrived IH]; intros v b rest; cbn [buffered fold_left].
  - exists [], rest. rewrite app_nil_r. reflexivity.
  - cbn [fst snd].
    destruct (buffer_write_first u pcm v b rest) as (e1 & r1 & ->).
    destruct (IH v (b ++ e1) r1) as (e2 & r2 & H).
    exists (e1 ++ e2), r2. unfold buffered in H. rewrite H, app_assoc. reflexivity.
Qed.

(** X2. The speaker who was the first to be heard since the buffers were
    last cleared stays the first: a packet written to the sink, from anyone,
    leaves that speaker at the head with a buffer that has only grown, and so
    do all the packets that arrive while the stages of a turn run. That
    speaker is the one the next extraction selects: the turn it hands over is
    that speaker's, with the buffer decoded. *)
Theorem first_speaker_stays_first first b rest :
  (forall user pcm now last,
     exists extra rest',
       AudioSink.audio_data
         (AudioSink.write user pcm now (AudioSink.mk ((first, b) :: rest) last))
       = (first, b ++ extra) :: rest') /\
  (forall env self room turn w,
     AudioSink.audio_data (sink w) = (first, b) :: rest ->
     exists extra rest',
       AudioSink.audio_data (sink (final (turn_stages env self room turn w)))
       = (first, b ++ extra) :: rest') /\
  (forall room duration w turn,
     joined w = true ->
     AudioSink.audio_data
       (sink (final (wait_for_silence wait_rounds duration (now w)
                       (AudioSink.last_packet_time (sink w)) w)))
     = (first, b) :: rest ->
     result (record_audio_from_channel room duration w) = Ret (Some turn) ->
     user_id turn = first /\ AudioSink.frombuffer_int16 b = Some (audio turn)).
Proof.
  split; [| split].
  - intros user pcm now last. unfold AudioSink.write. cbn [AudioSink.audio_data].
    apply buffer_write_first.
  - intros env self room turn w Hw.
    destruct (turn_stages_heard env self room turn w) as [(_ & arrived & _ & Hs) _].
    rewrite Hs, Hw. destruct (listening w).
    + apply buffered_first.
    + exists [], rest. rewrite app_nil_r. reflexivity.
  - intros room duration w turn Hj Hhead Hr.
    destruct (handed_over_utterance room _ _ turn
                (record_audio_from_channel_cases room duration w Hj) Hr)
      as (b' & rest' & Hhead' & Hdec & _).
    rewrite Hhead in Hhead'. injection Hhead' as -> -> _. split; [reflexivity | exact Hdec].
Qed.

(** A byte, and a 16-bit sample. *)
Definition is_byte (x : Z) : Prop := 0 <= x < 256.
Definition is_int16 (x : Z) : Prop := -32768 <= x <= 32767.

Lemma int16_range lo hi : is_byte lo -> is_byte hi -> is_int16 (AudioSink.int16 lo hi).
Proof.
  unfold is_byte, is_int16, AudioSink.int16. intros Hlo Hhi. cbv zeta.
  destruct (Z.ltb_spec (lo + 256 * hi) 32768); lia.
Qed.

Lemma frombuffer_int16_length : forall (n : nat) b samples,
  (length b <= n)%nat ->
  AudioSink.frombuffer_int16 b = Some samples ->
  length b = (2 * length samples)%nat /\
  (Forall is_byte b -> Forall is_int16 samples).
Proof.
  induction n as [|n IH]; intros b samples Hn Hb.
  - destruct b; [| simpl in Hn; lia]. injection Hb as <-. split; [reflexivity | constructor].
  - destruct b as [|lo [|hi rest]]; cbn [AudioSink.frombuffer_int16] in Hb.
    + injection Hb as <-. split; [reflexivity | constructor].
    + discriminate.
    + destruct (AudioSink.frombuffer_int16 rest) as [tail|] eqn:E; [| discriminate].
      injection Hb as <-.
      destruct (IH rest tail) as [Hlen Hrange]; [simpl in Hn; lia | exact E |].
      split; [simpl; lia |].
      intros Hbytes. inversion Hbytes as [|? ? Hlo H1]; subst.
      inversion H1 as [|? ? Hhi H2]; subst.
      constructor; [apply int16_range; assumption | apply Hrange, H2].
Qed.

Lemma buffer_get_In u d b : AudioSink.buffer_get u d = Some b -> In (u, b) d.
Proof.
  induction d as [|[k c] rest IH]; cbn [AudioSink.buffer_get]; [discriminate |].
  destruct (Z.eqb_spec k u) as [-> | _].
  - intros [= ->]. left. reflexivity.
  - intros H. right. apply IH, H.
Qed.

(** X3. [get_audio_data] gives nothing when no speaker has a buffer; the
    array it gives otherwise is never empty, holds one sample for every two
    bytes of the buffer of one of the speakers, and when the buffers hold
    bytes each sample is a 16-bit value, from -32768 to 32767. *)
Theorem get_audio_data_decodes user_id s :
  (AudioSink.audio_data s = [] -> AudioSink.get_audio_data user_id s = None) /\
  (forall samples,
     AudioSink.get_audio_data user_id s = Some samples ->
     samples <> [] /\
     exists speaker b,
       In (speaker, b) (AudioSink.audio_data s) /\
       length b = (2 * length samples)%nat /\
       (Forall is_byte b -> Forall is_int16 samples)).
Proof.
  split.
  - intros He. unfold AudioSink.get_audio_data. rewrite He.
    destruct user_id as [u|]; [destruct (u =? 0) |]; reflexivity.
  - intros samples. unfold AudioSink.get_audio_data. cbv zeta.
    set (own := match user_id with
                | Some u => if u =? 0 then None
                            else AudioSink.buffer_get u (AudioSink.audio_data s)
                | None => None
                end).
    assert (Hown : forall b, own = Some b -> exists k, In (k, b) (AudioSink.audio_data s)).
    { subst own. intros b. destruct user_id as [u|]; [| discriminate].
      destruct (u =? 0); [discriminate |]. intros H. exists u. apply buffer_get_In, H. }
    assert (Hsel : forall b,
              match own with
              | Some b0 => Some b0
              | None => match AudioSink.audio_data s with
                        | [] => None
                        | (_, b0) :: _ => Some b0
                        end
              end = Some b -> exists k, In (k, b) (AudioSink.audio_data s)).
    { intros b. destruct own as [b0|].
      - intros [= <-]. apply Hown. reflexivity.
      - destruct (AudioSink.audio_data s) as [|[k b0] rest]; [discriminate |].
        intros [= <-]. exists k. left. reflexivity. }
    destruct (match own with
              | Some b0 => Some b0
              | None => match AudioSink.audio_data s with
                        | [] => None
                        | (_, b0) :: _ => Some b0
                        end
              end) as [b|]; [| discriminate].
    destruct (Hsel b eq_refl) as (k & Hin).
    destruct b as [|x b]; [discriminate |].
    intros Hb.
    destruct (frombuffer_int16_length _ _ _ (le_n _) Hb) as [Hlen Hrange].
    split.
    + intros ->. simpl in Hlen. lia.
    + exists k, (x :: b). auto.
Qed.

(* ===================================================================== *)
(** * More of the reply splitter                                          *)
(* ===================================================================== *)

Lemma chunk_text_pieces {A} (text : list A) (k : nat) :
  (0 < k)%nat ->
  _chunk_text text (Z.of_nat k)
  = Some (map (fun j : nat => take k (drop (j * k) text))
              (seq 0 (Py.range_len 0 (Z.of_nat (length text)) (Z.of_nat k)))).
Proof.
  intros Hk. unfold _chunk_text, Py.range.
  assert (E : (Z.of_nat k =? 0) = false) by (apply Z.eqb_neq; lia). rewrite E.
  destruct (range_len_chunks (length text) k Hk) as [_ Hin].
  rewrite map_map. f_equal. apply map_ext_in.
  intros j Hj%in_seq. simpl. apply slice_take_drop; [assumption |].
  specialize (Hin j). lia.
Qed.

Lemma range_len_ceiling (n k : nat) :
  (0 < k)%nat ->
  Z.of_nat (Py.range_len 0 (Z.of_nat n) (Z.of_nat k))
  = (Z.of_nat n + Z.of_nat k - 1) / Z.of_nat k.
Proof.
  intros Hk. unfold Py.range_len.
  assert (E : (0 <? Z.of_nat k) = true) by (apply Z.ltb_lt; lia). rewrite E.
  rewrite Z2Nat.id by (apply Z.div_pos; lia).
  f_equal. lia.
Qed.

(** X4. With a positive chunk size [k], a text of [n] characters is split
    into [ceil(n / k)] chunks, none of them empty, and every chunk but the
    last has exactly [k] characters. *)
Theorem chunk_text_sizes {A} (text : list A) (k : Z) :
  0 < k ->
  exists chunks,
    _chunk_text text k = Some chunks /\
    Z.of_nat (length chunks) = (Z.of_nat (length text) + k - 1) / k /\
    Forall (fun piece => piece <> []) chunks /\
    forall (i : nat) piece,
      chunks !! i = Some piece -> (S i < length chunks)%nat ->
      Z.of_nat (length piece) = k.
Proof.
  intros Hk.
  assert (Hk' : (0 < Z.to_nat k)%nat) by lia.
  pose proof (chunk_text_pieces text (Z.to_nat k) Hk') as Hc.
  pose proof (range_len_ceiling (length text) (Z.to_nat k) Hk') as Hlen.
  destruct (range_len_chunks (length text) (Z.to_nat k) Hk') as [_ Hin].
  rewrite Z2Nat.id in Hc, Hlen, Hin by lia.
  set (c := Py.range_len 0 (Z.of_nat (length text)) k) in *.
  eexists. split; [exact Hc |].
  split; [rewrite length_map, length_seq; exact Hlen |].
  split.
  - apply Forall_forall. intros piece Hp.
    apply list_elem_of_In, in_map_iff in Hp. destruct Hp as (j & <- & Hj%in_seq).
    specialize (Hin j ltac:(lia)).
    intros He. apply (f_equal (@length A)) in He.
    rewrite length_take, length_drop in He. simpl in He. lia.
  - intros i piece Hi Hlast. rewrite length_map, length_seq in Hlast.
    rewrite list_lookup_fmap in Hi.
    rewrite lookup_seq_lt in Hi by lia. cbn in Hi. injection Hi as <-.
    specialize (Hin (S i) Hlast).
    rewrite length_take, length_drop. lia.
Qed.

Lemma chunk_text_sizes_witness :
  0 < 2 /\
  exists chunks,
    _chunk_text [1; 2; 3; 4; 5]%nat 2 = Some chunks /\
    Z.of_nat (length chunks) = (Z.of_nat (length [1; 2; 3; 4; 5]%nat) + 2 - 1) / 2.
Proof.
  assert (H : 0 < 2) by lia.
  split; [exact H |].
  destruct (chunk_text_sizes [1; 2; 3; 4; 5]%nat 2 H) as (chunks & Hc & Hn & _).
  exists chunks. split; [exact Hc | exact Hn].
Defined.

(** X5. A chunk size of zero makes the generator raise ([range] refuses a
    zero step); with a negative chunk size, or for the empty text, nothing is
    yielded, so that a text split with a negative size is lost. *)
Theorem chunk_text_degenerate {A} (text : list A) :
  _chunk_text text 0 = None /\
  (forall k, k < 0 -> _chunk_text text k = Some []) /\
  (forall k, k <> 0 -> _chunk_text (@nil A) k = Some []).
Proof.
  split; [reflexivity |].
  assert (Hneg : forall (l : list A) k, k < 0 -> _chunk_text l k = Some []).
  { intros l k Hk. unfold _chunk_text, Py.range, Py.range_len.
    assert (E : (k =? 0) = false) by (apply Z.eqb_neq; lia). rewrite E.
    assert (E2 : (0 <? k) = false) by (apply Z.ltb_ge; lia). rewrite E2.
    replace (Z.to_nat ((0 - Z.of_nat (length l) - k - 1) / - k)) with 0%nat; [reflexivity |].
    destruct (Z.le_gt_cases 0 (0 - Z.of_nat (length l) - k - 1)) as [Hle | Hgt].
    - rewrite Z.div_small by lia. reflexivity.
    - assert ((0 - Z.of_nat (length l) - k - 1) / - k < 0)
        by (apply Z.div_lt_upper_bound; lia).
      lia. }
  split; [intros k Hk; apply Hneg, Hk |].
  intros k Hk. destruct (Z.lt_trichotomy k 0) as [Hlt | [-> | Hgt]];
    [apply Hneg, Hlt | congruence |].
  unfold _chunk_text, Py.range, Py.range_len.
  assert (E : (k =? 0) = false) by (apply Z.eqb_neq; lia). rewrite E.
  assert (E2 : (0 <? k) = true) by (apply Z.ltb_lt; lia). rewrite E2.
  cbn [length]. change (Z.of_nat 0) with 0.
  replace ((0 - 0 + k - 1) / k) with 0 by (rewrite Z.div_small; lia).
  reflexivity.
Qed.

(* ===================================================================== *)
(** * More of joining and leaving                                         *)
(* ===================================================================== *)

(** The [connected] entry of what [VoiceHandler.get_voice_channel_status]
    returns. *)
Definition get_voice_channel_status (guild_id : Z) (b : Bot) : bool :=
  bool_decide (is_Some (voice_clients b !! guild_id)).

(** Connections are numbered as they are made: the next number is above
    every connection the state knows. *)
Definition fresh (b : Bot) : Prop :=
  (forall guild_id c, voice_clients b !! guild_id = Some c -> (c < next_connection b)%nat) /\
  (forall c, c ∈ connected b -> (c < next_connection b)%nat).

Lemma fresh_step b b' : bot_step b b' -> fresh b -> fresh b'.
Proof.
  intros Hstep [Hv Hc]. destruct Hstep as [g b|g b|g b|g b|g b|t0 b]; unfold fresh.
  - unfold disconnect. destruct (voice_clients b !! g); cbn; [| auto].
    split; [exact Hv |]. intros c0 Hin. apply Hc.
    apply elem_of_difference in Hin. tauto.
  - unfold connect. cbn. split.
    + intros g' c. destruct (decide (g = g')) as [<- | Hne].
      * rewrite lookup_insert_eq. intros [= <-]. lia.
      * rewrite lookup_insert_ne by assumption. intros H. specialize (Hv _ _ H). lia.
    + intros c Hin. apply elem_of_union in Hin as [Hin | Hin].
      * apply elem_of_singleton in Hin. lia.
      * specialize (Hc _ Hin). lia.
  - unfold start_voice_loop. destruct (voice_loops b !! g); cbn; auto.
  - unfold cancel_voice_loop. destruct (voice_loops b !! g); cbn; auto.
  - unfold set_voice_clients. cbn. split; [| exact Hc].
    intros g' c. destruct (decide (g = g')) as [<- | Hne].
    + rewrite lookup_delete_eq. discriminate.
    + rewrite lookup_delete_ne by assumption. apply Hv.
  - unfold task_ends. cbn. auto.
Qed.

Lemma reachable_fresh b : reachable b -> fresh b.
Proof.
  induction 1 as [|b b' _ IH Hstep].
  - split.
    + intros g c. unfold initial_bot. cbn. rewrite lookup_empty. discriminate.
    + intros c. unfold initial_bot. cbn. intros H. apply not_elem_of_empty in H. destruct H.
  - eapply fresh_step; eassumption.
Qed.

(** X6. After [leave_voice] the room has no entry in [voice_loops] and no
    loop task alive, whether or not the disconnection worked. When it worked
    the room has no connection any more; when [disconnect()] raised, the
    room's entry in [voice_clients] and the connection are as they were: the
    bot stays connected, with no voice loop. *)
Theorem leave_voice_stops_the_loop guild_id disc b :
  reachable b ->
  voice_loops (leave_voice guild_id disc b) !! guild_id = None /\
  (forall t, tasks (leave_voice guild_id disc b) !! t <> Some guild_id) /\
  (disc = Fails ->
     voice_clients (leave_voice guild_id disc b) = voice_clients b /\
     connected (leave_voice guild_id disc b) = connected b) /\
  (disc = Succeeds ->
     voice_clients (leave_voice guild_id disc b) !! guild_id = None /\
     forall c, voice_clients b !! guild_id = Some c ->
               c ∉ connected (leave_voice guild_id disc b)).
Proof.
  intros Hb.
  pose proof (reachable_registered _ (leave_voice_reachable guild_id disc b Hb)) as Hreg.
  assert (Hloops : voice_loops (leave_voice guild_id disc b) !! guild_id = None).
  { unfold leave_voice, leave_voice_channel, cancel_voice_loop, disconnect, set_voice_clients.
    destruct (voice_loops b !! guild_id) as [t|] eqn:El; cbn;
      destruct (voice_clients b !! guild_id) as [c|] eqn:Ec; cbn;
      try destruct disc; cbn; rewrite ?Ec; cbn;
      first [apply lookup_delete_eq | exact El]. }
  split; [exact Hloops |].
  split.
  { intros t Ht. apply Hreg in Ht. congruence. }
  split.
  - intros ->. unfold leave_voice, leave_voice_channel, cancel_voice_loop.
    destruct (voice_loops b !! guild_id) as [t|]; cbn;
      destruct (voice_clients b !! guild_id); cbn; auto.
  - intros ->.
    assert (Hc : voice_clients (cancel_voice_loop guild_id b) = voice_clients b /\
                 connected (cancel_voice_loop guild_id b) = connected b).
    { unfold cancel_voice_loop. destruct (voice_loops b !! guild_id); cbn; auto. }
    destruct Hc as [Hvc Hcc].
    unfold leave_voice, leave_voice_channel, disconnect, set_voice_clients.
    rewrite Hvc.
    destruct (voice_clients b !! guild_id) as [c|] eqn:Ec; cbn.
    + rewrite ?Hvc, ?Ec. cbn. split; [apply lookup_delete_eq |].
      intros c0 [= <-] Hin. rewrite Hcc in Hin.
      apply elem_of_difference in Hin as [_ Hn].
      apply Hn, elem_of_singleton. reflexivity.
    + rewrite ?Hvc. split; [exact Ec | discriminate].
Qed.

Lemma leave_voice_stops_the_loop_witness :
  reachable (join_voice (Some 7) Succeeds Succeeds Succeeds initial_bot) /\
  voice_loops (leave_voice 7 Fails
                 (join_voice (Some 7) Succeeds Succeeds Succeeds initial_bot)) !! 7 = None.
Proof.
  assert (H : reachable (join_voice (Some 7) Succeeds Succeeds Succeeds initial_bot))
    by (apply join_voice_reachable; constructor).
  split; [exact H |].
  exact (proj1 (leave_voice_stops_the_loop 7 Fails _ H)).
Defined.

(** X7. [join_voice] starts a loop task only for a room that has no entry
    in [voice_loops]. An entry that is still there keeps it from starting
    one, also when the task of that entry has ended on its own: such a room
    gets no voice loop again until [leave_voice] has removed the entry. *)
Theorem join_keeps_an_ended_loop guild_id t disc conn send b :
  voice_loops b !! guild_id = Some t ->
  voice_loops (join_voice (Some guild_id) disc conn send b) = voice_loops b /\
  tasks (join_voice (Some guild_id) disc conn send b) = tasks b.
Proof.
  intros Hl. unfold join_voice, join_voice_channel, start_voice_loop, disconnect, connect.
  destruct (voice_clients b !! guild_id); destruct disc, conn, send; cbn;
    rewrite ?Hl; split; reflexivity.
Qed.

Lemma join_keeps_an_ended_loop_witness :
  voice_loops (task_ends 0 (join_voice (Some 7) Succeeds Succeeds Succeeds initial_bot))
    !! 7 = Some 0%nat /\
  tasks (task_ends 0 (join_voice (Some 7) Succeeds Succeeds Succeeds initial_bot)) = ∅ /\
  tasks (join_voice (Some 7) Succeeds Succeeds Succeeds
           (task_ends 0 (join_voice (Some 7) Succeeds Succeeds Succeeds initial_bot)))
  = tasks (task_ends 0 (join_voice (Some 7) Succeeds Succeeds Succeeds initial_bot)).
Proof.
  assert (H : voice_loops (task_ends 0 (join_voice (Some 7) Succeeds Succeeds Succeeds
                                          initial_bot)) !! 7 = Some 0%nat)
    by (vm_compute; reflexivity).
  split; [exact H |].
  split; [vm_compute; reflexivity |].
  exact (proj2 (join_keeps_an_ended_loop 7 0%nat Succeeds Succeeds Succeeds _ H)).
Defined.

(** What a join that works does to the loops: it starts a task for a room
    without an entry in [voice_loops] when the confirmation was sent, and
    nothing otherwise. *)
Lemma join_voice_loops guild_id send b :
  voice_loops (join_voice (Some guild_id) Succeeds Succeeds send b)
  = match send, voice_loops b !! guild_id with
    | Succeeds, None => <[guild_id := next_task b]> (voice_loops b)
    | _, _ => voice_loops b
    end /\
  tasks (join_voice (Some guild_id) Succeeds Succeeds send b)
  = match send, voice_loops b !! guild_id with
    | Succeeds, None => <[next_task b := guild_id]> (tasks b)
    | _, _ => tasks b
    end.
Proof.
  unfold join_voice, join_voice_channel, start_voice_loop, disconnect, connect.
  destruct (voice_clients b !! guild_id) as [c0|] eqn:Ec; cbn; rewrite ?Ec; cbn;
    destruct send; cbn;
    try (destruct (voice_loops b !! guild_id) as [t|] eqn:El; cbn);
    split; reflexivity.
Qed.

(** X8. A join in which [disconnect()] and [connect()] both work leaves the
    room with a connection that is up; the connection the room had before, if
    any, is another one and is down. When the confirmation message was sent
    and the room had no entry in [voice_loops], and so no loop task, a loop
    task is started for the room and entered in [voice_loops]. When the room
    had an entry, or when sending the confirmation raises, the bot is
    connected and [voice_loops] and the tasks are as before: no task is
    started. *)
Theorem join_replaces_the_connection guild_id send b :
  reachable b ->
  exists c,
    voice_clients (join_voice (Some guild_id) Succeeds Succeeds send b) !! guild_id = Some c /\
    c ∈ connected (join_voice (Some guild_id) Succeeds Succeeds send b) /\
    (forall c0, voice_clients b !! guild_id = Some c0 ->
       c0 <> c /\ c0 ∉ connected (join_voice (Some guild_id) Succeeds Succeeds send b)) /\
    (send = Succeeds -> voice_loops b !! guild_id = None ->
       (forall t0, tasks b !! t0 <> Some guild_id) /\
       exists t,
         voice_loops (join_voice (Some guild_id) Succeeds Succeeds send b) !! guild_id
         = Some t /\
         tasks (join_voice (Some guild_id) Succeeds Succeeds send b) !! t = Some guild_id) /\
    (send = Fails \/ is_Some (voice_loops b !! guild_id) ->
       voice_loops (join_voice (Some guild_id) Succeeds Succeeds send b) = voice_loops b /\
       tasks (join_voice (Some guild_id) Succeeds Succeeds send b) = tasks b).
Proof.
  intros Hb. destruct (reachable_fresh b Hb) as [Hv Hc].
  pose proof (reachable_registered b Hb) as Hreg.
  destruct (join_voice_loops guild_id send b) as [Hloops Htasks].
  exists (next_connection b).
  assert (Hshape : exists live loops ts nt,
            join_voice (Some guild_id) Succeeds Succeeds send b
            = mkBot (<[guild_id := next_connection b]> (voice_clients b)) loops
                    ({[next_connection b]} ∪ live) ts (S (next_connection b)) nt /\
            live = match voice_clients b !! guild_id with
                   | Some c0 => connected b ∖ {[c0]}
                   | None => connected b
                   end).
  { unfold join_voice, join_voice_channel, start_voice_loop, disconnect, connect.
    destruct (voice_clients b !! guild_id) as [c0|] eqn:Ec; cbn; rewrite ?Ec; cbn;
      destruct send; cbn;
      try (destruct (voice_loops b !! guild_id) as [t|] eqn:El; cbn);
      do 4 eexists; split; reflexivity. }
  destruct Hshape as (live & loops & ts & nt & Hshape & Hlive).
  split; [rewrite Hshape; apply lookup_insert_eq |].
  split; [rewrite Hshape; apply elem_of_union; left; apply elem_of_singleton; reflexivity |].
  split; [| split].
  - intros c0 H0. specialize (Hv _ _ H0).
    split; [lia |]. rewrite Hshape. cbn.
    intros Hin. apply elem_of_union in Hin as [Hin | Hin].
    + apply elem_of_singleton in Hin. lia.
    + rewrite Hlive, H0 in Hin. apply elem_of_difference in Hin as [_ Hn].
      apply Hn, elem_of_singleton. reflexivity.
  - intros -> Hnone. rewrite Hnone in Hloops, Htasks. split.
    + intros t0 H0. apply Hreg in H0. congruence.
    + exists (next_task b). rewrite Hloops, Htasks. split; apply lookup_insert_eq.
  - intros [-> | [t Hsome]].
    + rewrite Hloops, Htasks. split; reflexivity.
    + rewrite Hloops, Htasks, Hsome. destruct send; split; reflexivity.
Qed.

Lemma join_replaces_the_connection_witness :
  reachable (join_voice (Some 7) Succeeds Succeeds Succeeds initial_bot) /\
  exists c,
    voice_clients (join_voice (Some 7) Succeeds Succeeds Fails
                     (join_voice (Some 7) Succeeds Succeeds Succeeds initial_bot)) !! 7
    = Some c.
Proof.
  assert (H : reachable (join_voice (Some 7) Succeeds Succeeds Succeeds initial_bot))
    by (apply join_voice_reachable; constructor).
  split; [exact H |].
  destruct (join_replaces_the_connection 7 Fails _ H) as (c & Hc & _).
  exists c. exact Hc.
Defined.

(** X9. When a room that is connected is joined again and [connect()]
    raises after the old connection has been dropped, the room's entry stays
    in [voice_clients]: [get_voice_channel_status] goes on reporting the room
    as connected, although the connection the entry names is down. *)
Theorem status_after_failed_reconnect guild_id c b :
  voice_clients b !! guild_id = Some c ->
  fst (join_voice_channel (Some guild_id) Succeeds Fails b) = false /\
  get_voice_channel_status guild_id (snd (join_voice_channel (Some guild_id) Succeeds Fails b))
  = true /\
  voice_clients (snd (join_voice_channel (Some guild_id) Succeeds Fails b)) !! guild_id
  = Some c /\
  c ∉ connected (snd (join_voice_channel (Some guild_id) Succeeds Fails b)).
Proof.
  intros Hc. unfold join_voice_channel, disconnect, get_voice_channel_status.
  rewrite Hc. cbn. rewrite Hc.
  split; [reflexivity |].
  split; [apply bool_decide_eq_true; eexists; reflexivity |].
  split; [reflexivity |].
  intros Hin. apply elem_of_difference in Hin as [_ Hn].
  apply Hn, elem_of_singleton. reflexivity.
Qed.

Lemma status_after_failed_reconnect_witness :
  voice_clients (join_voice (Some 7) Succeeds Succeeds Succeeds initial_bot) !! 7
  = Some 0%nat /\
  get_voice_channel_status 7
    (snd (join_voice_channel (Some 7) Succeeds Fails
            (join_voice (Some 7) Succeeds Succeeds Succeeds initial_bot))) = true.
Proof.
  assert (H : voice_clients (join_voice (Some 7) Succeeds Succeeds Succeeds initial_bot) !! 7
              = Some 0%nat) by (vm_compute; reflexivity).
  split; [exact H |].
  exact (proj1 (proj2 (status_after_failed_reconnect 7 0%nat _ H))).
Defined.

(* ===================================================================== *)
(** * More of the language model call                                     *)
(* ===================================================================== *)

Lemma advance_tick d w : tick (final (advance d w)) = tick w.
Proof.
  unfold advance, bind, modify, get, _on_playback_done, remove, emit, ret. simpl.
  destruct (player w) as [p|]; simpl; [| reflexivity].
  destruct (p_left p <=? d); simpl; [| reflexivity].
  destruct (_ && _); reflexivity.
Qed.

(** With nothing on its way from outside, an [await] lasts its time. *)
Lemma pause_calm d w : cancel_in w = None -> pause d w = advance d w.
Proof. intros Hc. unfold pause. rewrite bind_get, Hc. reflexivity. Qed.

(** What a run that is not cancelled leaves: its result, the calls made to
    the outside, the time gone by, the requests sent. *)
Definition calm_run {A} (w : World) (a : A) (calls : nat) (time : Z) (sent : nat)
    (r : Reply A) : Prop :=
  result r = Ret a /\ cancel_in (final r) = None /\
  tick (final r) = (tick w + calls)%nat /\ now (final r) = now w + time /\
  posts (events r) = sent.

Lemma post_calm env attempt tokens user_message w :
  cancel_in w = None ->
  calm_run w (snd (http env (tick w))) 1 (Z.of_N (fst (http env (tick w)))) 1
    (post env attempt tokens user_message w).
Proof.
  intros Hc. unfold post, next_tick.
  rewrite bind_assoc, bind_get, bind_assoc, bind_modify, bind_ret, bind_emit.
  cbn [result final events].
  rewrite (bind_run _ _ _ tt)
    by (rewrite pause_calm by exact Hc; apply advance_result).
  cbn [result final events ret]. rewrite pause_calm by exact Hc.
  unfold calm_run. cbn [result final events].
  rewrite advance_cancel_in, advance_tick, advance_now, app_nil_r.
  cbn [posts tick set_tick now cancel_in]. rewrite posts_advance.
  repeat split; first [reflexivity | assumption | lia].
Qed.

Lemma sleep_calm ms w :
  cancel_in w = None -> calm_run w tt 0 (Z.max 0 ms) 0 (sleep ms w).
Proof.
  intros Hc. unfold sleep. rewrite bind_emit. cbn [result final events].
  rewrite pause_calm by exact Hc.
  unfold calm_run. cbn [result final events].
  rewrite advance_result, advance_cancel_in, advance_tick, advance_now.
  cbn [posts]. rewrite posts_advance.
  repeat split; first [reflexivity | assumption | lia].
Qed.

(** The time a call takes that is answered at its [k]-th retry: the
    latencies of the requests, and the delay after each one that failed. *)
Fixpoint answered_after (env : Env) (delay : Z) (t0 k : nat) : Z :=
  match k with
  | O => Z.of_N (fst (http env t0))
  | S k' => Z.of_N (fst (http env t0)) + Z.max 0 delay + answered_after env delay (S t0) k'
  end.

Lemma attempts_first_answer env llm tokens user_message content (k : nat) :
  forall (a m : nat) w,
    cancel_in w = None ->
    (k < m)%nat ->
    Z.of_nat (a + k) < retry_attempts llm ->
    (forall j, (j < k)%nat -> unanswered (snd (http env (tick w + j)%nat))) ->
    snd (http env (tick w + k)%nat) = Reply200 (Some content) ->
    calm_run w (Py.strip content) (S k) (answered_after env (retry_delay llm) (tick w) k) (S k)
      (attempts env llm tokens user_message (map Z.of_nat (seq a m)) w).
Proof.
  induction k as [|k IH]; intros a m w Hc Hm Ha Hfail Hok;
    (destruct m as [|m]; [lia |]); cbn [seq map attempts];
    destruct (post_calm env (Z.of_nat a) tokens user_message w Hc)
      as (Hr & Hc1 & Ht1 & Hn1 & Hp1);
    rewrite (bind_run _ _ _ _ Hr); unfold calm_run; cbn [result final events].
  - rewrite Nat.add_0_r in Hok. rewrite Hok. cbn [ret result final events].
    rewrite app_nil_r. cbn [answered_after].
    repeat split; first [reflexivity | assumption | lia].
  - pose proof (Hfail 0%nat ltac:(lia)) as H0. rewrite Nat.add_0_r in H0.
    set (w1 := final (post env (Z.of_nat a) tokens user_message w)) in *.
    assert (Hlt : (Z.of_nat a <? retry_attempts llm - 1) = true) by (apply Z.ltb_lt; lia).
    destruct (sleep_calm (retry_delay llm) w1 Hc1) as (Hr2 & Hc2 & Ht2 & Hn2 & Hp2).
    set (w2 := final (sleep (retry_delay llm) w1)) in *.
    assert (Hrest : calm_run w2 (Py.strip content) (S k)
                      (answered_after env (retry_delay llm) (tick w2) k) (S k)
                      (attempts env llm tokens user_message (map Z.of_nat (seq (S a) m)) w2)).
    { apply IH; [exact Hc2 | lia | lia | |].
      - intros j Hj. replace (tick w2 + j)%nat with (tick w + S j)%nat by lia.
        apply Hfail. lia.
      - replace (tick w2 + k)%nat with (tick w + S k)%nat by lia. exact Hok. }
    destruct Hrest as (Hr3 & Hc3 & Ht3 & Hn3 & Hp3).
    assert (Hstep : forall r0,
              unanswered r0 ->
              (match r0 with
               | Reply200 (Some c0) => ret (Py.strip c0)
               | _ => (if Z.of_nat a <? retry_attempts llm - 1
                       then sleep (retry_delay llm) else ret tt);;
                      attempts env llm tokens user_message (map Z.of_nat (seq (S a) m))
               end) w1
              = mkReply (result (attempts env llm tokens user_message
                                   (map Z.of_nat (seq (S a) m)) w2))
                        (final (attempts env llm tokens user_message
                                  (map Z.of_nat (seq (S a) m)) w2))
                        (events (sleep (retry_delay llm) w1)
                         ++ events (attempts env llm tokens user_message
                                      (map Z.of_nat (seq (S a) m)) w2))).
    { intros r0 Hu. rewrite Hlt.
      destruct r0 as [[c0|]| | |]; [destruct Hu | | | |];
        rewrite (bind_run _ _ _ _ Hr2); reflexivity. }
    rewrite (Hstep _ H0). cbn [result final events].
    rewrite !posts_app, Hp1, Hp2, Hp3.
    cbn [answered_after].
    replace (tick w2) with (S (tick w)) in Hn3 by lia.
    repeat split; first [assumption | lia].
Qed.

(** X10. When the first [k] requests of a call fail and the next one, made
    within the configured number of attempts, is answered, a call that is not
    cancelled returns the text of that answer with the white space around it
    stripped, after [k + 1] requests and no more, and it has taken the
    latencies of those requests and [k] times the retry delay. *)
Theorem first_answer_is_returned env llm user_message voice_mode max_tokens_arg content
    (k : nat) w :
  cancel_in w = None ->
  Z.of_nat k < retry_attempts llm ->
  (forall j, (j < k)%nat -> unanswered (snd (http env (tick w + j)%nat))) ->
  snd (http env (tick w + k)%nat) = Reply200 (Some content) ->
  result (generate_response_async env llm user_message voice_mode max_tokens_arg w)
    = Ret (Py.strip content) /\
  posts (events (generate_response_async env llm user_message voice_mode max_tokens_arg w))
    = S k /\
  now (final (generate_response_async env llm user_message voice_mode max_tokens_arg w))
    = now w + answered_after env (retry_delay llm) (tick w) k.
Proof.
  intros Hc Hk Hfail Hok. unfold generate_response_async. cbv zeta.
  rewrite range_attempts.
  destruct (attempts_first_answer env llm
              (if voice_mode
               then Z.min (match max_tokens_arg with
                           | Some t => if t =? 0 then max_tokens llm else t
                           | None => max_tokens llm
                           end) 100
               else match max_tokens_arg with
                    | Some t => if t =? 0 then max_tokens llm else t
                    | None => max_tokens llm
                    end)
              user_message content k 0 (Z.to_nat (retry_attempts llm)) w)
    as (Hr & _ & _ & Hn & Hp); auto; lia.
Qed.

(** A service that fails once and then answers. *)
Definition second_time_lucky : Env :=
  mkEnv (fun _ => (0%N, "hello there"%string))
        (fun k => match k with
                  | O => (200%N, ReplyTimeout)
                  | _ => (150%N, Reply200 (Some "  Hi!  "%string))
                  end)
        (fun _ => (0%N, Some "reply.wav"%string))
        (fun _ => (0%N, Succeeds))
        (fun _ => Succeeds)
        (fun _ => PlayStarts 1200 false)
        (fun _ => Succeeds)
        (fun _ => Succeeds).

Lemma first_answer_is_returned_witness :
  cancel_in reply_written = None /\
  result (generate_response_async second_time_lucky (mkLMStudioClient 100 3 1000)
            "hello there" true (Some 100) reply_written) = Ret "Hi!"%string /\
  now (final (generate_response_async second_time_lucky (mkLMStudioClient 100 3 1000)
                "hello there" true (Some 100) reply_written)) = 1350.
Proof.
  assert (Hc : cancel_in reply_written = None) by reflexivity.
  assert (Hk : Z.of_nat 1 < retry_attempts (mkLMStudioClient 100 3 1000))
    by (vm_compute; reflexivity).
  assert (Hfail : forall j, (j < 1)%nat ->
            unanswered (snd (http second_time_lucky (tick reply_written + j)%nat))).
  { intros j Hj. assert (j = 0%nat) as -> by lia. exact I. }
  assert (Hok : snd (http second_time_lucky (tick reply_written + 1)%nat)
                = Reply200 (Some "  Hi!  "%string)) by reflexivity.
  split; [exact Hc |].
  destruct (first_answer_is_returned second_time_lucky (mkLMStudioClient 100 3 1000)
              "hello there" true (Some 100) "  Hi!  " 1 reply_written Hc Hk Hfail Hok)
    as (Hr & _ & Hn).
  split; [exact Hr | exact Hn].
Defined.

(** The token limit a call asks for: [max_tokens or self.max_tokens], and
    at most 100 in voice mode. *)
Definition asked_tokens (llm : LMStudioClient) (voice_mode : bool)
    (max_tokens_arg : option Z) : Z :=
  let tokens := match max_tokens_arg with
                | Some t => if t =? 0 then max_tokens llm else t
                | None => max_tokens llm
                end in
  if voice_mode then Z.min tokens 100 else tokens.

Definition asks (tokens : Z) (user_message : string) (e : Event) : Prop :=
  forall a t m, e = EvPost a t m -> t = tokens /\ m = user_message.

(** X11. Every request of a call carries the message of the call and one
    and the same token limit: the limit passed, or the configured one when
    none or zero is passed, and in voice mode never more than 100 whatever is
    passed or configured. *)
Theorem requests_ask_for_the_same_tokens env llm user_message voice_mode max_tokens_arg w :
  Forall (asks (asked_tokens llm voice_mode max_tokens_arg) user_message)
    (events (generate_response_async env llm user_message voice_mode max_tokens_arg w)) /\
  (voice_mode = true -> asked_tokens llm voice_mode max_tokens_arg <= 100) /\
  asked_tokens llm voice_mode (Some 0) = asked_tokens llm voice_mode None.
Proof.
  split; [| split].
  - assert (HF : Frame any_world (asks (asked_tokens llm voice_mode max_tokens_arg)
                                       user_message))
      by (apply frame_any_world; intros ? ? ? ? ?; discriminate).
    unfold generate_response_async. cbv zeta.
    apply (@keeps_attempts any_world _ HF).
    intros a a' t m [= _ <- <-]. split; reflexivity.
  - intros ->. unfold asked_tokens. cbv zeta. lia.
  - reflexivity.
Qed.

(* ===================================================================== *)
(** * More of answering a turn                                            *)
(* ===================================================================== *)

(** A postcondition that holds of whatever a coroutine comes to. *)
Lemma wp_any {A} (m : M A) w (Q : res A -> World -> list Event -> Prop) :
  (forall r w' es, Q r w' es) -> wp m w Q.
Proof. intros H. apply H. Qed.

(** A run that says [True] has started a playback and seen through the
    wait for its end. *)
Definition played_if_true (r : res bool) (es : list Event) : Prop :=
  r = Ret true ->
  exists path polls, In (EvPlay path) es /\ In (EvPlayed polls) es.

Lemma played_if_true_app r es0 es : played_if_true r es -> played_if_true r (es0 ++ es).
Proof.
  intros H Hr. destruct (H Hr) as (path & polls & H1 & H2).
  exists path, polls. split; apply in_or_app; right; assumption.
Qed.

Lemma voice_client_play_emits env path w :
  wp (voice_client_play env path) w (fun r _ es => In (EvPlay path) es).
Proof.
  unfold voice_client_play. repeat wp_step.
  destruct (is_playing (set_tick (S (tick w)) w)); [wp_step; cbn; auto |].
  destruct (play env (tick w)); wp_step; cbn; auto.
Qed.

Lemma play_response_verdict env room response path w :
  wp (play_response env room response path) w (fun r _ es => played_if_true r es).
Proof.
  unfold play_response. apply wp_try_except, wp_bind, wp_any.
  intros r1 w1 es1.
  assert (Hhandler : forall e w0 es0,
            wp (w2 <- get;;
                (if file_exists path w2 then remove path else ret tt);;
                @raise bool e) w0
               (fun r2 _ es2 => played_if_true r2 (es0 ++ es2))).
  { intros e w0 es0. repeat wp_step.
    destruct (file_exists path w0); unfold remove; repeat wp_step; discriminate. }
  destruct r1 as [[]|e| |]; [| apply Hhandler | discriminate | discriminate].
  apply wp_bind, wp_any. intros r2 w2 es2.
  destruct r2 as [[]|e| |]; [| apply Hhandler | discriminate | discriminate].
  apply wp_bind.
  eapply wp_mono; [apply voice_client_play_emits |].
  intros r3 w3 es3 Hplay.
  destruct r3 as [[]|e| |]; [| apply Hhandler | discriminate | discriminate].
  apply wp_bind, wp_any. intros r4 w4 es4.
  destruct r4 as [waited|e| |]; [| apply Hhandler | discriminate | discriminate].
  repeat wp_step. intros _. exists path, waited. split.
  - apply in_or_app. right. apply in_or_app. right.
    apply in_or_app. left. exact Hplay.
  - apply in_or_app. right. apply in_or_app. right.
    apply in_or_app. right. apply in_or_app. right. cbn. auto.
Qed.

(** X12. [process_voice_message] lets no exception out, whatever the
    services do; it says [True] only when a playback was started and the wait
    for its end was seen through; and for a room that is not joined it says
    [False] at once, with nothing done. *)
Theorem process_voice_message_verdict env self room user_message w :
  (forall e, result (process_voice_message env self room user_message w) <> Raise e) /\
  played_if_true (result (process_voice_message env self room user_message w))
                 (events (process_voice_message env self room user_message w)) /\
  (joined w = false ->
   process_voice_message env self room user_message w = mkReply (Ret false) w []).
Proof.
  assert (H : wp (process_voice_message env self room user_message) w
                (fun r _ es => (forall e, r <> Raise e) /\ played_if_true r es)).
  { unfold process_voice_message. apply wp_bind, wp_get. cbv beta iota.
    destruct (negb (joined w)); [wp_step; split; discriminate |].
    apply wp_try_except, wp_bind, wp_any. intros r1 w1 es1.
    assert (Hfalse : forall w0 es0,
              wp (ret false) w0
                 (fun r2 _ es2 => (forall e, r2 <> Raise e) /\
                                  played_if_true r2 (es0 ++ es2))).
    { intros w0 es0. wp_step. split; discriminate. }
    destruct r1 as [response|e| |];
      [| apply Hfalse | split; discriminate | split; discriminate].
    destruct (Py.is_empty response || Py.startswith response "[");
      [wp_step; split; discriminate |].
    apply wp_bind, wp_any. intros r2 w2 es2.
    destruct r2 as [[path|]|e| |];
      [| wp_step; split; discriminate | apply Hfalse
       | split; discriminate | split; discriminate].
    destruct (Py.is_empty path); [wp_step; split; discriminate |].
    apply wp_bind, wp_get. cbv beta iota.
    destruct (negb (file_exists path w2)); [wp_step; split; discriminate |].
    eapply wp_mono; [apply play_response_verdict |].
    intros r3 w3 es3 Hplayed.
    destruct r3 as [b|e| |].
    - split; [discriminate |]. do 4 apply played_if_true_app. exact Hplayed.
    - wp_step. split; discriminate.
    - split; discriminate.
    - split; discriminate. }
  destruct H as [Hraise Hplayed].
  split; [exact Hraise | split; [exact Hplayed |]].
  intros Hj. unfold process_voice_message. rewrite bind_get, Hj. reflexivity.
Qed.

(* ===================================================================== *)
(** * The end of the loop                                                 *)
(* ===================================================================== *)

(** A run all of whose events satisfy [P]. *)
Definition emits {A} (P : Event -> Prop) (m : M A) : Prop :=
  forall w, Forall P (events (m w)).

Lemma emits_bind {A B} P (m : M A) (k : A -> M B) :
  emits P m -> (forall a, emits P (k a)) -> emits P (bind m k).
Proof.
  intros Hm Hk w. unfold bind. specialize (Hm w).
  destruct (result (m w)) as [a| | |]; cbn [events]; try assumption.
  apply Forall_app. split; [assumption | apply Hk].
Qed.

Lemma emits_bind_get {B} P (k : World -> M B) :
  (forall w, emits P (k w)) -> emits P (bind get k).
Proof. intros Hk w. rewrite bind_get. apply Hk. Qed.

Lemma emits_try_except {A} P (m : M A) h :
  emits P m -> (forall e, emits P (h e)) -> emits P (try_except m h).
Proof.
  intros Hm Hh w. unfold try_except. cbv zeta. specialize (Hm w).
  destruct (result (m w)) as [a|e| |]; cbn [events]; try assumption.
  apply Forall_app. split; [assumption | apply Hh].
Qed.

Lemma emits_ret {A} P (a : A) : emits P (ret a).
Proof. intros w. constructor. Qed.

Definition still_listening (e : Event) : Prop := e <> EvStopListening.

Lemma emits_loop_round env self room : emits still_listening (loop_round env self room).
Proof.
  intros w.
  assert (HF : Frame any_world still_listening)
    by (apply frame_any_world; intros ? ?; discriminate).
  destruct (@loop_round_goes_on any_world _ HF env self room) with (w := w)
    as (_ & (es & He & HP) & _).
  - intros e He. destruct e; intros ?; discriminate.
  - intros; exact I.
  - intros ?; discriminate.
  - intros ? ? ? ?; discriminate.
  - intros ?; discriminate.
  - rewrite He. constructor; [intros ?; discriminate | exact HP].
Qed.

Lemma emits_voice_loop env self room rounds :
  emits still_listening (voice_loop env self room rounds).
Proof.
  induction rounds as [|n IH]; cbn [voice_loop]; apply emits_bind_get; intros w.
  - destruct (joined w); intros w'; constructor.
  - destruct (joined w); [| apply emits_ret].
    apply emits_bind; [apply emits_loop_round |].
    intros [|]; [apply IH | apply emits_ret].
Qed.

Lemma voice_loop_never_raises env self room rounds : forall w e,
  result (voice_loop env self room rounds w) <> Raise e.
Proof.
  induction rounds as [|n IH]; intros w e; cbn [voice_loop]; rewrite bind_get.
  - destruct (joined w); discriminate.
  - destruct (joined w); [| discriminate].
    destruct (loop_round_next env self room w) as (_ & _ & Hraise & _).
    unfold bind.
    destruct (result (loop_round env self room w)) as [[|]|e0| |] eqn:E;
      cbn [result]; try discriminate.
    + apply IH.
    + destruct (Hraise e0 eq_refl).
Qed.

Lemma bind_next_tick {B} (k : nat -> M B) w :
  bind next_tick k w = k (tick w) (set_tick (S (tick w)) w).
Proof. unfold next_tick, bind, get, modify, ret. cbn [result final events app]. apply reply_eta. Qed.

(** The [finally] block: the stop is asked for once, nothing is raised, and
    when the stop works the client listens no more and the buffers are
    cleared. *)
Lemma stop_and_cleanup_run env w :
  result (stop_and_cleanup env w) = Ret tt /\
  events (stop_and_cleanup env w) = [EvStopListening] /\
  tick (final (stop_and_cleanup env w)) = S (tick w) /\
  (stop_listening env (tick w) = Succeeds ->
   listening (final (stop_and_cleanup env w)) = false /\
   AudioSink.audio_data (sink (final (stop_and_cleanup env w))) = []) /\
  (stop_listening env (tick w) = Fails ->
   final (stop_and_cleanup env w) = set_tick (S (tick w)) w).
Proof.
  unfold stop_and_cleanup. rewrite bind_next_tick, bind_emit.
  destruct (stop_listening env (tick w)); cbn; repeat split; auto; discriminate.
Qed.

(** The world the [while] loop of [full_voice_loop] begins in. *)
Definition listening_to (w : World) : World :=
  set_listening true
    (set_sink (AudioSink.init (now w)) (set_tick (S (tick w)) w)).

(** X13. [full_voice_loop] for a room that is not joined raises [KeyError]
    at once. For a joined room it first makes the sink and tells the voice
    client to listen, outside of any [try]: when that raises, the loop ends
    by that exception at once, with nothing listened to and nothing stopped.
    When it works, then however the loop ends (the room left, the task
    cancelled) it ends without an exception, and the last thing it does is
    to ask the voice client to stop listening, once; when that stop works
    the client listens no more and the buffers of the sink are empty, and
    when it raises the exception is swallowed and the sink is left as it
    is. *)
Theorem full_voice_loop_stops_listening env self room rounds w :
  (joined w = false ->
   full_voice_loop env self room rounds w = mkReply (Raise KeyError) w []) /\
  (joined w = true -> listen env (tick w) = Fails ->
   full_voice_loop env self room rounds w
   = mkReply (Raise OtherError) (set_tick (S (tick w)) w) []) /\
  (joined w = true -> listen env (tick w) = Succeeds ->
   result (full_voice_loop env self room rounds w) <> OutOfFuel ->
   (forall e, result (full_voice_loop env self room rounds w) <> Raise e) /\
   (exists es,
      events (full_voice_loop env self room rounds w) = es ++ [EvStopListening] /\
      Forall still_listening es) /\
   let w1 := final (voice_loop env self room rounds (listening_to w)) in
   tick (final (full_voice_loop env self room rounds w)) = S (tick w1) /\
   (stop_listening env (tick w1) = Succeeds ->
    listening (final (full_voice_loop env self room rounds w)) = false /\
    AudioSink.audio_data (sink (final (full_voice_loop env self room rounds w))) = []) /\
   (stop_listening env (tick w1) = Fails ->
    sink (final (full_voice_loop env self room rounds w)) = sink w1 /\
    listening (final (full_voice_loop env self room rounds w)) = listening w1)).
Proof.
  split; [| split].
  - intros Hj. unfold full_voice_loop. rewrite bind_get, Hj. reflexivity.
  - intros Hj Hl. unfold full_voice_loop. rewrite bind_get, Hj. cbn [negb].
    rewrite bind_next_tick, Hl. reflexivity.
  - intros Hj Hl. unfold full_voice_loop. rewrite bind_get, Hj. cbn [negb].
    rewrite bind_next_tick, Hl, bind_modify.
    change (set_listening true
              (set_sink (AudioSink.init (now (set_tick (S (tick w)) w)))
                 (set_tick (S (tick w)) w)))
      with (listening_to w).
    set (w0 := listening_to w).
    assert (Hbody : final (try_except (voice_loop env self room rounds) (fun _ => ret tt) w0)
                    = final (voice_loop env self room rounds w0)).
    { rewrite try_except_pass; [reflexivity |].
      intros e. apply voice_loop_never_raises. }
    cbv zeta. rewrite <- Hbody. clear Hbody.
    pose proof (emits_try_except still_listening (voice_loop env self room rounds)
                  (fun _ => ret tt) (emits_voice_loop env self room rounds)
                  (fun _ => emits_ret _ tt) w0) as Hes.
    assert (Hraise : forall e,
              result (try_except (voice_loop env self room rounds) (fun _ => ret tt) w0)
              <> Raise e).
    { intros e. unfold try_except. cbv zeta.
      destruct (result (voice_loop env self room rounds w0)) as [a|e0| |] eqn:E;
        rewrite ?E; cbn [result ret]; discriminate. }
    unfold try_finally. cbv zeta. revert Hes Hraise.
    generalize (try_except (voice_loop env self room rounds) (fun _ => ret tt) w0).
    intros [r1 w1 es1]. cbn [result final events].
    destruct (stop_and_cleanup_run env w1) as (_ & He & Ht & Hok & Hko).
    revert He Ht Hok Hko. generalize (stop_and_cleanup env w1).
    intros [r2 w2 es2]. cbn [result final events].
    intros -> Ht Hok Hko Hes Hraise Hfuel.
    assert (Hend : tick w2 = S (tick w1) /\
              (stop_listening env (tick w1) = Succeeds ->
               listening w2 = false /\ AudioSink.audio_data (sink w2) = []) /\
              (stop_listening env (tick w1) = Fails ->
               sink w2 = sink w1 /\ listening w2 = listening w1)).
    { split; [exact Ht |]. split; [exact Hok |].
      intros Hf. rewrite (Hko Hf). split; reflexivity. }
    destruct r1 as [[]|e| |]; cbn [result final events] in *;
      try (destruct (Hfuel eq_refl));
      try (destruct (Hraise e eq_refl));
      (split; [intros e'; discriminate |]);
      (split; [exists es1; split; [reflexivity | exact Hes] | exact Hend]).
Qed.

(** Services that answer at once and well, with a voice client that cannot
    listen. *)
Definition deaf (e : Env) : Env :=
  mkEnv (stt e) (http e) (tts e) (text_send e) (ffmpeg e) (play e)
        (fun _ => Fails) (stop_listening e).

(** A joined room that is left after one second, by the deletion of its
    entry and without the task being cancelled. *)
Definition room_left_after_a_second : World :=
  mkWorld 0 [] (Some 1000) true true false (AudioSink.init 0) None ∅ 0.

(** In that room the loop waits out its first silence, finds no audio,
    sleeps, finds the room left and ends, having stopped listening; with a
    client that cannot listen it ends at once by the exception. *)
Example full_voice_loop_runs :
  let self := mkVoiceHandler 3000 15000 (mkLMStudioClient 100 3 1000) in
  let r := full_voice_loop (obliging "hello" "Hi!" "reply.wav" 1200) self
             (mkRoom [] false) 5 room_left_after_a_second in
  let r' := full_voice_loop (deaf (obliging "hello" "Hi!" "reply.wav" 1200)) self
              (mkRoom [] false) 5 room_left_after_a_second in
  result r = Ret tt /\ joined (final r) = false /\ listening (final r) = false /\
  now (final r) = 3500 /\ listens (events r) = 1%nat /\
  last (events r) = Some EvStopListening /\
  result r' = Raise OtherError /\ events r' = [] /\ listening (final r') = false.
Proof. vm_compute. repeat split; reflexivity. Qed.

(* ===================================================================== *)
(** * stt_kyutai.py: the recognizer                                       *)
(* ===================================================================== *)

Module STTEngine.

(** [self.engine], [self.language], and whether [self.stt] holds a model
    ([self.stt is not None]). *)
Record t := mk { engine : string; language : string; stt : bool }.

(** [__init__] and [_initialize_stt]: the Whisper model is the only one
    tried; [whisper_loads] says whether [_try_init_whisper] got it. When it
    did, [engine] is set to ['whisper']; when it did not, [engine] stays what
    the configuration says and [stt] stays [None]. *)
Definition init (config_engine config_language : string) (whisper_loads : bool) : t :=
  if whisper_loads then mk "whisper" config_language true
  else mk config_engine config_language false.

(** [_transcribe_whisper]. [segments] is what the model makes of the audio:
    the texts of the segments, or [None] when anything in the [try] block
    raises (the normalisation, the resampling, the model). *)
Definition _transcribe_whisper (segments : option (list string)) : string :=
  match segments with
  | None => "[Transcription error]"
  | Some texts =>
      let text := Py.strip (String.concat " " texts) in
      if Py.is_empty text then "[No speech detected]" else text
  end.

(** [_transcribe_kyutai]. *)
Definition _transcribe_kyutai : string := "[Kyutai STT not available]".

(** [transcribe]. The two helpers raise nothing, so the [except] branch
    that answers ["[Transcription failed]"] is never taken. *)
Definition transcribe (self : t) (segments : option (list string)) : string :=
  if negb (stt self) then "[STT not available]"
  else if String.eqb (engine self) "whisper" then _transcribe_whisper segments
  else if String.eqb (engine self) "kyutai" then _transcribe_kyutai
  else "[Unknown STT engine]".

End STTEngine.

Lemma is_empty_false s : Py.is_empty s = false <-> s <> EmptyString.
Proof.
  unfold Py.is_empty. destruct (String.eqb_spec s EmptyString); split; congruence.
Qed.

Lemma sentinel_bracketed text :
  In text reserved_sentinels -> Py.startswith text "[" = true /\ text <> EmptyString.
Proof.
  intros Hin. simpl in Hin.
  repeat (destruct Hin as [<- | Hin]; [split; [reflexivity | discriminate] |]).
  destruct Hin.
Qed.

(** X14. What [STTEngine.transcribe] returns is never the empty text. It is
    one of the reserved bracketed texts, which the loop's filter drops, or,
    for an engine whose Whisper model is loaded and an audio the model made
    segments of, the texts of the segments joined by spaces and stripped. An
    engine as [__init__] builds it goes by the Whisper model or has none: it
    never takes the branch of the Kyutai engine or of an unknown one. *)
Theorem transcribe_text_or_sentinel self segments :
  STTEngine.transcribe self segments <> EmptyString /\
  ((In (STTEngine.transcribe self segments) reserved_sentinels /\
    Py.is_empty (STTEngine.transcribe self segments)
    || Py.startswith (STTEngine.transcribe self segments) "[" = true) \/
   (STTEngine.stt self = true /\
    exists texts,
      segments = Some texts /\
      STTEngine.transcribe self segments = Py.strip (String.concat " " texts))) /\
  (forall config_engine config_language whisper_loads,
     STTEngine.transcribe (STTEngine.init config_engine config_language whisper_loads)
       segments
     = if whisper_loads then STTEngine._transcribe_whisper segments
       else "[STT not available]"%string).
Proof.
  assert (Hsent : forall text, In text reserved_sentinels ->
            text <> EmptyString /\
            (In text reserved_sentinels /\
             Py.is_empty text || Py.startswith text "[" = true)).
  { intros text Hin. destruct (sentinel_bracketed text Hin) as [Hb Hne].
    split; [exact Hne |]. split; [exact Hin |]. rewrite Hb. apply orb_true_r. }
  assert (Hcases :
    STTEngine.transcribe self segments <> EmptyString /\
    ((In (STTEngine.transcribe self segments) reserved_sentinels /\
      Py.is_empty (STTEngine.transcribe self segments)
      || Py.startswith (STTEngine.transcribe self segments) "[" = true) \/
     (STTEngine.stt self = true /\
      exists texts,
        segments = Some texts /\
        STTEngine.transcribe self segments = Py.strip (String.concat " " texts)))).
  { unfold STTEngine.transcribe.
    destruct (STTEngine.stt self) eqn:Es; cbn [negb].
    2:{ destruct (Hsent "[STT not available]"%string) as [H1 H2];
          [simpl; tauto | split; [exact H1 | left; exact H2]]. }
    destruct (String.eqb (STTEngine.engine self) "whisper").
    - unfold STTEngine._transcribe_whisper. destruct segments as [texts|].
      + cbv zeta.
        destruct (Py.is_empty (Py.strip (String.concat " " texts))) eqn:Ee.
        * destruct (Hsent "[No speech detected]"%string) as [H1 H2];
            [simpl; tauto | split; [exact H1 | left; exact H2]].
        * split; [apply is_empty_false, Ee |]. right. split; [reflexivity |].
          exists texts. split; reflexivity.
      + destruct (Hsent "[Transcription error]"%string) as [H1 H2];
          [simpl; tauto | split; [exact H1 | left; exact H2]].
    - destruct (String.eqb (STTEngine.engine self) "kyutai").
      + destruct (Hsent "[Kyutai STT not available]"%string) as [H1 H2];
          [simpl; tauto | split; [exact H1 | left; exact H2]].
      + destruct (Hsent "[Unknown STT engine]"%string) as [H1 H2];
          [simpl; tauto | split; [exact H1 | left; exact H2]]. }
  destruct Hcases as [Hne Hor].
  split; [exact Hne | split; [exact Hor |]].
  intros config_engine config_language whisper_loads.
  destruct whisper_loads; reflexivity.
Qed.

Lemma recognizer_examples :
  STTEngine.transcribe (STTEngine.init "kyutai" "en" true) (Some [" Hello"; " there. "])
  = "Hello  there."%string /\
  STTEngine.transcribe (STTEngine.init "kyutai" "en" true) (Some [" "; ""])
  = "[No speech detected]"%string /\
  STTEngine.transcribe (STTEngine.init "kyutai" "en" false) (Some ["Hello"])
  = "[STT not available]"%string.
Proof. vm_compute. repeat split; reflexivity. Qed.

(* ===================================================================== *)
(** * discord_client.py: answering a text message                         *)
(* ===================================================================== *)

From Stdlib Require Import DecimalString.

Module PyStr.

(** [str(n)] for an [int]. *)
Definition of_int (n : Z) : string := NilZero.string_of_int (Z.to_int n).

(** [s.replace("", new)]: [new] goes before every character and at the
    end. *)
Fixpoint sprinkle (new s : string) : string :=
  match s with
  | EmptyString => new
  | String c rest => new ++ String c (sprinkle new rest)
  end.

(** [s.replace(old, new)] for an [old] that is not empty, read from the
    left; [skip] characters of an occurrence just replaced are still to be
    passed over. *)
Fixpoint replace_from (old new s : string) (skip : nat) : string :=
  match s with
  | EmptyString => EmptyString
  | String c rest =>
      match skip with
      | S k => replace_from old new rest k
      | O => if String.prefix old s
             then new ++ replace_from old new rest (String.length old - 1)
             else String c (replace_from old new rest 0)
      end
  end.

(** [s.replace(old, new)]. *)
Definition replace (s old new : string) : string :=
  if Py.is_empty old then sprinkle new s else replace_from old new s 0.

End PyStr.

(** A user a message mentions: [mention.mention] and [mention.id]. *)
Record Mention := mkMention { mention : string; id : Z }.

Record Message := mkMessage {
  author_bot : bool;              (* message.author.bot *)
  channel_id : Z;                 (* message.channel.id *)
  mentions : list Mention;        (* message.mentions *)
  content : string;               (* message.content *)
  reference : option Z            (* message.reference, by the id it names *)
}.

(** What [MerithBot] holds that [on_message] reads. *)
Record MerithBot := mkMerithBot {
  bot_user_id : Z;                (* self.bot.user.id *)
  whitelist_channels : list Z;
  chat_llm : LMStudioClient       (* self.llm_client *)
}.

(** Discord as the text handler meets it: beside the services of the voice
    loop, the fetching of the message a reply refers to (the id of its
    author, or [None] when the call raises) and the typing indicator. *)
Record Discord := mkDiscord {
  services : Env;
  fetch_message : nat -> N * option Z;
  typing : nat -> N * outcome
}.

Definition sorry_message : string := "Sorry, I couldn't generate a response.".
Definition error_message : string := "An error occurred.".

Section OnMessage.
Variable d : Discord.
Variable self : MerithBot.

(** [MerithBot._is_reply_to_bot]. Its [except:] is a bare one: it also
    takes a cancellation for a [False]. *)
Definition _is_reply_to_bot (message : Message) : M bool :=
  try_cancelled
    (try_except
       (match reference message with
        | None => ret false
        | Some _ =>
            k <- next_tick;;
            pause (Z.of_N (fst (fetch_message d k)));;
            match snd (fetch_message d k) with
            | Some author => ret (author =? bot_user_id self)
            | None => raise OtherError
            end
        end)
       (fun _ => ret false))
    (ret false).

(** [async with message.channel.typing():] on the way in. *)
Definition enter_typing : M unit :=
  k <- next_tick;;
  pause (Z.of_N (fst (typing d k)));;
  match snd (typing d k) with
  | Succeeds => ret tt
  | Fails => raise OtherError
  end.

(** [await message.reply(content, mention_author=False)]: a message sent
    to the channel, with a reference to the one answered. *)
Definition reply (content : string) : M unit := send (services d) content.

(** The [for chunk in self._chunk_text(response, 1950)] loop. *)
Fixpoint reply_all (chunks : list string) : M unit :=
  match chunks with
  | [] => ret tt
  | chunk :: rest => reply chunk;; reply_all rest
  end.

(** The text of a message with the mentions taken out (lines 95-98). *)
Definition clean_text (message : Message) : string :=
  Py.strip
    (fold_left
       (fun text m =>
          PyStr.replace (PyStr.replace text (mention m) "")
                        ("<@" ++ PyStr.of_int (id m) ++ ">") "")
       (mentions message) (content message)).

(** The chunks of a reply, as strings. *)
Definition chunks_of (response : string) : option (list string) :=
  option_map (map string_of_list_ascii)
             (_chunk_text (list_ascii_of_string response) reply_chunk_size).

(** [MerithBot.on_message]. *)
Definition on_message (message : Message) : M unit :=
  if author_bot message then ret tt else
  if negb (existsb (Z.eqb (channel_id message)) (whitelist_channels self)) then ret tt else
  let is_mention := existsb (fun m => id m =? bot_user_id self) (mentions message) in
  is_reply <- match reference message with
              | None => ret false
              | Some _ => _is_reply_to_bot message
              end;;
  if negb (is_mention || is_reply) then ret tt else
  let text := clean_text message in
  if Py.is_empty text then ret tt else
  enter_typing;;
  try_except
    (response <- generate_response_async (services d) (chat_llm self) text false None;;
     if negb (Py.is_empty response) && negb (Py.startswith response "[")
     then match chunks_of response with
          | Some chunks => reply_all chunks
          | None => raise OtherError
          end
     else reply sorry_message)
    (fun _ => reply error_message).

End OnMessage.

(** The messages a run sends. *)
Fixpoint sent (es : list Event) : list string :=
  match es with
  | [] => []
  | EvSend message :: rest => message :: sent rest
  | _ :: rest => sent rest
  end.

Lemma sent_app es1 es2 : sent (es1 ++ es2) = sent es1 ++ sent es2.
Proof.
  induction es1 as [|e es1 IH]; simpl; [reflexivity |].
  destruct e; simpl; rewrite ?IH; reflexivity.
Qed.

Lemma sent_advance d' w : sent (events (advance d' w)) = [].
Proof. destruct (advance_events d' w) as [-> | [path ->]]; reflexivity. Qed.

(** X15. [on_message] does nothing at all, no call to Discord, no request
    to the language model, no message, for a message whose author is a bot,
    for one from a channel that is not on the whitelist (any channel, when
    the whitelist is empty), for one that does not mention the bot and is not
    a reply, and for one whose text is empty once the mentions are taken
    out, when it is not a reply. *)
Theorem on_message_ignores d self message w :
  author_bot message = true \/
  existsb (Z.eqb (channel_id message)) (whitelist_channels self) = false \/
  (reference message = None /\
   (existsb (fun m => id m =? bot_user_id self) (mentions message) = false \/
    clean_text message = EmptyString)) ->
  on_message d self message w = mkReply (Ret tt) w [].
Proof.
  unfold on_message. cbv zeta.
  intros [Hb | [Hc | (Hr & Hm)]].
  - rewrite Hb. reflexivity.
  - destruct (author_bot message); [reflexivity |]. rewrite Hc. reflexivity.
  - destruct (author_bot message); [reflexivity |].
    destruct (negb (existsb (Z.eqb (channel_id message)) (whitelist_channels self)));
      [reflexivity |].
    rewrite Hr, bind_ret. rewrite orb_false_r.
    destruct Hm as [Hm | Hm].
    + rewrite Hm. reflexivity.
    + destruct (negb (existsb (fun m => id m =? bot_user_id self) (mentions message)));
        [reflexivity |].
      rewrite Hm. reflexivity.
Qed.

Definition passer_by : Message :=
  mkMessage false 42 [] "hello bot" None.

Lemma on_message_ignores_witness :
  existsb (Z.eqb (channel_id passer_by)) [] = false /\
  on_message (mkDiscord unreachable_llm (fun _ => (0%N, None)) (fun _ => (0%N, Succeeds)))
             (mkMerithBot 1 [] (mkLMStudioClient 100 3 1000)) passer_by reply_written
  = mkReply (Ret tt) reply_written [].
Proof.
  assert (H : existsb (Z.eqb (channel_id passer_by)) [] = false) by reflexivity.
  split; [exact H |].
  apply (on_message_ignores
           (mkDiscord unreachable_llm (fun _ => (0%N, None)) (fun _ => (0%N, Succeeds)))
           (mkMerithBot 1 [] (mkLMStudioClient 100 3 1000)) passer_by reply_written).
  right. left. exact H.
Defined.

(** A message Discord takes: not empty, and of 1950 characters at most. *)
Definition fits (e : Event) : Prop :=
  forall message, e = EvSend message ->
    (0 < String.length message <= 1950)%nat.

Lemma frame_fits : Frame any_world fits.
Proof. apply frame_any_world; intros ? ? ?; discriminate. Qed.

Lemma keeps_send_fits env message :
  (0 < String.length message <= 1950)%nat ->
  keeps any_world fits (send env message).
Proof.
  pose proof frame_fits as HF.
  intros Hm. unfold send.
  repeat first [ keeps_step | exact I ].
  intros m [= <-]. exact Hm.
Qed.

Lemma length_string_of_list_ascii l :
  String.length (string_of_list_ascii l) = length l.
Proof. induction l as [|c l IH]; simpl; [reflexivity | rewrite IH; reflexivity]. Qed.

Lemma string_of_list_ascii_app l1 l2 :
  string_of_list_ascii (l1 ++ l2)
  = (string_of_list_ascii l1 ++ string_of_list_ascii l2)%string.
Proof. induction l1 as [|c l1 IH]; cbn; [reflexivity | rewrite IH; reflexivity]. Qed.

Lemma append_empty_r (s : string) : (s ++ "")%string = s.
Proof.
  induction s as [|c s IH]; [reflexivity |].
  change (String c (s ++ "")%string = String c s). f_equal. exact IH.
Qed.

Lemma concat_pieces pieces :
  String.concat "" (map string_of_list_ascii pieces) = string_of_list_ascii (concat pieces).
Proof.
  induction pieces as [|p ps IH]; [reflexivity |].
  cbn [map concat]. rewrite string_of_list_ascii_app, <- IH.
  destruct ps as [|q qs]; cbn [map String.concat].
  - rewrite append_empty_r. reflexivity.
  - reflexivity.
Qed.

Lemma chunks_of_fit response chunks :
  chunks_of response = Some chunks ->
  Forall (fun chunk => (0 < String.length chunk <= 1950)%nat) chunks /\
  String.concat "" chunks = response.
Proof.
  unfold chunks_of. intros H.
  destruct (chunk_text_sizes (list_ascii_of_string response) reply_chunk_size)
    as (pieces & Hp & _ & Hne & _); [unfold reply_chunk_size; lia |].
  destruct (chunk_text_positive (list_ascii_of_string response) 1950)
    as (pieces' & Hp' & Hlen & Hcat); [lia |].
  change (Z.of_nat 1950) with reply_chunk_size in Hp'.
  rewrite Hp in Hp'. injection Hp' as <-.
  rewrite Hp in H. cbn [option_map] in H. injection H as <-.
  split.
  - apply Forall_forall. intros chunk Hin.
    apply list_elem_of_In, in_map_iff in Hin. destruct Hin as (piece & <- & Hin).
    rewrite length_string_of_list_ascii.
    rewrite Forall_forall in Hne, Hlen.
    apply list_elem_of_In in Hin.
    specialize (Hne _ Hin). specialize (Hlen _ Hin).
    destruct piece; [congruence | simpl in *; lia].
  - rewrite concat_pieces, Hcat. apply string_of_list_ascii_of_string.
Qed.

Section OnMessageFits.
Variable d : Discord.
Variable self : MerithBot.

Lemma keeps_reply_all chunks :
  Forall (fun chunk => (0 < String.length chunk <= 1950)%nat) chunks ->
  keeps any_world fits (reply_all d chunks).
Proof.
  pose proof frame_fits as HF.
  induction 1 as [|chunk rest Hc _ IH]; cbn [reply_all]; [apply keeps_ret |].
  apply keeps_bind; [apply keeps_send_fits, Hc | intros _; exact IH].
Qed.

Lemma keeps_on_message message : keeps any_world fits (on_message d self message).
Proof.
  pose proof frame_fits as HF.
  unfold on_message. cbv zeta.
  destruct (author_bot message); [apply keeps_ret |].
  destruct (negb (existsb (Z.eqb (channel_id message)) (whitelist_channels self)));
    [apply keeps_ret |].
  apply keeps_bind.
  { destruct (reference message); [| apply keeps_ret].
    unfold _is_reply_to_bot.
    repeat first [ keeps_step | exact I ]. }
  intros is_reply.
  destruct (negb (existsb (fun m => id m =? bot_user_id self) (mentions message) || is_reply));
    [apply keeps_ret |].
  destruct (Py.is_empty (clean_text message)); [apply keeps_ret |].
  apply keeps_bind.
  { unfold enter_typing. repeat first [ keeps_step | exact I ]. }
  intros _. apply keeps_try_except.
  - apply keeps_bind.
    + unfold generate_response_async. cbv zeta. apply keeps_attempts.
      intros a m. discriminate.
    + intros response.
      destruct (negb (Py.is_empty response) && negb (Py.startswith response "[")).
      * destruct (chunks_of response) as [chunks|] eqn:E; [| apply keeps_raise].
        apply keeps_reply_all. apply (chunks_of_fit response chunks E).
      * apply keeps_send_fits. cbn. lia.
  - intros e. apply keeps_send_fits. cbn. lia.
Qed.

End OnMessageFits.

Lemma sent_fits es :
  Forall fits es -> Forall (fun m => (0 < String.length m <= 1950)%nat) (sent es).
Proof.
  induction 1 as [|e es He _ IH]; cbn [sent]; [constructor |].
  destruct e; try exact IH. constructor; [apply He; reflexivity | exact IH].
Qed.

(** X16. Every message [on_message] sends, a chunk of the reply, the
    apology or the error text, has at least one character and at most 1950:
    none is refused by Discord for being empty or over its limit of 2000
    characters. *)
Theorem on_message_sends_what_fits d self message w :
  Forall (fun m => (0 < String.length m <= 1950)%nat)
         (sent (events (on_message d self message w))).
Proof. apply sent_fits. apply (keeps_on_message d self message w). Qed.

(** ** A reply that gets through *)

(** What a run that is not cancelled leaves of the messages it sent. *)
Definition calm_sent {A} (a : A) (messages : list string) (r : Reply A) : Prop :=
  result r = Ret a /\ cancel_in (final r) = None /\ sent (events r) = messages.

Lemma send_calm env message w :
  cancel_in w = None -> snd (text_send env (tick w)) = Succeeds ->
  calm_sent tt [message] (send env message w).
Proof.
  intros Hc Hok. unfold send, next_tick.
  rewrite bind_assoc, bind_get, bind_assoc, bind_modify, bind_ret, bind_emit.
  cbn [result final events].
  rewrite (bind_run _ _ _ tt)
    by (rewrite pause_calm by exact Hc; apply advance_result).
  cbn [result final events]. rewrite Hok. cbn [ret result final events].
  rewrite pause_calm by exact Hc.
  unfold calm_sent. cbn [result final events sent].
  rewrite advance_cancel_in, app_nil_r, sent_advance.
  repeat split; first [reflexivity | assumption].
Qed.

Lemma reply_all_calm d chunks :
  (forall k, snd (text_send (services d) k) = Succeeds) ->
  forall w, cancel_in w = None -> calm_sent tt chunks (reply_all d chunks w).
Proof.
  intros Hok. induction chunks as [|chunk rest IH]; intros w Hc; cbn [reply_all].
  - unfold calm_sent. cbn [ret result final events sent]. auto.
  - unfold reply.
    destruct (send_calm (services d) chunk w Hc (Hok _)) as (Hr & Hc1 & Hs).
    rewrite (bind_run _ _ _ _ Hr).
    destruct (IH _ Hc1) as (Hr2 & Hc2 & Hs2).
    unfold calm_sent. cbn [result final events].
    rewrite sent_app, Hs, Hs2. repeat split; first [reflexivity | assumption].
Qed.

Definition not_a_message (e : Event) : Prop := forall m, e <> EvSend m.

Lemma frame_not_a_message : Frame any_world not_a_message.
Proof. apply frame_any_world; intros ? ?; discriminate. Qed.

Lemma sent_none es : Forall not_a_message es -> sent es = [].
Proof.
  induction 1 as [|e es He _ IH]; cbn [sent]; [reflexivity |].
  destruct e; try exact IH. destruct (He _ eq_refl).
Qed.

Lemma enter_typing_calm d w :
  cancel_in w = None -> snd (typing d (tick w)) = Succeeds ->
  calm_sent tt [] (enter_typing d w).
Proof.
  intros Hc Hok. unfold enter_typing, next_tick.
  rewrite bind_assoc, bind_get, bind_assoc, bind_modify, bind_ret.
  rewrite (bind_run _ _ _ tt)
    by (rewrite pause_calm by exact Hc; apply advance_result).
  cbn [result final events tick set_tick]. rewrite Hok. cbn [ret result final events].
  rewrite pause_calm by exact Hc.
  unfold calm_sent. cbn [result final events].
  rewrite advance_cancel_in, app_nil_r, sent_advance.
  repeat split; first [reflexivity | assumption].
Qed.

(** [message.reference and await self._is_reply_to_bot(message)]. *)
Definition is_reply (d : Discord) (self : MerithBot) (message : Message) : M bool :=
  match reference message with
  | None => ret false
  | Some _ => _is_reply_to_bot d self message
  end.

(** The end of [on_message], for a message that is to be answered. *)
Definition answer (d : Discord) (self : MerithBot) (text : string) : M unit :=
  enter_typing d;;
  try_except
    (response <- generate_response_async (services d) (chat_llm self) text false None;;
     if negb (Py.is_empty response) && negb (Py.startswith response "[")
     then match chunks_of response with
          | Some chunks => reply_all d chunks
          | None => raise OtherError
          end
     else reply d sorry_message)
    (fun _ => reply d error_message).

Lemma try_except_ret_never_raises {A} (m : M A) (a : A) w e :
  result (try_except m (fun _ => ret a) w) <> Raise e.
Proof.
  unfold try_except. cbv zeta.
  destruct (result (m w)) as [a0|e0| |] eqn:E; rewrite ?E; cbn [result ret]; discriminate.
Qed.

(** Finding out whether the message is a reply to the bot sends nothing and
    raises nothing. *)
Lemma is_reply_calm d self message w :
  cancel_in w = None ->
  exists b, calm_sent b [] (is_reply d self message w).
Proof.
  intros Hc. unfold is_reply.
  destruct (reference message) as [ref|]; [| exists false; repeat split; assumption].
  assert (Hk : keeps any_world not_a_message (_is_reply_to_bot d self message)).
  { pose proof frame_not_a_message as HF. unfold _is_reply_to_bot.
    repeat first [ keeps_step | apply frame_tick ]. }
  destruct (Hk w) as (_ & Hev & Hcalm). destruct (Hcalm Hc) as (Hc' & Hnc & Hnf).
  apply sent_none in Hev.
  assert (Hnr : forall e, result (_is_reply_to_bot d self message w) <> Raise e).
  { intros e. unfold _is_reply_to_bot. unfold try_cancelled at 1. cbv zeta.
    match goal with
    | |- context [result (try_except ?m ?h w)] =>
        pose proof (try_except_ret_never_raises m false w) as Hn;
        destruct (result (try_except m h w)) as [b0|e0| |] eqn:E
    end; rewrite ?E; cbn [result ret]; try discriminate.
    destruct (Hn e0 eq_refl). }
  destruct (result (_is_reply_to_bot d self message w)) as [b|e| |] eqn:E;
    [| destruct (Hnr e eq_refl) | destruct (Hnc eq_refl) | destruct (Hnf eq_refl)].
  exists b. repeat split; assumption.
Qed.

(** The answer, when the typing indicator and the sends go through. *)
Lemma answer_calm d self text w response :
  cancel_in w = None ->
  snd (typing d (tick w)) = Succeeds ->
  (forall k, snd (text_send (services d) k) = Succeeds) ->
  result (generate_response_async (services d) (chat_llm self) text false None
            (final (enter_typing d w))) = Ret response ->
  result (answer d self text w) = Ret tt /\
  if negb (Py.is_empty response) && negb (Py.startswith response "[")
  then String.concat "" (sent (events (answer d self text w))) = response
  else sent (events (answer d self text w)) = [sorry_message].
Proof.
  intros Hc Hty Hsend Hg. unfold answer.
  destruct (enter_typing_calm d w Hc Hty) as (Hr1 & Hc1 & Hs1).
  rewrite (bind_run _ _ _ _ Hr1). cbn [result final events].
  set (w1 := final (enter_typing d w)) in *.
  destruct (@keeps_attempts any_world _ frame_not_a_message (services d) (chat_llm self)
              (max_tokens (chat_llm self)) text
              (default [] (Py.range 0 (retry_attempts (chat_llm self)) 1))
              ltac:(intros ? ?; discriminate) w1) as (_ & Hev & Hcalm).
  destruct (Hcalm Hc1) as (Hc2 & _).
  apply sent_none in Hev.
  change (attempts (services d) (chat_llm self) (max_tokens (chat_llm self)) text
            (default [] (Py.range 0 (retry_attempts (chat_llm self)) 1)))
    with (generate_response_async (services d) (chat_llm self) text false None)
    in Hev, Hc2.
  assert (Hbody : forall (k : string -> M unit) messages,
            calm_sent tt messages
              (k response (final (generate_response_async (services d) (chat_llm self)
                                    text false None w1))) ->
            calm_sent tt messages
              (try_except
                 (bind (generate_response_async (services d) (chat_llm self)
                          text false None) k)
                 (fun _ => reply d error_message) w1)).
  { intros k messages (Hr3 & Hc3 & Hs3).
    assert (Hrun : result (bind (generate_response_async (services d) (chat_llm self)
                                   text false None) k w1) = Ret tt)
      by (rewrite (bind_run _ _ _ _ Hg); exact Hr3).
    rewrite try_except_pass by (intros e He; rewrite Hrun in He; discriminate).
    rewrite (bind_run _ _ _ _ Hg). unfold calm_sent. cbn [result final events].
    rewrite sent_app, Hev, Hs3. repeat split; first [reflexivity | assumption]. }
  destruct (negb (Py.is_empty response) && negb (Py.startswith response "[")) eqn:Ep.
  - destruct (chunks_of response) as [chunks|] eqn:Ech.
    2:{ unfold chunks_of in Ech.
        destruct (chunk_text_positive (list_ascii_of_string response) 1950)
          as (pieces & Hp & _); [lia |].
        change (Z.of_nat 1950) with reply_chunk_size in Hp. rewrite Hp in Ech.
        discriminate. }
    destruct (Hbody (fun response0 =>
                if negb (Py.is_empty response0) && negb (Py.startswith response0 "[")
                then match chunks_of response0 with
                     | Some chunks0 => reply_all d chunks0
                     | None => raise OtherError
                     end
                else reply d sorry_message) chunks) as (Hr & _ & Hs).
    { cbv beta. rewrite Ep, Ech. apply reply_all_calm; assumption. }
    cbn [result events]. split; [exact Hr |].
    rewrite sent_app, Hs1, Hs. cbn [app].
    apply (chunks_of_fit response chunks Ech).
  - destruct (Hbody (fun response0 =>
                if negb (Py.is_empty response0) && negb (Py.startswith response0 "[")
                then match chunks_of response0 with
                     | Some chunks0 => reply_all d chunks0
                     | None => raise OtherError
                     end
                else reply d sorry_message) [sorry_message]) as (Hr & _ & Hs).
    { cbv beta. rewrite Ep. apply send_calm; [assumption | apply Hsend]. }
    cbn [result events]. split; [exact Hr |].
    rewrite sent_app, Hs1, Hs. reflexivity.
Qed.

(** X17. A message whose author is not a bot, from a whitelisted channel,
    that mentions the bot or is a reply to a message of the bot, with some
    text left once the mentions are taken out: when the typing indicator and
    every send go through and the handler is not cancelled, a reply of the
    language model that is neither empty nor bracketed is sent in chunks
    whose concatenation, in the order sent, is the reply; for an empty or
    bracketed reply the apology is sent, once, and nothing else. [w0] is the
    world once it is known whether the message is a reply to the bot. *)
Theorem on_message_sends_the_reply d self message w response :
  let w0 := final (is_reply d self message w) in
  author_bot message = false ->
  existsb (Z.eqb (channel_id message)) (whitelist_channels self) = true ->
  existsb (fun m => id m =? bot_user_id self) (mentions message) = true \/
    result (is_reply d self message w) = Ret true ->
  clean_text message <> EmptyString ->
  cancel_in w = None ->
  snd (typing d (tick w0)) = Succeeds ->
  (forall k, snd (text_send (services d) k) = Succeeds) ->
  result (generate_response_async (services d) (chat_llm self) (clean_text message)
            false None (final (enter_typing d w0))) = Ret response ->
  result (on_message d self message w) = Ret tt /\
  if negb (Py.is_empty response) && negb (Py.startswith response "[")
  then String.concat "" (sent (events (on_message d self message w))) = response
  else sent (events (on_message d self message w)) = [sorry_message].
Proof.
  intros w0 Hb Hw Hto Ht Hc Hty Hsend Hg.
  destruct (is_reply_calm d self message w Hc) as (b & Hr0 & Hc0 & Hs0).
  fold w0 in Hc0.
  destruct (answer_calm d self (clean_text message) w0 response Hc0 Hty Hsend Hg)
    as [Hra Hsa].
  assert (Hrun : on_message d self message w
                 = mkReply (result (answer d self (clean_text message) w0))
                           (final (answer d self (clean_text message) w0))
                           (events (is_reply d self message w)
                            ++ events (answer d self (clean_text message) w0))).
  { unfold on_message. cbv zeta. rewrite Hb, Hw. cbn [negb].
    change (match reference message with
            | Some _ => _is_reply_to_bot d self message
            | None => ret false
            end) with (is_reply d self message).
    rewrite (bind_run _ _ _ _ Hr0). fold w0.
    assert (Hor : existsb (fun m => id m =? bot_user_id self) (mentions message) || b
                  = true).
    { destruct Hto as [-> | Ht']; [reflexivity |].
      rewrite Hr0 in Ht'. injection Ht' as ->. apply orb_true_r. }
    rewrite Hor. cbn [negb].
    apply is_empty_false in Ht. rewrite Ht. reflexivity. }
  rewrite Hrun. cbn [result events]. split; [exact Hra |].
  rewrite sent_app, Hs0. cbn [app]. exact Hsa.
Qed.

(** A message that mentions the bot, and one that is a reply to a message
    of the bot and mentions nobody; a service that answers them, in a thread
    where the message replied to is the bot's. *)
Definition greeting : Message :=
  mkMessage false 42 [mkMention "<@1>" 1] "<@1> hello there" None.

Definition follow_up : Message := mkMessage false 42 [] "and then?" (Some 5).

Definition chatty : Discord :=
  mkDiscord (obliging "" "Hi!" "reply.wav" 0) (fun _ => (0%N, Some 1))
            (fun _ => (0%N, Succeeds)).

Lemma on_message_sends_the_reply_witness :
  clean_text follow_up <> EmptyString /\
  existsb (fun m => id m =? 1) (mentions follow_up) = false /\
  String.concat "" (sent (events (on_message chatty
                                   (mkMerithBot 1 [42] (mkLMStudioClient 100 3 1000))
                                   follow_up reply_written))) = "Hi!"%string /\
  String.concat "" (sent (events (on_message chatty
                                   (mkMerithBot 1 [42] (mkLMStudioClient 100 3 1000))
                                   greeting reply_written))) = "Hi!"%string.
Proof.
  set (bot := mkMerithBot 1 [42] (mkLMStudioClient 100 3 1000)).
  assert (Hne : clean_text follow_up <> EmptyString) by (vm_compute; discriminate).
  assert (Hne' : clean_text greeting <> EmptyString) by (vm_compute; discriminate).
  assert (Hto : existsb (fun m => id m =? bot_user_id bot) (mentions follow_up) = true \/
                result (is_reply chatty bot follow_up reply_written) = Ret true)
    by (right; vm_compute; reflexivity).
  assert (Hto' : existsb (fun m => id m =? bot_user_id bot) (mentions greeting) = true \/
                 result (is_reply chatty bot greeting reply_written) = Ret true)
    by (left; vm_compute; reflexivity).
  assert (Hg : result (generate_response_async (services chatty) (chat_llm bot)
                         (clean_text follow_up) false None
                         (final (enter_typing chatty
                                   (final (is_reply chatty bot follow_up reply_written)))))
               = Ret "Hi!"%string)
    by (vm_compute; reflexivity).
  assert (Hg' : result (generate_response_async (services chatty) (chat_llm bot)
                          (clean_text greeting) false None
                          (final (enter_typing chatty
                                    (final (is_reply chatty bot greeting reply_written)))))
                = Ret "Hi!"%string)
    by (vm_compute; reflexivity).
  split; [exact Hne |]. split; [reflexivity |]. split.
  - exact (proj2 (on_message_sends_the_reply chatty bot follow_up reply_written "Hi!"
                    eq_refl eq_refl Hto Hne eq_refl eq_refl (fun _ => eq_refl) Hg)).
  - exact (proj2 (on_message_sends_the_reply chatty bot greeting reply_written "Hi!"
                    eq_refl eq_refl Hto' Hne' eq_refl eq_refl (fun _ => eq_refl) Hg')).
Defined.

(* ===================================================================== *)
(** * What a turn never does                                              *)
(* ===================================================================== *)

(** A text the loop lets through to the synthesizer: not empty, not
    bracketed. *)
Definition proper (text : string) : Prop :=
  Py.is_empty text || Py.startswith text "[" = false.

Section KeepsFine.
Context {R : World -> World -> Prop} {P : Event -> Prop} `{!Frame R P}.
Variable env : Env.
Variable self : VoiceHandler.
Variable room : Room.
Hypothesis P_transcribe : forall samples, P (EvTranscribe samples).
Hypothesis P_post : forall a t m, P (EvPost a t m).
Hypothesis P_played : forall polls, P (EvPlayed polls).
Hypothesis P_send : log_channel room = true -> forall m, P (EvSend m).
Hypothesis P_synthesize : forall text, proper text -> P (EvSynthesize text).
Hypothesis P_play : forall path, Py.is_empty path = false -> P (EvPlay path).

Lemma keeps_log_send message :
  keeps R P (if log_channel room
             then try_except (send env message) (fun _ => ret tt)
             else ret tt).
Proof.
  destruct (log_channel room) eqn:El; [| apply keeps_ret].
  unfold send. repeat first [ keeps_step | apply frame_tick | apply (P_send eq_refl) ].
Qed.

Lemma keeps_play_response_fine response path :
  Py.is_empty path = false ->
  keeps R P (play_response env room response path).
Proof.
  intros Hne. unfold play_response.
  apply keeps_try_except.
  - apply keeps_bind.
    { unfold ffmpeg_source. repeat first [ keeps_step | apply frame_tick ]. }
    intros _. apply keeps_bind; [apply keeps_log_send |].
    intros _. apply keeps_bind.
    { unfold voice_client_play.
      repeat first [ keeps_step | apply frame_tick | apply frame_player | apply (P_play _ Hne) ]. }
    intros _. apply keeps_bind; [apply keeps_wait_for_playback |].
    intros waited. repeat first [ keeps_step | apply P_played ].
  - intros e. unfold remove.
    repeat first [ keeps_step | apply frame_files | apply frame_remove ].
Qed.

Lemma keeps_process_voice_message_fine user_message :
  keeps R P (process_voice_message env self room user_message).
Proof.
  unfold process_voice_message. apply keeps_bind_get. intros w.
  destruct (negb (joined w)); [apply keeps_ret |].
  apply keeps_try_except; [| intros; apply keeps_ret].
  apply keeps_bind.
  { unfold generate_response_async. cbv zeta. apply keeps_attempts. intros a. apply P_post. }
  intros response.
  destruct (Py.is_empty response || Py.startswith response "[") eqn:Ep; [apply keeps_ret |].
  apply keeps_bind.
  { unfold synthesize_async.
    repeat first [ keeps_step | apply frame_tick | apply frame_files
                 | apply (P_synthesize _ Ep) ]. }
  intros [path|]; [| apply keeps_ret].
  destruct (Py.is_empty path) eqn:Ee; [apply keeps_ret |].
  apply keeps_bind_get. intros w2.
  destruct (negb (file_exists path w2)); [apply keeps_ret |].
  apply keeps_play_response_fine, Ee.
Qed.

Lemma keeps_turn_stages_fine turn : keeps R P (turn_stages env self room turn).
Proof.
  unfold turn_stages. apply keeps_bind.
  { unfold transcribe. repeat first [ keeps_step | apply frame_tick | apply P_transcribe ]. }
  intros user_message.
  destruct (Py.is_empty user_message || Py.startswith user_message "[");
    [apply keeps_sleep |].
  destruct (only_noise user_message); [apply keeps_sleep |].
  apply keeps_bind; [apply keeps_log_send |].
  intros _. apply keeps_bind; [apply keeps_process_voice_message_fine |].
  intros _. apply keeps_sleep.
Qed.

Hypothesis R_reset : forall w, R w (set_sink (AudioSink.cleanup (sink w)) w).
Hypothesis P_listen : P EvListen.
Hypothesis P_reset : P EvReset.
Hypothesis P_turn : forall user name samples, P (EvTurn user name samples).
Hypothesis P_loop_error : P EvLoopError.

Lemma keeps_loop_round_fine : keeps R P (loop_round env self room).
Proof.
  unfold loop_round. apply keeps_try_except.
  - apply keeps_try_cancelled; [| apply keeps_ret].
    apply keeps_bind; [| intros; apply keeps_ret].
    unfold loop_body.
    apply keeps_bind; [apply keeps_emit, P_listen |].
    intros _. apply keeps_bind.
    { apply keeps_record_audio_from_channel; assumption. }
    intros [turn|]; [apply keeps_turn_stages_fine | apply keeps_sleep].
  - intros e. repeat first [ keeps_step | apply P_loop_error ].
Qed.

Lemma emits_voice_loop_fine rounds : emits P (voice_loop env self room rounds).
Proof.
  induction rounds as [|n IH]; cbn [voice_loop]; apply emits_bind_get; intros w.
  - destruct (joined w); intros w'; constructor.
  - destruct (joined w); [| apply emits_ret].
    apply emits_bind; [intros w'; apply keeps_loop_round_fine |].
    intros [|]; [apply IH | apply emits_ret].
Qed.

End KeepsFine.

(** X18. In a room for which no log channel is configured, the voice loop
    sends no text message at all, in any number of rounds. *)
Theorem no_log_channel_no_message env self room rounds w :
  log_channel room = false ->
  sent (events (voice_loop env self room rounds w)) = [].
Proof.
  intros Hlog. apply sent_none.
  apply (@emits_voice_loop_fine any_world _ frame_not_a_message env self room);
    first [ solve [intros; intros ?; discriminate]
          | solve [intros; exact I]
          | intros Hl; congruence ].
Qed.

Lemma no_log_channel_no_message_witness :
  log_channel (mkRoom [(7, "ann"%string)] false) = false /\
  sent (events (voice_loop (obliging "hello there" "Hi!" "reply.wav" 1200)
                  (mkVoiceHandler 3000 15000 (mkLMStudioClient 100 3 1000))
                  (mkRoom [(7, "ann"%string)] false) 2 two_utterances)) = [].
Proof.
  assert (H : log_channel (mkRoom [(7, "ann"%string)] false) = false) by reflexivity.
  split; [exact H |].
  exact (no_log_channel_no_message (obliging "hello there" "Hi!" "reply.wav" 1200)
           (mkVoiceHandler 3000 15000 (mkLMStudioClient 100 3 1000))
           (mkRoom [(7, "ann"%string)] false) 2 two_utterances H).
Defined.

(** What the loop may give the synthesizer and the player. *)
Definition speakable (e : Event) : Prop :=
  (forall text, e = EvSynthesize text -> proper text) /\
  (forall path, e = EvPlay path -> Py.is_empty path = false).

Lemma frame_speakable : Frame any_world speakable.
Proof. apply frame_any_world; intros ?; split; intros ? ?; discriminate. Qed.

(** X19. Whatever the services answer, in any number of rounds the voice
    loop asks the synthesizer only for texts that are neither empty nor
    bracketed, so that no reserved text of the recognizer or of the language
    model client is ever spoken, and it starts a playback only of a file
    whose path is not empty. *)
Theorem only_proper_replies_are_spoken env self room rounds w :
  Forall speakable (events (voice_loop env self room rounds w)).
Proof.
  apply (@emits_voice_loop_fine any_world _ frame_speakable env self room);
    first [ solve [intros; split; intros ? ?; discriminate]
          | solve [intros; exact I]
          | intros text Hp; split;
            [ intros t [= <-]; exact Hp | intros ? ?; discriminate ]
          | intros path Hp; split;
            [ intros ? ?; discriminate | intros p [= <-]; exact Hp ] ].
Qed.

(* ===================================================================== *)
(** * More of the extraction                                              *)
(* ===================================================================== *)

(** What a turn handed over is made of. *)
Definition taken_from (room : Room) (s : AudioSink.t) (turn : Turn) : Prop :=
  exists b rest,
    AudioSink.audio_data s = (user_id turn, b) :: rest /\
    AudioSink.get_audio_data (Some (user_id turn)) s = Some (audio turn) /\
    username turn = member_name (user_id turn) (members room).

Lemma handed_over_first_speaker room r0 r turn :
  handed_over room r0 r ->
  result r = Ret (Some turn) ->
  taken_from room (sink (final r0)) turn /\
  AudioSink.audio_data (sink (final r)) = [] /\
  AudioSink.last_packet_time (sink (final r)) = AudioSink.last_packet_time (sink (final r0)).
Proof.
  unfold handed_over. destruct r0 as [res w1 es]. cbn [result final events].
  intros H Hr.
  destruct res as [[|]|e| |]; try (rewrite H in Hr; discriminate).
  destruct (AudioSink.audio_data (sink w1)) as [|[user b] rest] eqn:Ea;
    [rewrite H in Hr; discriminate |].
  destruct (AudioSink.get_audio_data (Some user) (sink w1)) as [samples|] eqn:Eg;
    [| rewrite H in Hr; discriminate].
  destruct (joined w1); [| rewrite H in Hr; discriminate].
  rewrite H in Hr. cbn [result] in Hr. injection Hr as <-.
  rewrite H. cbn [final sink set_sink AudioSink.cleanup AudioSink.audio_data
                  AudioSink.last_packet_time audio user_id username].
  split; [| split; reflexivity].
  exists b, rest. cbn [audio user_id username]. auto.
Qed.

(** X20. When [record_audio_from_channel] hands a turn over, the turn is
    that of the speaker who was heard first since the buffers were last
    cleared: it holds the decoded buffer of that speaker, under the name the
    channel's member list gives for the speaker ("Unknown User" when it gives
    none). The buffers of all the speakers are cleared by it, also those of
    the speakers whose audio is not in the turn. *)
Theorem extraction_takes_the_first_speaker room duration w turn :
  joined w = true ->
  result (record_audio_from_channel room duration w) = Ret (Some turn) ->
  taken_from room
    (sink (final (wait_for_silence wait_rounds duration (now w)
                    (AudioSink.last_packet_time (sink w)) w))) turn /\
  AudioSink.audio_data (sink (final (record_audio_from_channel room duration w))) = [].
Proof.
  intros Hj Hr.
  destruct (handed_over_first_speaker room _ _ turn
              (record_audio_from_channel_cases room duration w Hj) Hr) as (H1 & H2 & _).
  split; assumption.
Qed.

(** A room where two people have spoken and are now silent. *)
Definition two_speakers : World :=
  mkWorld 5000 [] None false true true
    (AudioSink.mk [(7, [1; 0; 2; 0]); (8, [9; 0])] 1000) None ∅ 0.

Lemma extraction_takes_the_first_speaker_witness :
  joined two_speakers = true /\
  taken_from (mkRoom [(8, "bob"%string)] false)
    (sink (final (wait_for_silence wait_rounds default_duration (now two_speakers)
                    (AudioSink.last_packet_time (sink two_speakers)) two_speakers)))
    (mkTurn [1; 2] 7 "Unknown User").
Proof.
  assert (Hj : joined two_speakers = true) by reflexivity.
  assert (Hr : result (record_audio_from_channel (mkRoom [(8, "bob"%string)] false)
                         default_duration two_speakers)
               = Ret (Some (mkTurn [1; 2] 7 "Unknown User")))
    by (vm_compute; reflexivity).
  split; [exact Hj |].
  exact (proj1 (extraction_takes_the_first_speaker (mkRoom [(8, "bob"%string)] false)
                  default_duration two_speakers _ Hj Hr)).
Defined.

(* ===================================================================== *)
(** * A reply that comes while the previous one is still played           *)
(* ===================================================================== *)

Lemma wp_pause_calm d w (Q : res unit -> World -> list Event -> Prop) :
  cancel_in w = None ->
  Q (Ret tt) (final (advance d w)) (events (advance d w)) ->
  wp (pause d) w Q.
Proof.
  intros Hc H. unfold wp. rewrite (pause_calm d w Hc), advance_result. exact H.
Qed.

(** The player goes on for the next [d] milliseconds. *)
Lemma advance_still_playing d w q :
  player w = Some q -> d < p_left q ->
  player (final (advance d w)) = Some (mkPlayer (p_left q - d) (p_path q) (p_error q)) /\
  files (final (advance d w)) = files w /\ events (advance d w) = [].
Proof.
  intros Hq Hd. pose proof (advance_player d w) as H. rewrite Hq in H.
  destruct (Z.leb_spec (p_left q) d); [lia | exact H].
Qed.

Definition not_played_out (e : Event) : Prop := forall polls, e <> EvPlayed polls.

Ltac not_played_out_tac :=
  repeat (apply Forall_app; split); try assumption;
  repeat constructor; intros ?; discriminate.

(** [voice_client.play] while a source is playing, and what follows it. *)
Lemma play_refused env path w :
  is_playing w = true ->
  wp (voice_client_play env path;;
      waited <- wait_for_playback playback_polls;;
      emit (EvPlayed waited);; ret true) w
     (fun r w' es => (exists e, r = Raise e) /\ is_playing w' = true /\
                     Forall not_played_out es).
Proof.
  intros Hp. apply wp_bind. unfold voice_client_play. repeat wp_step.
  assert (Hp' : is_playing (set_tick (S (tick w)) w) = true) by exact Hp.
  rewrite Hp'. wp_step.
  split; [eauto |]. split; [exact Hp' |]. not_played_out_tac.
Qed.

(** The [try] block of [play_response] while a source is playing. *)
Lemma play_response_body_refused env room response path w q :
  cancel_in w = None ->
  player w = Some q ->
  (log_channel room = false \/ Z.of_N (fst (text_send env (S (tick w)))) < p_left q) ->
  wp (ffmpeg_source env path;;
      (if log_channel room
       then try_except (send env ("**Merith (Voice):** " ++ response)) (fun _ => ret tt)
       else ret tt);;
      voice_client_play env path;;
      waited <- wait_for_playback playback_polls;;
      emit (EvPlayed waited);;
      ret true) w
     (fun r w' es => (exists e, r = Raise e) /\ is_playing w' = true /\
                     Forall not_played_out es).
Proof.
  intros Hc Hq Hlog.
  assert (Hp1 : is_playing (set_tick (S (tick w)) w) = true)
    by (unfold is_playing; cbn [player set_tick]; rewrite Hq; reflexivity).
  apply wp_bind. unfold ffmpeg_source. apply wp_bind, wp_next_tick. cbv beta iota.
  destruct (ffmpeg env (tick w)); wp_step;
    [| split; [eauto |]; split; [exact Hp1 | not_played_out_tac]].
  apply wp_bind.
  destruct (log_channel room) eqn:El.
  - destruct Hlog as [Hlog | Hlat]; [discriminate |].
    apply wp_try_except. unfold send.
    apply wp_bind, wp_next_tick. cbv beta iota.
    apply wp_bind, wp_emit. cbv beta iota.
    apply wp_bind, wp_pause_calm; [exact Hc |].
    destruct (advance_still_playing
                (Z.of_N (fst (text_send env (tick (set_tick (S (tick w)) w)))))
                (set_tick (S (tick (set_tick (S (tick w)) w))) (set_tick (S (tick w)) w)) q)
      as (Hpl & _ & Hev); [exact Hq | exact Hlat |].
    assert (Hp2 : is_playing
                    (final (advance
                              (Z.of_N (fst (text_send env (tick (set_tick (S (tick w)) w)))))
                              (set_tick (S (tick (set_tick (S (tick w)) w)))
                                 (set_tick (S (tick w)) w)))) = true)
      by (unfold is_playing; rewrite Hpl; reflexivity).
    rewrite Hev. cbv beta iota.
    destruct (snd (text_send env (tick (set_tick (S (tick w)) w)))); wp_step; [| wp_step];
      (eapply wp_mono; [apply play_refused; exact Hp2 |]);
      intros r w' es (He & Hp & Hes); (split; [exact He |]); (split; [exact Hp |]);
      not_played_out_tac.
  - wp_step.
    eapply wp_mono; [apply play_refused; exact Hp1 |].
    intros r w' es (He & Hp & Hes). split; [exact He |]. split; [exact Hp |].
    not_played_out_tac.
Qed.

(** X21. A reply whose turn comes while the player is still busy with the
    previous one (a playback that outlasted its 30 s wait) is not played:
    [voice_client.play] refuses it, the play operation ends by an exception
    without waiting for any playback, the file of the reply is deleted at
    once, and the previous playback goes on. This holds when the log channel
    takes less time to be written to than the previous playback has left, or
    when there is none. *)
Theorem reply_dropped_while_playing env room response path w q :
  cancel_in w = None ->
  player w = Some q ->
  (log_channel room = false \/ Z.of_N (fst (text_send env (S (tick w)))) < p_left q) ->
  (exists e, result (play_response env room response path w) = Raise e) /\
  file_exists path (final (play_response env room response path w)) = false /\
  is_playing (final (play_response env room response path w)) = true /\
  Forall not_played_out (events (play_response env room response path w)).
Proof.
  intros Hc Hq Hlog.
  change (wp (play_response env room response path) w
            (fun r w' es => (exists e, r = Raise e) /\ file_exists path w' = false /\
                            is_playing w' = true /\ Forall not_played_out es)).
  unfold play_response. apply wp_try_except.
  eapply wp_mono; [apply (play_response_body_refused env room response path w q Hc Hq Hlog) |].
  intros r w1 es1 ([e ->] & Hp & Hes). repeat wp_step.
  destruct (file_exists path w1) eqn:Ef; unfold remove; repeat wp_step.
  - split; [eauto |]. split.
    { unfold file_exists. cbn [files set_files]. apply bool_decide_eq_false.
      rewrite elem_of_difference, elem_of_singleton. tauto. }
    split; [exact Hp | not_played_out_tac].
  - split; [eauto |]. split; [exact Ef |]. split; [exact Hp | not_played_out_tac].
Qed.

(** A reply of 45 s is still being played when the next one is ready. *)
Definition still_playing : World :=
  mkWorld 30000 [] None false true true (AudioSink.init 0)
          (Some (mkPlayer 15000 "first.wav" false))
          {["first.wav"%string; "second.wav"%string]} 7.

Lemma reply_dropped_while_playing_witness :
  cancel_in still_playing = None /\
  file_exists "second.wav"
    (final (play_response (obliging "hello" "Hi!" "second.wav" 1200) (mkRoom [] true)
              "Hi!" "second.wav" still_playing)) = false.
Proof.
  assert (Hc : cancel_in still_playing = None) by reflexivity.
  assert (Hq : player still_playing = Some (mkPlayer 15000 "first.wav" false))
    by reflexivity.
  assert (Hl : log_channel (mkRoom [] true) = false \/
               Z.of_N (fst (text_send (obliging "hello" "Hi!" "second.wav" 1200)
                              (S (tick still_playing))))
               < p_left (mkPlayer 15000 "first.wav" false))
    by (right; vm_compute; reflexivity).
  split; [exact Hc |].
  exact (proj1 (proj2 (reply_dropped_while_playing
                         (obliging "hello" "Hi!" "second.wav" 1200) (mkRoom [] true)
                         "Hi!" "second.wav" still_playing _ Hc Hq Hl))).
Defined.
